(** * Image processing pipeline: the native transform engine, its wire
      format and the worker-pool distributor

    A shallow embedding of [addon/image_processor.cpp] (pixel buffers, the
    12-byte header format, bilinear resize, luminance grayscale, the
    dimension computation of [ProcessImage]), of the lines of [worker.js]
    that pack the input of the addon and unpack its output, and of the
    [ImageProcessor] class of [index.js] (the event handlers that drive the
    worker pool), followed by the properties established about them.

    Conventions of the embedding:
    - [int] is a 32-bit two's-complement integer held in [Z]; signed
      overflow wraps ([wrap32]), the result the usual compilers produce;
    - [size_t] is a 64-bit unsigned integer held in [Z] ([to_size_t]);
    - [uint8_t] is a [Z] in [0, 256); a [std::vector<uint8_t>] is a
      [list Z];
    - [float] is IEEE-754 binary32, computed with the parameterised
      operations of [SpecFloat] at precision 24 and maximal exponent 128,
      every operation rounded to nearest-even;
    - a C++ function returns an [outcome]: a value, a thrown exception, or
      [Undefined] when it would access a vector out of its bounds. *)

From Stdlib Require Import String ZArith List Bool Lia.
From Stdlib Require Import Sorting.Permutation.
From Stdlib Require Import Reals Lra Psatz.
From Stdlib Require Import Floats.SpecFloat.
Import ListNotations.

Local Open Scope Z_scope.

(** ** Machine integers *)

Definition INT_MAX : Z := 2147483647.
Definition INT_MIN : Z := -2147483648.

(** Reduction of an integer to the range of [int]. *)
Definition wrap32 (z : Z) : Z := (z + 2147483648) mod 4294967296 - 2147483648.

(** Conversion of an [int] to [size_t]. *)
Definition to_size_t (z : Z) : Z := z mod 18446744073709551616.

(** Conversion to [uint8_t]. *)
Definition to_uint8 (z : Z) : Z := z mod 256.

Definition int_add (a b : Z) : Z := wrap32 (a + b).
Definition int_sub (a b : Z) : Z := wrap32 (a - b).
Definition int_mul (a b : Z) : Z := wrap32 (a * b).
(** [a << n] on [int]. *)
Definition int_shl (a n : Z) : Z := wrap32 (Z.shiftl a n).

Definition in_int (z : Z) : Prop := INT_MIN <= z <= INT_MAX.
Definition is_byte (z : Z) : Prop := 0 <= z < 256.

(** ** Outcomes of a C++ call *)

Inductive outcome (A : Type) : Type :=
| Returned (a : A)
| Thrown (what : string)
| Undefined.

Arguments Returned {A} a.
Arguments Thrown {A} what.
Arguments Undefined {A}.

Definition bind {A B : Type} (m : outcome A) (k : A -> outcome B) : outcome B :=
  match m with
  | Returned a => k a
  | Thrown w => Thrown w
  | Undefined => Undefined
  end.

Notation "'let!' x ':=' m 'in' k" := (bind m (fun x => k))
  (at level 10, x name, m at level 100, k at level 200).

(** ** Vectors of bytes indexed by integers *)

(** [v[i]]: outside the bounds the access is undefined. *)
Definition vec_get (v : list Z) (i : Z) : outcome Z :=
  if i <? 0 then Undefined
  else match nth_error v (Z.to_nat i) with
       | Some b => Returned b
       | None => Undefined
       end.

Fixpoint list_set (v : list Z) (n : nat) (b : Z) : list Z :=
  match v, n with
  | [], _ => []
  | _ :: t, O => b :: t
  | a :: t, S n' => a :: list_set t n' b
  end.

(** [v[i] = b]: outside the bounds the access is undefined. *)
Definition vec_set (v : list Z) (i : Z) (b : Z) : outcome (list Z) :=
  if (i <? 0) || (Z.of_nat (length v) <=? i) then Undefined
  else Returned (list_set v (Z.to_nat i) b).

Definition vec_size (v : list Z) : Z := Z.of_nat (length v).

(** [for (int i = 0; i < n; i++) body], threading the state [s]. *)
Fixpoint for_upto {St : Type} (count : nat) (i : Z)
  (body : Z -> St -> outcome St) (s : St) : outcome St :=
  match count with
  | O => Returned s
  | S count' => let! s' := body i s in for_upto count' (i + 1) body s'
  end.

Definition for_loop {St : Type} (n : Z) (body : Z -> St -> outcome St)
  (s : St) : outcome St :=
  for_upto (Z.to_nat n) 0 body s.

(** ** The pixel buffer *)

Record ImageData : Type := mkImage {
  data : list Z;
  width : Z;
  height : Z;
  channels : Z
}.

(** ** The wire format: [encodeAsJPEG] and [parseSimpleImage] *)

(** The [writeInt] lambda: four bytes, most significant first. *)
Definition writeInt (value : Z) : list Z :=
  [ Z.land (Z.shiftr value 24) 255;
    Z.land (Z.shiftr value 16) 255;
    Z.land (Z.shiftr value 8) 255;
    Z.land value 255 ].

Definition encodeAsJPEG (image : ImageData) : list Z :=
  writeInt (width image) ++ writeInt (height image) ++ writeInt (channels image)
  ++ data image.

(** The [readInt] lambda.  Each byte is promoted to [int] before the shift. *)
Definition readInt (bytes : list Z) (offset : Z) : outcome Z :=
  let! b0 := vec_get bytes offset in
  let! b1 := vec_get bytes (offset + 1) in
  let! b2 := vec_get bytes (offset + 2) in
  let! b3 := vec_get bytes (offset + 3) in
  Returned (Z.lor (Z.lor (Z.lor (int_shl b0 24) (int_shl b1 16)) (int_shl b2 8)) b3).

(** [v.assign(p + first, p + last)] on the input bytes [p[0..size)]. *)
Definition assign_range (bytes : list Z) (first last : Z) : outcome (list Z) :=
  if (last <? first) || (vec_size bytes <? last) then Undefined
  else Returned (firstn (Z.to_nat (last - first)) (skipn (Z.to_nat first) bytes)).

Definition too_small : string := "Invalid image data: too small".

(** The header check of [parseSimpleImage] and its fallback, which guesses
    the dimensions from the size of the input. *)
Definition header_invalid (w h c : Z) : bool :=
  (w <=? 0) || (h <=? 0) || (c <=? 0) || (4 <? c).

Definition guess_dimensions (size : Z) : Z * Z * Z :=
  let w := 100 in
  let h := wrap32 (size / to_size_t (int_mul w 3)) in
  if h <=? 0
  then (wrap32 (size / to_size_t (int_mul 100 3)), 100, 3)
  else (w, h, 3).

Definition expectedSize (w h c : Z) : Z :=
  to_size_t (int_add 12 (int_mul (int_mul w h) c)).

Definition parseSimpleImage (bytes : list Z) : outcome ImageData :=
  let size := vec_size bytes in
  if size <? 12 then Thrown too_small
  else
    let! w0 := readInt bytes 0 in
    let! h0 := readInt bytes 4 in
    let! c0 := readInt bytes 8 in
    let '(w, h, c) :=
      if header_invalid w0 h0 c0 then guess_dimensions size else (w0, h0, c0) in
    let expected := expectedSize w h c in
    let! payload :=
      if expected <=? size then assign_range bytes 12 expected
      else assign_range bytes 0 size in
    Returned (mkImage payload w h c).

(** The invariant of a pixel buffer. *)
Definition well_sized (img : ImageData) : Prop :=
  vec_size (data img) = width img * height img * channels img.

(** ** binary32 arithmetic *)

Definition float : Type := spec_float.
Definition prec : Z := 24.
Definition emax : Z := 128.

Definition fadd : float -> float -> float := SFadd prec emax.
Definition fsub : float -> float -> float := SFsub prec emax.
Definition fmul : float -> float -> float := SFmul prec emax.
Definition fdiv : float -> float -> float := SFdiv prec emax.

(** [static_cast<float>(z)] for an integer [z], rounded to nearest-even. *)
Definition float_of_int (z : Z) : float := binary_normalize prec emax z 0 false.

(** The integer part of a finite float, rounded toward zero. *)
Definition float_trunc (f : float) : option Z :=
  match f with
  | S754_zero _ => Some 0
  | S754_finite s m e => Some (cond_Zopp s (Z.shiftl (Zpos m) e))
  | _ => None
  end.

(** [static_cast<int>(f)].  Where the truncated value does not fit (the
    conversion is then undefined in C++) the model takes the result of the
    x86-64 conversion instruction, [INT_MIN]. *)
Definition int_of_float (f : float) : Z :=
  match float_trunc f with
  | Some z => if (INT_MIN <=? z) && (z <=? INT_MAX) then z else INT_MIN
  | None => INT_MIN
  end.

(** [static_cast<uint8_t>(f)]: conversion to [int], then to a byte. *)
Definition uint8_of_float (f : float) : Z := to_uint8 (int_of_float f).

(** [std::floor] on floats. *)
Definition ffloor (f : float) : float :=
  match f with
  | S754_finite s m e =>
      if 0 <=? e then f
      else
        let z := Z.shiftl (cond_Zopp s (Zpos m)) e in
        if z =? 0 then S754_zero s else float_of_int z
  | _ => f
  end.

(** The literals [0.299f], [0.587f] and [0.114f]. *)
Definition f0_299 : float := S754_finite false 10032775 (-25).
Definition f0_587 : float := S754_finite false 9848226 (-24).
Definition f0_114 : float := S754_finite false 15300821 (-27).

(** ** The transform engine *)

(** The dimension computation at the head of [ProcessImage]. *)
Definition computeTargetDimensions (srcW srcH maxWidth maxHeight : Z) : Z * Z :=
  let aspectRatio := fdiv (float_of_int srcW) (float_of_int srcH) in
  let newWidth := srcW in
  let newHeight := srcH in
  let '(newWidth, newHeight) :=
    if maxWidth <? srcW
    then (maxWidth, int_of_float (fdiv (float_of_int maxWidth) aspectRatio))
    else (newWidth, newHeight) in
  if maxHeight <? newHeight
  then (int_of_float (fmul (float_of_int maxHeight) aspectRatio), maxHeight)
  else (newWidth, newHeight).

(** The [getPixel] lambda of [bilinearInterpolate], with its defensive
    zero for coordinates outside the image. *)
Definition getPixel (d : list Z) (w h c : Z) (px py ch : Z) : outcome Z :=
  if (px <? 0) || (w <=? px) || (py <? 0) || (h <=? py) then Returned 0
  else vec_get d (int_add (int_mul (int_add (int_mul py w) px) c) ch).

(** The value of [top * (1 - dy) + bottom * dy] before the final cast. *)
Definition lerp (a b t : float) : float :=
  fadd (fmul a (fsub (float_of_int 1) t)) (fmul b t).

Definition bilinearValue (d : list Z) (w h c : Z) (x y : float) (channel : Z)
  : outcome float :=
  let x1 := int_of_float (ffloor x) in
  let y1 := int_of_float (ffloor y) in
  let x2 := Z.min (int_add x1 1) (int_sub w 1) in
  let y2 := Z.min (int_add y1 1) (int_sub h 1) in
  let dx := fsub x (float_of_int x1) in
  let dy := fsub y (float_of_int y1) in
  let! p11 := getPixel d w h c x1 y1 channel in
  let! p21 := getPixel d w h c x2 y1 channel in
  let top := lerp (float_of_int p11) (float_of_int p21) dx in
  let! p12 := getPixel d w h c x1 y2 channel in
  let! p22 := getPixel d w h c x2 y2 channel in
  let bottom := lerp (float_of_int p12) (float_of_int p22) dx in
  Returned (lerp top bottom dy).

Definition bilinearInterpolate (d : list Z) (w h c : Z) (x y : float)
  (channel : Z) : outcome Z :=
  let! v := bilinearValue d w h c x y channel in
  Returned (uint8_of_float v).

(** [bilinearInterpolate] once more, with a record of what each call of
    its [getPixel] lambda did, in the order of the calls in the text: the
    guard held and the defensive zero was returned, or [data[index]] was
    read. *)
Inductive pixel_access : Type :=
| Defensive (px py : Z)
| Loaded (px py : Z) (index : Z).

Definition getPixel_logged (d : list Z) (w h c : Z) (px py ch : Z)
  : outcome (Z * pixel_access) :=
  if (px <? 0) || (w <=? px) || (py <? 0) || (h <=? py)
  then Returned (0, Defensive px py)
  else
    let index := int_add (int_mul (int_add (int_mul py w) px) c) ch in
    let! b := vec_get d index in
    Returned (b, Loaded px py index).

Definition bilinearValue_logged (d : list Z) (w h c : Z) (x y : float)
  (channel : Z) : outcome (float * list pixel_access) :=
  let x1 := int_of_float (ffloor x) in
  let y1 := int_of_float (ffloor y) in
  let x2 := Z.min (int_add x1 1) (int_sub w 1) in
  let y2 := Z.min (int_add y1 1) (int_sub h 1) in
  let dx := fsub x (float_of_int x1) in
  let dy := fsub y (float_of_int y1) in
  let! p11 := getPixel_logged d w h c x1 y1 channel in
  let! p21 := getPixel_logged d w h c x2 y1 channel in
  let top := lerp (float_of_int (fst p11)) (float_of_int (fst p21)) dx in
  let! p12 := getPixel_logged d w h c x1 y2 channel in
  let! p22 := getPixel_logged d w h c x2 y2 channel in
  let bottom := lerp (float_of_int (fst p12)) (float_of_int (fst p22)) dx in
  Returned (lerp top bottom dy, [snd p11; snd p21; snd p12; snd p22]).

(** [v.resize(n)] on a fresh vector: [n] zero bytes, or [std::length_error]
    beyond the largest size a vector can take. *)
Definition vector_max_size : Z := 9223372036854775807.
Definition length_error : string := "vector::_M_default_append".

Definition vec_resize (n : Z) : outcome (list Z) :=
  if vector_max_size <? n then Thrown length_error
  else Returned (repeat 0 (Z.to_nat n)).

Definition resizeImage (input : ImageData) (newWidth newHeight : Z)
  : outcome ImageData :=
  let ch := channels input in
  let! out0 := vec_resize (to_size_t (int_mul (int_mul newWidth newHeight) ch)) in
  let xRatio := fdiv (float_of_int (width input)) (float_of_int newWidth) in
  let yRatio := fdiv (float_of_int (height input)) (float_of_int newHeight) in
  let! out :=
    for_loop newHeight (fun y =>
      for_loop newWidth (fun x =>
        let srcX := fmul (float_of_int x) xRatio in
        let srcY := fmul (float_of_int y) yRatio in
        for_loop ch (fun c out =>
          let! value :=
            bilinearInterpolate (data input) (width input) (height input) ch
              srcX srcY c in
          vec_set out (int_add (int_mul (int_add (int_mul y newWidth) x) ch) c)
            value))) out0 in
  Returned (mkImage out newWidth newHeight ch).

(** The float computed for one pixel of [convertToGrayscale]. *)
Definition luminance (r g b : Z) : float :=
  fadd (fadd (fmul f0_299 (float_of_int r)) (fmul f0_587 (float_of_int g)))
       (fmul f0_114 (float_of_int b)).

Definition convertToGrayscale (input : ImageData) : outcome ImageData :=
  let ch := channels input in
  let n := int_mul (width input) (height input) in
  let! out0 := vec_resize (to_size_t n) in
  let! out :=
    for_loop n (fun i out =>
      if 3 <=? ch then
        let! r := vec_get (data input) (int_mul i ch) in
        let! g := vec_get (data input) (int_add (int_mul i ch) 1) in
        let! b := vec_get (data input) (int_add (int_mul i ch) 2) in
        vec_set out i (uint8_of_float (luminance r g b))
      else
        let! v := vec_get (data input) (int_mul i ch) in
        vec_set out i v) out0 in
  Returned (mkImage out (width input) (height input) 1).

(** The body of [ProcessImage] on a buffer and two numbers; a C++ exception
    is rethrown to JavaScript with a prefix. *)
Definition processing_failed : string := "Image processing failed: ".

Definition ProcessImage (bytes : list Z) (maxWidth maxHeight : Z)
  : outcome (list Z) :=
  let run :=
    let! inputImage := parseSimpleImage bytes in
    let '(newWidth, newHeight) :=
      computeTargetDimensions (width inputImage) (height inputImage)
        maxWidth maxHeight in
    let! resizedImage :=
      if negb (newWidth =? width inputImage) || negb (newHeight =? height inputImage)
      then resizeImage inputImage newWidth newHeight
      else Returned inputImage in
    let! grayscaleImage := convertToGrayscale resizedImage in
    Returned (encodeAsJPEG grayscaleImage) in
  match run with
  | Thrown what => Thrown (processing_failed ++ what)
  | r => r
  end.

(** ** The distributor: [ImageProcessor] of [index.js]

    JavaScript runs one callback at a time, so the class is modelled by the
    effect of each callback on the fields of the object, on the listeners
    registered on the workers and on the promises of the calls in flight.
    What the workers and the timers do is an input: a list of events. *)

(** The message a worker posts back. *)
Record reply : Type := mkReply {
  r_success : bool;
  r_outputPath : string;
  r_error : string;
  r_inputPath : string
}.

(** The [Error] a call is rejected with. *)
Inductive failure : Type :=
| TimeoutError (workerIndex : nat) (imageFile : string)
| ReplyError (message : string)
| EmittedError (message : string).

Inductive promise : Type :=
| Pending
| Resolved (r : reply)
| Rejected (e : failure).

(** One call of [processImageWithWorker]: its arguments, its promise and
    whether its timer is still armed. *)
Record call : Type := mkCall {
  c_worker : nat;
  c_imageFile : string;
  c_promise : promise;
  c_timer : bool
}.

Record processor : Type := mkProcessor {
  pendingQueue : list string;
  processedImages : list string;
  activeJobs : Z;
  completedJobs : Z;
  totalJobs : Z;
  (** every call made so far, oldest first; a call is named by its index *)
  calls : list call;
  (** per worker, the calls whose [messageHandler] and [errorHandler] are
      registered on it, in the order of registration *)
  listeners : list (list nat);
  (** per worker, the call its [processWorkerQueue] loop awaits; [None]
      once the loop has ended *)
  awaiting : list (option nat)
}.

Inductive event : Type :=
| Message (w : nat) (r : reply)
| WorkerError (w : nat) (message : string)
| TimerFired (id : nat).

Fixpoint update {A : Type} (l : list A) (n : nat) (f : A -> A) : list A :=
  match l, n with
  | [], _ => []
  | a :: t, O => f a :: t
  | a :: t, S n' => a :: update t n' f
  end.

(** [emitter.off(name, handler)]: one registration of the handler goes. *)
Fixpoint remove_one (id : nat) (l : list nat) : list nat :=
  match l with
  | [] => []
  | a :: t => if Nat.eqb a id then t else a :: remove_one id t
  end.

(** [resolve] and [reject] act on a pending promise only. *)
Definition settle (id : nat) (p : promise) (st : processor) : processor :=
  mkProcessor (pendingQueue st) (processedImages st) (activeJobs st)
    (completedJobs st) (totalJobs st)
    (update (calls st) id (fun c =>
       match c_promise c with
       | Pending => mkCall (c_worker c) (c_imageFile c) p (c_timer c)
       | _ => c
       end))
    (listeners st) (awaiting st).

(** The start of both handlers: [clearTimeout(timeout)] and the two
    [worker.off] calls. *)
Definition unregister (w id : nat) (st : processor) : processor :=
  mkProcessor (pendingQueue st) (processedImages st) (activeJobs st)
    (completedJobs st) (totalJobs st)
    (update (calls st) id (fun c =>
       mkCall (c_worker c) (c_imageFile c) (c_promise c) false))
    (update (listeners st) w (remove_one id)) (awaiting st).

(** [messageHandler] of call [id], registered on worker [w]. *)
Definition messageHandler (w id : nat) (result : reply) (st : processor)
  : processor :=
  let st := unregister w id st in
  let st := mkProcessor (pendingQueue st) (processedImages st)
              (activeJobs st - 1) (completedJobs st + 1) (totalJobs st)
              (calls st) (listeners st) (awaiting st) in
  if r_success result then
    let st := mkProcessor (pendingQueue st)
                (processedImages st ++ [r_outputPath result])
                (activeJobs st) (completedJobs st) (totalJobs st)
                (calls st) (listeners st) (awaiting st) in
    settle id (Resolved result) st
  else settle id (Rejected (ReplyError (r_error result))) st.

(** [errorHandler] of call [id], registered on worker [w]. *)
Definition errorHandler (w id : nat) (message : string) (st : processor)
  : processor :=
  let st := unregister w id st in
  let st := mkProcessor (pendingQueue st) (processedImages st)
              (activeJobs st - 1) (completedJobs st) (totalJobs st)
              (calls st) (listeners st) (awaiting st) in
  settle id (Rejected (EmittedError message)) st.

(** The callback of [setTimeout]: it rejects, and does nothing else. *)
Definition timeoutCallback (id : nat) (st : processor) : processor :=
  match nth_error (calls st) id with
  | Some c =>
      let st := mkProcessor (pendingQueue st) (processedImages st)
                  (activeJobs st) (completedJobs st) (totalJobs st)
                  (update (calls st) id (fun c =>
                     mkCall (c_worker c) (c_imageFile c) (c_promise c) false))
                  (listeners st) (awaiting st) in
      settle id (Rejected (TimeoutError (c_worker c) (c_imageFile c))) st
  | None => st
  end.

(** The synchronous part of [processImageWithWorker]: a new call with its
    timer armed and its handlers registered last on the worker; the loop
    of the worker awaits it. *)
Definition processImageWithWorker (w : nat) (imageFile : string)
  (st : processor) : processor :=
  let id := length (calls st) in
  mkProcessor (pendingQueue st) (processedImages st)
    (activeJobs st + 1) (completedJobs st) (totalJobs st)
    (calls st ++ [mkCall w imageFile Pending true])
    (update (listeners st) w (fun l => l ++ [id]))
    (update (awaiting st) w (fun _ => Some id)).

Definition end_loop (w : nat) (st : processor) : processor :=
  mkProcessor (pendingQueue st) (processedImages st) (activeJobs st)
    (completedJobs st) (totalJobs st) (calls st) (listeners st)
    (update (awaiting st) w (fun _ => None)).

(** One turn of the [while] loop of [processWorkerQueue], up to its
    [await]: the next file is shifted off the queue and dispatched; the
    loop ends on an empty queue, or on a file name that is falsy. *)
Definition processWorkerQueue (w : nat) (st : processor) : processor :=
  match pendingQueue st with
  | [] => end_loop w st
  | imageFile :: rest =>
      let st := mkProcessor rest (processedImages st) (activeJobs st)
                  (completedJobs st) (totalJobs st) (calls st) (listeners st)
                  (awaiting st) in
      if String.eqb imageFile EmptyString then end_loop w st
      else processImageWithWorker w imageFile st
  end.

Definition is_settled (st : processor) (id : nat) : bool :=
  match nth_error (calls st) id with
  | Some c => match c_promise c with Pending => false | _ => true end
  | None => false
  end.

(** The loops whose awaited promise has been settled go on. *)
Definition resume_worker (st : processor) (w : nat) : processor :=
  match nth_error (awaiting st) w with
  | Some (Some id) => if is_settled st id then processWorkerQueue w st else st
  | _ => st
  end.

Definition resume (st : processor) : processor :=
  fold_left resume_worker (seq 0 (length (awaiting st))) st.

(** The effect of one event.  Emitting on a worker calls the handlers that
    were registered when the emission began. *)
Definition handle (st : processor) (e : event) : processor :=
  match e with
  | Message w result =>
      resume (fold_left (fun st id => messageHandler w id result st)
                        (nth w (listeners st) []) st)
  | WorkerError w message =>
      resume (fold_left (fun st id => errorHandler w id message st)
                        (nth w (listeners st) []) st)
  | TimerFired id =>
      match nth_error (calls st) id with
      | Some c => if c_timer c then resume (timeoutCallback id st) else st
      | None => st
      end
  end.

(** [processImageQueue] on a fresh processor with [workerCount] workers, up
    to its [await]: every loop is started in turn. *)
Definition processImageQueue (workerCount : nat) (imageFiles : list string)
  : processor :=
  fold_left (fun st w => processWorkerQueue w st) (seq 0 workerCount)
    (mkProcessor imageFiles [] 0 0 (Z.of_nat (length imageFiles)) []
       (repeat [] workerCount) (repeat None workerCount)).

Definition run (workerCount : nat) (imageFiles : list string)
  (events : list event) : processor :=
  fold_left handle events (processImageQueue workerCount imageFiles).

(** [Promise.all] resolves, and [processImageQueue] returns
    [this.processedImages], once every loop has ended. *)
Definition returned (st : processor) : option (list string) :=
  if forallb (fun a => match a with None => true | Some _ => false end)
       (awaiting st)
  then Some (processedImages st) else None.

Definition promise_of (st : processor) (id : nat) : option promise :=
  option_map c_promise (nth_error (calls st) id).

(** ** Notions used to state the properties *)

(** The byte at an index of a vector (0 outside it). *)
Definition byte_at (d : list Z) (i : Z) : Z := nth (Z.to_nat i) d 0.

(** A pixel buffer as the data model has it: positive dimensions, one to
    four channels, bytes in range and as many of them as the dimensions
    say. *)
Definition valid_buffer (img : ImageData) : Prop :=
  1 <= width img /\ 1 <= height img /\ 1 <= channels img <= 4 /\
  well_sized img /\ Forall is_byte (data img).

(** The number of bytes of a buffer is itself an [int]. *)
Definition fits_int (img : ImageData) : Prop :=
  width img * height img * channels img <= INT_MAX.

(** The sample [resizeImage] takes for the output byte at a flat index. *)
Definition resize_sample (input : ImageData) (newWidth newHeight : Z) (idx : Z)
  : outcome Z :=
  let ch := channels input in
  let x := (idx / ch) mod newWidth in
  let y := idx / ch / newWidth in
  bilinearInterpolate (data input) (width input) (height input) ch
    (fmul (float_of_int x)
          (fdiv (float_of_int (width input)) (float_of_int newWidth)))
    (fmul (float_of_int y)
          (fdiv (float_of_int (height input)) (float_of_int newHeight)))
    (idx mod ch).

(** The byte [convertToGrayscale] computes for the pixel at an index. *)
Definition gray_pixel (input : ImageData) (i : Z) : Z :=
  let ch := channels input in
  if 3 <=? ch
  then uint8_of_float (luminance (byte_at (data input) (i * ch))
                                 (byte_at (data input) (i * ch + 1))
                                 (byte_at (data input) (i * ch + 2)))
  else byte_at (data input) (i * ch).

(** The number of handler registrations over all workers. *)
Definition registered (st : processor) : nat :=
  list_sum (map (@length nat) (listeners st)).

(** The bookkeeping of a processor that was given [n] files. *)
Definition counted (n : Z) (st : processor) : Prop :=
  Z.of_nat (length (processedImages st)) <= completedJobs st /\
  completedJobs st + Z.of_nat (registered st) <= Z.of_nat (length (calls st)) /\
  Z.of_nat (length (calls st)) + Z.of_nat (length (pendingQueue st)) <= n.

(** Every path in [processedImages] comes from a reply that reported
    success. *)
Definition sourced (events : list event) (st : processor) : Prop :=
  forall p, In p (processedImages st) ->
    exists w r, In (Message w r) events /\ r_success r = true /\
                r_outputPath r = p.

(** ** Inputs used as examples *)

(** A 65536 x 32768 single-channel buffer of zero bytes. *)
Definition huge_buffer : ImageData :=
  mkImage (repeat 0 (Z.to_nat 2147483648)) 65536 32768 1.

(** The header of a 1 x 1 single-channel image, without its payload byte. *)
Definition header_only : list Z := [0; 0; 0; 1; 0; 0; 0; 1; 0; 0; 0; 1].

(** A 2 x 1 RGB image on the wire, followed by two stray bytes. *)
Definition two_pixels : list Z :=
  [0; 0; 0; 2; 0; 0; 0; 1; 0; 0; 0; 3; 255; 0; 0; 0; 255; 0; 9; 9].

Definition reply_a : reply := mkReply true "out/a.jpg" "" "in/a.jpg".
Definition reply_failed : reply := mkReply false "" "Input file is missing" "in/a.jpg".

(** The processor while its only worker is busy with file [f]. *)
Definition busy (cs : list call) (f : string) (queue processed : list string)
  (active completed total : Z) : processor :=
  mkProcessor queue processed active completed total
    (cs ++ [mkCall 0 f Pending true]) [[length cs]] [Some (length cs)].

Definition settled_by (r : reply) : promise :=
  if r_success r then Resolved r else Rejected (ReplyError (r_error r)).

Definition pushed (processed : list string) (r : reply) : list string :=
  if r_success r then processed ++ [r_outputPath r] else processed.

(** A single row of 16777218 gray pixels, all 0 but the last, which is
    255. *)
Definition wide_row : ImageData :=
  mkImage (repeat 0 (Z.to_nat 16777217) ++ [255]) 16777218 1 1.

(** A 46341 x 46341 RGB buffer of zero bytes: its pixel count is beyond
    [INT_MAX]. *)
Definition giant_rgb : ImageData :=
  mkImage (repeat 0 (Z.to_nat 6442464843)) 46341 46341 3.

(** A 65536 x 32769 single-channel buffer of zero bytes: the index of its
    last row is beyond [INT_MAX]. *)
Definition tall_buffer : ImageData :=
  mkImage (repeat 0 (Z.to_nat 2147549184)) 65536 32769 1.

(** The float 1. *)
Definition f_one : float := S754_finite false 8388608 (-23).

(** The floats 0.5 and 0.1f. *)
Definition f_half : float := S754_finite false 8388608 (-24).
Definition f_tenth : float := S754_finite false 13421773 (-27).

(** What is left of [binary_round_aux] once the mantissa is rounded. *)
Definition mk_float (s : bool) (m : Z) (e : Z) : float :=
  match m with
  | Z0 => S754_zero s
  | Zpos p => S754_finite s p e
  | Zneg _ => S754_nan
  end.

(** ** The worker around the addon: [processImage] of [worker.js] *)

(** [buf.writeInt32BE(value, offset)] stores a 32-bit integer in four
    bytes, most significant first. *)
Definition writeInt32BE (value : Z) : list Z :=
  [ Z.land (Z.shiftr value 24) 255;
    Z.land (Z.shiftr value 16) 255;
    Z.land (Z.shiftr value 8) 255;
    Z.land value 255 ].

(** [Buffer.concat([headerBuffer, rawInputData])]: the 12-byte header
    written from the metadata of the decoded file, then its raw pixels.
    The record holds the metadata with the raw pixels as its [data]. *)
Definition inputForCpp (metadata : ImageData) : list Z :=
  (writeInt32BE (width metadata) ++ writeInt32BE (height metadata)
   ++ writeInt32BE (channels metadata)) ++ data metadata.

Definition invalid_processed : string := "Invalid processed data from C++ addon".

(** [(b[o] << 24) | (b[o+1] << 16) | (b[o+2] << 8) | b[o+3]] on the bytes of
    a Buffer: [<<] yields a 32-bit integer, and so does [|]. *)
Definition js_field (rawBuffer : list Z) (offset : nat) : Z :=
  Z.lor (Z.lor (Z.lor (int_shl (nth offset rawBuffer 0) 24)
                      (int_shl (nth (offset + 1) rawBuffer 0) 16))
               (int_shl (nth (offset + 2) rawBuffer 0) 8))
        (nth (offset + 3) rawBuffer 0).

(** What the worker takes from the buffer the addon returned and hands to
    the JPEG encoder: the pixels [rawBuffer.slice(12)] with the width,
    height and channel count read from the header. *)
Definition unpack_processed (rawBuffer : list Z) : outcome ImageData :=
  if vec_size rawBuffer <? 12 then Thrown invalid_processed
  else Returned (mkImage (skipn 12 rawBuffer) (js_field rawBuffer 0)
                         (js_field rawBuffer 4) (js_field rawBuffer 8)).

(** ** Notions for the distributor *)

(** The counters agree with the registrations: [activeJobs] is the number
    of calls whose handlers are registered, and every worker has its list
    of handlers and its loop. *)
Definition balanced (n : nat) (st : processor) : Prop :=
  totalJobs st = Z.of_nat n /\
  activeJobs st = Z.of_nat (registered st) /\
  length (listeners st) = length (awaiting st).

(** The files of the calls made so far, followed by the queue. *)
Definition dispatched (st : processor) : list string :=
  map c_imageFile (calls st).

Definition conserved (imageFiles : list string) (st : processor) : Prop :=
  dispatched st ++ pendingQueue st = imageFiles /\
  Forall (fun f => f <> EmptyString) (pendingQueue st).

(** A processor without calls, handlers or running loops. *)
Definition idle (st : processor) : Prop :=
  calls st = [] /\
  Forall (fun l => l = []) (listeners st) /\
  Forall (fun a => a = None) (awaiting st).

(** The processor once [processImageQueue] has started every loop: the
    first files went to the workers 0, 1, ... in turn, one each. *)
Definition started (workerCount : nat) (imageFiles : list string) : processor :=
  let k := Nat.min workerCount (length imageFiles) in
  mkProcessor (skipn k imageFiles) [] (Z.of_nat k) 0
    (Z.of_nat (length imageFiles))
    (map (fun w => mkCall w (nth w imageFiles EmptyString) Pending true)
         (seq 0 k))
    (map (fun w => [w]) (seq 0 k) ++ repeat [] (workerCount - k))
    (map Some (seq 0 k) ++ repeat None (workerCount - k)).

Definition is_timer (e : event) : bool :=
  match e with TimerFired _ => true | _ => false end.

(** The state of one worker between two events: its loop has ended and no
    handler is registered on it, or its loop awaits a pending call made
    for it, whose handlers are the only ones registered on it. *)
Definition slot_ok (st : processor) (w : nat) : Prop :=
  match nth w (awaiting st) None with
  | None => nth w (listeners st) [] = []
  | Some id =>
      nth w (listeners st) [] = [id] /\
      exists c, nth_error (calls st) id = Some c /\
                c_promise c = Pending /\ c_worker c = w
  end.

Definition exclusive (st : processor) : Prop :=
  length (listeners st) = length (awaiting st) /\ forall w, slot_ok st w.

(** The output paths of the calls that were resolved, in the order of the
    calls. *)
Definition outputs (cs : list call) : list string :=
  flat_map (fun c => match c_promise c with
                     | Resolved r => [r_outputPath r]
                     | _ => []
                     end) cs.

Definition is_rejected (c : call) : bool :=
  match c_promise c with Rejected _ => true | _ => false end.

(** What the promise of a call says when no timer has fired: a pending
    call is the one the loop of its worker awaits; a resolved call got a
    reply of its worker that reported success; a rejected call got a
    reply of its worker that reported failure, or its worker emitted an
    error. *)
Definition explained (events : list event) (st : processor) (id : nat)
  (c : call) : Prop :=
  match c_promise c with
  | Pending => nth (c_worker c) (awaiting st) None = Some id
  | Resolved r => r_success r = true /\ In (Message (c_worker c) r) events
  | Rejected (ReplyError m) =>
      exists r, r_success r = false /\ r_error r = m /\
                In (Message (c_worker c) r) events
  | Rejected (EmittedError m) => In (WorkerError (c_worker c) m) events
  | Rejected (TimeoutError _ _) => False
  end.

(** The account of a processor on which no timer has fired: the list of
    results holds the output paths of the resolved calls, every call is
    explained, and a loop has ended only if the queue is empty. *)
Definition accounted (events : list event) (st : processor) : Prop :=
  Permutation (processedImages st) (outputs (calls st)) /\
  (forall id c, nth_error (calls st) id = Some c -> explained events st id c) /\
  (pendingQueue st = [] \/ Forall (fun a => a <> None) (awaiting st)).

(** The worker that sends an event; a timer is no worker's. *)
Definition event_worker (e : event) : option nat :=
  match e with
  | Message w _ => Some w
  | WorkerError w _ => Some w
  | TimerFired _ => None
  end.

(** The output paths of the replies among the events that reported
    success, in the order of the events. *)
Definition delivered (events : list event) : list string :=
  flat_map (fun e => match e with
                     | Message _ r =>
                         if r_success r then [r_outputPath r] else []
                     | _ => []
                     end) events.

(** Every event is a reply or an error of a worker whose loop awaits a
    call at that moment: no timer fires, and no worker speaks unasked. *)
Definition answered (workerCount : nat) (imageFiles : list string)
  (events : list event) : Prop :=
  forall pre e post, events = pre ++ e :: post ->
    exists w id, event_worker e = Some w /\
      nth w (awaiting (run workerCount imageFiles pre)) None = Some id.

Definition reply_b : reply := mkReply true "out/b.jpg" "" "in/b.jpg".

(** ** The real value of a float *)

Definition bpow (e : Z) : R := powerRZ 2 e.

Definition B2R (f : float) : R :=
  match f with
  | S754_finite s m e => (IZR (cond_Zopp s (Zpos m)) * bpow e)%R
  | _ => 0%R
  end.

(** A binary32 value that is a number: zero, or finite with its mantissa
    and exponent in canonical form. *)
Definition good (f : float) : Prop :=
  match f with
  | S754_zero _ => True
  | S754_finite _ m e => bounded prec emax m e = true
  | _ => False
  end.

(** [0 <= f <= n], compared exactly. *)
Definition float_in_range (f : float) (n : Z) : bool :=
  match f with
  | S754_zero _ => 0 <=? n
  | S754_finite false m e =>
      if 0 <=? e then Zpos m * 2 ^ e <=? n else Zpos m <=? n * 2 ^ (- e)
  | _ => false
  end.



(** * Properties *)

(** ** Integers, vectors and loops *)

Lemma wrap32_small (z : Z) : INT_MIN <= z <= INT_MAX -> wrap32 z = z.
Proof.
  unfold INT_MIN, INT_MAX, wrap32. intros H.
  rewrite Z.mod_small by lia. lia.
Qed.

Lemma wrap32_range (z : Z) : INT_MIN <= wrap32 z <= INT_MAX.
Proof.
  unfold INT_MIN, INT_MAX, wrap32.
  pose proof (Z.mod_pos_bound (z + 2147483648) 4294967296). lia.
Qed.

Lemma to_size_t_small (z : Z) : 0 <= z <= INT_MAX -> to_size_t z = z.
Proof.
  unfold INT_MAX, to_size_t. intros H. apply Z.mod_small. lia.
Qed.

Lemma vec_size_nonneg (v : list Z) : 0 <= vec_size v.
Proof. unfold vec_size. lia. Qed.

Lemma vec_size_app (u v : list Z) : vec_size (u ++ v) = vec_size u + vec_size v.
Proof. unfold vec_size. rewrite length_app. lia. Qed.

Lemma vec_size_cons (a : Z) (v : list Z) : vec_size (a :: v) = 1 + vec_size v.
Proof. unfold vec_size. cbn [length]. lia. Qed.

Lemma vec_size_repeat (a n : Z) : 0 <= n -> vec_size (repeat a (Z.to_nat n)) = n.
Proof. intros H. unfold vec_size. rewrite repeat_length. apply Z2Nat.id, H. Qed.

Lemma vec_get_cons_0 (a : Z) (v : list Z) : vec_get (a :: v) 0 = Returned a.
Proof. reflexivity. Qed.

Lemma vec_get_cons_pos (a : Z) (v : list Z) (i : Z) :
  0 < i -> vec_get (a :: v) i = vec_get v (i - 1).
Proof.
  intros H. unfold vec_get.
  destruct (Z.ltb_spec i 0); [lia|]. destruct (Z.ltb_spec (i - 1) 0); [lia|].
  replace (Z.to_nat i) with (S (Z.to_nat (i - 1))) by lia. reflexivity.
Qed.

Lemma vec_get_defined (v : list Z) (i : Z) :
  0 <= i < vec_size v -> exists b, vec_get v i = Returned b /\ In b v.
Proof.
  unfold vec_size, vec_get. intros H.
  destruct (Z.ltb_spec i 0); [lia|].
  destruct (nth_error v (Z.to_nat i)) as [b|] eqn:E.
  - exists b. split; [reflexivity|]. eapply nth_error_In, E.
  - apply nth_error_None in E. lia.
Qed.

Lemma vec_get_app_l (u v : list Z) (i : Z) :
  0 <= i < vec_size u -> vec_get (u ++ v) i = vec_get u i.
Proof.
  unfold vec_size, vec_get. intros H.
  destruct (Z.ltb_spec i 0); [lia|].
  rewrite nth_error_app1 by lia. reflexivity.
Qed.

Lemma vec_get_app_r (u v : list Z) (i : Z) :
  vec_size u <= i -> vec_get (u ++ v) i = vec_get v (i - vec_size u).
Proof.
  unfold vec_size, vec_get. intros H.
  destruct (Z.ltb_spec i 0); [lia|].
  destruct (Z.ltb_spec (i - Z.of_nat (length u)) 0); [lia|].
  rewrite nth_error_app2 by lia.
  replace (Z.to_nat (i - Z.of_nat (length u))) with (Z.to_nat i - length u)%nat
    by lia.
  reflexivity.
Qed.

Lemma vec_get_repeat (a n i : Z) :
  0 <= i < n -> vec_get (repeat a (Z.to_nat n)) i = Returned a.
Proof.
  intros H.
  destruct (vec_get_defined (repeat a (Z.to_nat n)) i) as [b [E I]].
  - rewrite vec_size_repeat; lia.
  - apply repeat_spec in I. subst b. exact E.
Qed.

Lemma length_list_set (v : list Z) (n : nat) (b : Z) :
  length (list_set v n b) = length v.
Proof.
  revert n. induction v as [|a v IH]; intros [|n]; cbn; auto.
Qed.

Lemma nth_error_list_set_eq (v : list Z) (n : nat) (b : Z) :
  (n < length v)%nat -> nth_error (list_set v n b) n = Some b.
Proof.
  revert n. induction v as [|a v IH]; intros [|n] H; cbn in *; try lia; auto.
  apply IH. lia.
Qed.

Lemma nth_error_list_set_neq (v : list Z) (n k : nat) (b : Z) :
  n <> k -> nth_error (list_set v n b) k = nth_error v k.
Proof.
  revert n k. induction v as [|a v IH]; intros [|n] [|k] H; cbn; auto.
  contradiction.
Qed.

Lemma vec_set_defined (v : list Z) (i b : Z) :
  0 <= i < vec_size v ->
  vec_set v i b = Returned (list_set v (Z.to_nat i) b).
Proof.
  unfold vec_size, vec_set. intros H.
  destruct (Z.ltb_spec i 0); [lia|].
  destruct (Z.leb_spec (Z.of_nat (length v)) i); [lia|]. reflexivity.
Qed.

Lemma vec_set_inv (v v' : list Z) (i b : Z) :
  vec_set v i b = Returned v' ->
  0 <= i < vec_size v /\ v' = list_set v (Z.to_nat i) b.
Proof.
  unfold vec_size, vec_set.
  destruct (Z.ltb_spec i 0); [discriminate|].
  destruct (Z.leb_spec (Z.of_nat (length v)) i); [discriminate|].
  cbn. intros E. injection E as <-. split; [lia | reflexivity].
Qed.

Lemma vec_size_list_set (v : list Z) (n : nat) (b : Z) :
  vec_size (list_set v n b) = vec_size v.
Proof. unfold vec_size. now rewrite length_list_set. Qed.

Lemma vec_get_list_set_eq (v : list Z) (i b : Z) :
  0 <= i < vec_size v -> vec_get (list_set v (Z.to_nat i) b) i = Returned b.
Proof.
  unfold vec_size, vec_get. intros H.
  destruct (Z.ltb_spec i 0); [lia|].
  rewrite nth_error_list_set_eq by lia. reflexivity.
Qed.

Lemma vec_get_list_set_neq (v : list Z) (i k b : Z) :
  0 <= i -> 0 <= k -> i <> k ->
  vec_get (list_set v (Z.to_nat i) b) k = vec_get v k.
Proof.
  unfold vec_get. intros Hi Hk N.
  destruct (Z.ltb_spec k 0); [lia|].
  rewrite nth_error_list_set_neq by lia. reflexivity.
Qed.

(** Two vectors of one size that agree at every index are equal. *)
Lemma vec_ext (u v : list Z) :
  vec_size u = vec_size v ->
  (forall i, 0 <= i < vec_size u -> vec_get u i = vec_get v i) ->
  u = v.
Proof.
  unfold vec_size. intros L H.
  apply nth_error_ext. intros n.
  destruct (Nat.lt_ge_cases n (length u)) as [Hn|Hn].
  - specialize (H (Z.of_nat n) ltac:(lia)). unfold vec_get in H.
    destruct (Z.ltb_spec (Z.of_nat n) 0); [lia|].
    rewrite Nat2Z.id in H.
    destruct (nth_error u n) eqn:Eu, (nth_error v n) eqn:Ev;
      congruence.
  - transitivity (@None Z); [|symmetry]; apply nth_error_None; lia.
Qed.

(** The invariant rule of the counting loop. *)
Lemma for_upto_invariant {St : Type} (P : Z -> St -> Prop)
  (body : Z -> St -> outcome St) (count : nat) :
  forall (i : Z) (s : St),
  P i s ->
  (forall j t, i <= j < i + Z.of_nat count -> P j t ->
     exists t', body j t = Returned t' /\ P (j + 1) t') ->
  exists s', for_upto count i body s = Returned s' /\ P (i + Z.of_nat count) s'.
Proof.
  induction count as [|count IH]; intros i s HP Hbody.
  - exists s. cbn. rewrite Z.add_0_r. auto.
  - destruct (Hbody i s ltac:(lia) HP) as [t [E Ht]].
    cbn [for_upto]. rewrite E. cbn [bind].
    destruct (IH (i + 1) t Ht) as [s' [E' Hs']].
    + intros j u Hj. apply Hbody. lia.
    + exists s'. split; [exact E'|].
      replace (i + Z.of_nat (S count)) with (i + 1 + Z.of_nat count) by lia.
      exact Hs'.
Qed.

Lemma for_loop_invariant {St : Type} (P : Z -> St -> Prop)
  (body : Z -> St -> outcome St) (n : Z) (s : St) :
  0 <= n ->
  P 0 s ->
  (forall j t, 0 <= j < n -> P j t ->
     exists t', body j t = Returned t' /\ P (j + 1) t') ->
  exists s', for_loop n body s = Returned s' /\ P n s'.
Proof.
  intros Hn HP Hbody. unfold for_loop.
  destruct (for_upto_invariant P body (Z.to_nat n) 0 s HP) as [s' [E Hs']].
  - intros j t Hj. apply Hbody. lia.
  - exists s'. split; [exact E|]. rewrite Z2Nat.id in Hs' by lia. exact Hs'.
Qed.

(** ** The wire format *)

Lemma testbit_255 (k : Z) : Z.testbit 255 k = (0 <=? k) && (k <? 8).
Proof. change 255 with (Z.ones 8). apply Z.testbit_ones. lia. Qed.

Lemma byte_of_int_range (v k : Z) : 0 <= Z.land (Z.shiftr v k) 255 < 256.
Proof.
  change 255 with (Z.ones 8). rewrite Z.land_ones by lia.
  apply Z.mod_pos_bound. reflexivity.
Qed.

Lemma writeInt_bytes (v : Z) : Forall is_byte (writeInt v).
Proof.
  unfold writeInt, is_byte. repeat constructor; try apply byte_of_int_range.
  - change (Z.land v 255) with (Z.land (Z.shiftr v 0) 255). apply byte_of_int_range.
  - change (Z.land v 255) with (Z.land (Z.shiftr v 0) 255). apply byte_of_int_range.
Qed.

Lemma testbit_high_false (v n k : Z) :
  0 <= v < 2 ^ n -> 0 <= n <= k -> Z.testbit v k = false.
Proof.
  intros Hv Hk. rewrite <- (Z.mod_small v (2 ^ n)) by lia.
  apply Z.mod_pow2_bits_high. lia.
Qed.

Lemma lane_bit (v k n : Z) :
  0 <= k -> 0 <= n ->
  Z.testbit (Z.shiftl (Z.land (Z.shiftr v k) 255) k) n
  = (k <=? n) && (n <? k + 8) && Z.testbit v n.
Proof.
  intros Hk Hn. rewrite Z.shiftl_spec by lia.
  destruct (Z.leb_spec k n).
  - rewrite Z.land_spec, Z.shiftr_spec, testbit_255 by lia.
    replace (n - k + k) with n by lia.
    destruct (Z.leb_spec 0 (n - k)); [|lia].
    destruct (Z.ltb_spec (n - k) 8), (Z.ltb_spec n (k + 8)); try lia; cbn;
      try apply andb_true_r; apply andb_false_r.
  - now rewrite Z.testbit_neg_r by lia.
Qed.

(** The four bytes written for a non-negative [int] are read back as it. *)
Lemma int_of_bytes (v : Z) :
  0 <= v <= INT_MAX ->
  Z.lor (Z.lor (Z.lor (int_shl (Z.land (Z.shiftr v 24) 255) 24)
                      (int_shl (Z.land (Z.shiftr v 16) 255) 16))
               (int_shl (Z.land (Z.shiftr v 8) 255) 8))
        (Z.land v 255) = v.
Proof.
  unfold INT_MAX. intros Hv. unfold int_shl.
  assert (H24 : 0 <= Z.land (Z.shiftr v 24) 255 < 128).
  { change 255 with (Z.ones 8). rewrite Z.land_ones, Z.shiftr_div_pow2 by lia.
    change (2 ^ 24) with 16777216. change (2 ^ 8) with 256.
    assert (0 <= v / 16777216 < 128).
    { split; [apply Z.div_pos; lia | apply Z.div_lt_upper_bound; lia]. }
    rewrite Z.mod_small; lia. }
  pose proof (byte_of_int_range v 16) as H16.
  pose proof (byte_of_int_range v 8) as H8.
  rewrite (wrap32_small (Z.shiftl _ 24))
    by (rewrite Z.shiftl_mul_pow2 by lia; unfold INT_MIN, INT_MAX; lia).
  rewrite (wrap32_small (Z.shiftl _ 16))
    by (rewrite Z.shiftl_mul_pow2 by lia; unfold INT_MIN, INT_MAX; lia).
  rewrite (wrap32_small (Z.shiftl _ 8))
    by (rewrite Z.shiftl_mul_pow2 by lia; unfold INT_MIN, INT_MAX; lia).
  apply Z.bits_inj'. intros n Hn.
  rewrite !Z.lor_spec, !lane_bit, Z.land_spec, testbit_255 by lia.
  destruct (Z.testbit v n) eqn:E.
  - assert (n < 31).
    { destruct (Z.lt_ge_cases n 31) as [L|L]; [exact L|].
      rewrite (testbit_high_false v 31 n) in E by lia. discriminate. }
    repeat match goal with
           | |- context [?a <=? ?b] => destruct (Z.leb_spec a b)
           | |- context [?a <? ?b] => destruct (Z.ltb_spec a b)
           end; cbn; try reflexivity; lia.
  - now rewrite !andb_false_r.
Qed.

Lemma readInt_app_r (u v : list Z) (off : Z) :
  vec_size u <= off -> readInt (u ++ v) off = readInt v (off - vec_size u).
Proof.
  intros H. unfold readInt.
  rewrite !vec_get_app_r by lia.
  replace (off + 1 - vec_size u) with (off - vec_size u + 1) by lia.
  replace (off + 2 - vec_size u) with (off - vec_size u + 2) by lia.
  replace (off + 3 - vec_size u) with (off - vec_size u + 3) by lia.
  reflexivity.
Qed.

Lemma readInt_writeInt (v : Z) (rest : list Z) :
  0 <= v <= INT_MAX -> readInt (writeInt v ++ rest) 0 = Returned v.
Proof.
  intros H. unfold readInt, writeInt. cbn [app Z.add].
  change (vec_get (?a :: ?l) 0) with (Returned a).
  change (vec_get (?a :: ?b :: ?l) 1) with (Returned b).
  change (vec_get (?a :: ?b :: ?c :: ?l) 2) with (Returned c).
  change (vec_get (?a :: ?b :: ?c :: ?d :: ?l) 3) with (Returned d).
  cbn [bind]. f_equal. apply int_of_bytes, H.
Qed.

Lemma readInt_defined (bytes : list Z) (off : Z) :
  0 <= off -> off + 3 < vec_size bytes -> exists v, readInt bytes off = Returned v.
Proof.
  intros H0 H. unfold readInt.
  destruct (vec_get_defined bytes off ltac:(lia)) as [b0 [E0 _]].
  destruct (vec_get_defined bytes (off + 1) ltac:(lia)) as [b1 [E1 _]].
  destruct (vec_get_defined bytes (off + 2) ltac:(lia)) as [b2 [E2 _]].
  destruct (vec_get_defined bytes (off + 3) ltac:(lia)) as [b3 [E3 _]].
  rewrite E0, E1, E2, E3. cbn [bind]. eauto.
Qed.

Lemma vec_size_writeInt (v : Z) : vec_size (writeInt v) = 4.
Proof. reflexivity. Qed.

Lemma vec_size_encode (image : ImageData) :
  vec_size (encodeAsJPEG image) = 12 + vec_size (data image).
Proof.
  unfold encodeAsJPEG. rewrite !vec_size_app, !vec_size_writeInt. lia.
Qed.

(** The header of an encoded buffer reads back as its three fields. *)
Lemma read_header_encode (image : ImageData) :
  0 <= width image <= INT_MAX ->
  0 <= height image <= INT_MAX ->
  0 <= channels image <= INT_MAX ->
  readInt (encodeAsJPEG image) 0 = Returned (width image) /\
  readInt (encodeAsJPEG image) 4 = Returned (height image) /\
  readInt (encodeAsJPEG image) 8 = Returned (channels image).
Proof.
  intros Hw Hh Hc. unfold encodeAsJPEG. repeat split.
  - apply readInt_writeInt, Hw.
  - rewrite readInt_app_r by (rewrite vec_size_writeInt; lia).
    rewrite vec_size_writeInt. apply readInt_writeInt, Hh.
  - rewrite readInt_app_r by (rewrite vec_size_writeInt; lia).
    rewrite readInt_app_r by (rewrite !vec_size_writeInt; lia).
    rewrite !vec_size_writeInt. apply readInt_writeInt, Hc.
Qed.

Lemma assign_range_all (bytes : list Z) :
  assign_range bytes 0 (vec_size bytes) = Returned bytes.
Proof.
  unfold assign_range.
  destruct (Z.ltb_spec (vec_size bytes) 0) as [H|H].
  { pose proof (vec_size_nonneg bytes). lia. }
  rewrite Z.ltb_irrefl. cbn [orb].
  rewrite Z.sub_0_r. unfold vec_size. rewrite Nat2Z.id.
  change (Z.to_nat 0) with 0%nat. cbn [skipn]. now rewrite firstn_all.
Qed.

Lemma assign_range_defined (bytes : list Z) (first last : Z) :
  0 <= first <= last -> last <= vec_size bytes ->
  assign_range bytes first last
  = Returned (firstn (Z.to_nat (last - first)) (skipn (Z.to_nat first) bytes)).
Proof.
  intros H1 H2. unfold assign_range.
  destruct (Z.ltb_spec last first); [lia|].
  destruct (Z.ltb_spec (vec_size bytes) last); [lia|]. reflexivity.
Qed.

Lemma vec_size_slice (bytes : list Z) (first last : Z) :
  0 <= first <= last -> last <= vec_size bytes ->
  vec_size (firstn (Z.to_nat (last - first)) (skipn (Z.to_nat first) bytes))
  = last - first.
Proof.
  unfold vec_size. intros H1 H2. rewrite length_firstn, length_skipn. lia.
Qed.

Lemma payload_of_encode (image : ImageData) :
  firstn (Z.to_nat (12 + vec_size (data image) - 12))
         (skipn (Z.to_nat 12) (encodeAsJPEG image)) = data image.
Proof.
  replace (12 + vec_size (data image) - 12) with (vec_size (data image)) by lia.
  unfold vec_size. rewrite Nat2Z.id.
  change (Z.to_nat 12) with 12%nat. unfold encodeAsJPEG, writeInt.
  cbn [app skipn]. apply firstn_all.
Qed.

(** The size computed for a header whose product fits an [int]. *)
Lemma expectedSize_exact (w h c : Z) :
  0 <= w * h <= INT_MAX -> 0 <= w * h * c -> 12 + w * h * c <= INT_MAX ->
  expectedSize w h c = 12 + w * h * c.
Proof.
  unfold INT_MAX. intros H1 H2 H3. unfold expectedSize, int_add, int_mul.
  rewrite (wrap32_small (w * h)) by (unfold INT_MIN, INT_MAX; lia).
  rewrite (wrap32_small (w * h * c)) by (unfold INT_MIN, INT_MAX; lia).
  rewrite wrap32_small by (unfold INT_MIN, INT_MAX; lia).
  apply to_size_t_small. unfold INT_MAX. lia.
Qed.

Lemma header_valid_inv (w h c : Z) :
  header_invalid w h c = false -> 1 <= w /\ 1 <= h /\ 1 <= c <= 4.
Proof.
  unfold header_invalid. intros H.
  apply orb_false_elim in H as [H H4]. apply orb_false_elim in H as [H H3].
  apply orb_false_elim in H as [H1 H2]. lia.
Qed.

Lemma header_valid_intro (w h c : Z) :
  1 <= w -> 1 <= h -> 1 <= c <= 4 -> header_invalid w h c = false.
Proof.
  unfold header_invalid. intros Hw Hh Hc.
  destruct (Z.leb_spec w 0); [lia|]. destruct (Z.leb_spec h 0); [lia|].
  destruct (Z.leb_spec c 0); [lia|]. destruct (Z.ltb_spec 4 c); [lia|].
  reflexivity.
Qed.

(** What [parseSimpleImage] does once the header has been read and found
    valid. *)
Lemma parse_valid_header (bytes : list Z) (w h c : Z) :
  12 <= vec_size bytes ->
  readInt bytes 0 = Returned w ->
  readInt bytes 4 = Returned h ->
  readInt bytes 8 = Returned c ->
  header_invalid w h c = false ->
  parseSimpleImage bytes =
    let! payload :=
      if expectedSize w h c <=? vec_size bytes
      then assign_range bytes 12 (expectedSize w h c)
      else assign_range bytes 0 (vec_size bytes) in
    Returned (mkImage payload w h c).
Proof.
  intros Hs Hw Hh Hc Hv. unfold parseSimpleImage.
  destruct (Z.ltb_spec (vec_size bytes) 12); [lia|].
  rewrite Hw, Hh, Hc. cbn [bind]. rewrite Hv. reflexivity.
Qed.

(** What [parseSimpleImage] returns on a valid header whose product fits an
    [int]: the whole input when it is shorter than expected, the slice
    after the header otherwise. *)
Lemma parse_short_input (bytes : list Z) (w h c : Z) :
  12 <= vec_size bytes ->
  readInt bytes 0 = Returned w ->
  readInt bytes 4 = Returned h ->
  readInt bytes 8 = Returned c ->
  header_invalid w h c = false ->
  12 + w * h * c <= INT_MAX ->
  vec_size bytes < 12 + w * h * c ->
  parseSimpleImage bytes = Returned (mkImage bytes w h c).
Proof.
  intros Hs Hw Hh Hc Hv Hfit Hshort.
  rewrite (parse_valid_header bytes w h c) by assumption.
  destruct (header_valid_inv _ _ _ Hv) as [W [H C]].
  rewrite expectedSize_exact by (unfold INT_MAX in *; nia).
  destruct (Z.leb_spec (12 + w * h * c) (vec_size bytes)); [lia|].
  now rewrite assign_range_all.
Qed.

Lemma parse_full_input (bytes : list Z) (w h c : Z) :
  12 <= vec_size bytes ->
  readInt bytes 0 = Returned w ->
  readInt bytes 4 = Returned h ->
  readInt bytes 8 = Returned c ->
  header_invalid w h c = false ->
  12 + w * h * c <= INT_MAX ->
  12 + w * h * c <= vec_size bytes ->
  parseSimpleImage bytes
  = Returned (mkImage (firstn (Z.to_nat (w * h * c)) (skipn 12 bytes)) w h c).
Proof.
  intros Hs Hw Hh Hc Hv Hfit Hfull.
  rewrite (parse_valid_header bytes w h c) by assumption.
  destruct (header_valid_inv _ _ _ Hv) as [W [H C]].
  rewrite expectedSize_exact by (unfold INT_MAX in *; nia).
  destruct (Z.leb_spec (12 + w * h * c) (vec_size bytes)); [|lia].
  rewrite assign_range_defined by nia. cbn [bind].
  replace (12 + w * h * c - 12) with (w * h * c) by lia. reflexivity.
Qed.

Lemma parse_encode (buf : ImageData) :
  1 <= width buf -> 1 <= height buf -> 1 <= channels buf <= 4 ->
  well_sized buf ->
  12 + width buf * height buf * channels buf <= INT_MAX ->
  parseSimpleImage (encodeAsJPEG buf) = Returned buf.
Proof.
  intros Hw Hh Hc Hsz Hfit. unfold well_sized in Hsz.
  assert (Hwh : 1 <= width buf * height buf) by nia.
  assert (Hn : width buf * height buf <= width buf * height buf * channels buf)
    by nia.
  destruct (read_header_encode buf) as [Rw [Rh Rc]];
    try (unfold INT_MAX in *; nia).
  rewrite (parse_full_input _ (width buf) (height buf) (channels buf)); auto.
  - rewrite <- Hsz.
    pose proof (payload_of_encode buf) as P.
    replace (12 + vec_size (data buf) - 12) with (vec_size (data buf)) in P by lia.
    change (Z.to_nat 12) with 12%nat in P. rewrite P. now destruct buf.
  - rewrite vec_size_encode. pose proof (vec_size_nonneg (data buf)). lia.
  - now apply header_valid_intro.
  - rewrite vec_size_encode. lia.
Qed.

(** An image of 65536 x 32768 single-channel pixels: the product of its
    dimensions wraps, the size check fails and the whole encoded buffer,
    header included, comes back as the payload. *)
Lemma parse_encode_wrapped (d : list Z) :
  vec_size d = 2147483648 ->
  parseSimpleImage (encodeAsJPEG (mkImage d 65536 32768 1))
  = Returned (mkImage (encodeAsJPEG (mkImage d 65536 32768 1)) 65536 32768 1).
Proof.
  intros Hd.
  assert (Hs : vec_size (encodeAsJPEG (mkImage d 65536 32768 1)) = 12 + 2147483648).
  { rewrite vec_size_encode. cbn [data]. now rewrite Hd. }
  destruct (read_header_encode (mkImage d 65536 32768 1)) as [Rw [Rh Rc]];
    try (cbn [width height channels]; unfold INT_MAX; lia).
  cbn [width height channels] in Rw, Rh, Rc.
  rewrite (parse_valid_header _ 65536 32768 1); auto; [|lia].
  change (expectedSize 65536 32768 1) with 18446744071562067980.
  destruct (Z.leb_spec 18446744071562067980
              (vec_size (encodeAsJPEG (mkImage d 65536 32768 1)))); [lia|].
  now rewrite assign_range_all.
Qed.

(** ** The transform engine: memory safety and shape *)

Lemma vec_get_byte_at (d : list Z) (i : Z) :
  0 <= i < vec_size d -> vec_get d i = Returned (byte_at d i).
Proof.
  unfold vec_size, vec_get, byte_at. intros H.
  destruct (Z.ltb_spec i 0); [lia|].
  destruct (nth_error d (Z.to_nat i)) as [b|] eqn:E.
  - now rewrite (nth_error_nth _ _ 0 E).
  - apply nth_error_None in E. lia.
Qed.

Lemma byte_at_range (d : list Z) (i : Z) :
  Forall is_byte d -> is_byte (byte_at d i).
Proof.
  intros H. unfold byte_at.
  destruct (Nat.lt_ge_cases (Z.to_nat i) (length d)) as [L|L].
  - rewrite Forall_forall in H. apply H, nth_In, L.
  - rewrite nth_overflow by exact L. unfold is_byte. lia.
Qed.

Lemma to_uint8_range (z : Z) : is_byte (to_uint8 z).
Proof. unfold is_byte, to_uint8. apply Z.mod_pos_bound. reflexivity. Qed.

Lemma to_uint8_small (z : Z) : 0 <= z <= 255 -> to_uint8 z = z.
Proof. intros H. unfold to_uint8. apply Z.mod_small. lia. Qed.

Lemma int_mul_small (a b : Z) : in_int (a * b) -> int_mul a b = a * b.
Proof. apply wrap32_small. Qed.

Lemma int_add_small (a b : Z) : in_int (a + b) -> int_add a b = a + b.
Proof. apply wrap32_small. Qed.

Lemma int_sub_small (a b : Z) : in_int (a - b) -> int_sub a b = a - b.
Proof. apply wrap32_small. Qed.

(** The flat index of channel [k] of pixel [(x, y)], and back. *)
Lemma flat_index_decode (nw c x y k : Z) :
  0 <= x < nw -> 0 <= k < c -> 0 <= y ->
  ((y * nw + x) * c + k) / c = y * nw + x /\
  ((y * nw + x) * c + k) mod c = k /\
  (y * nw + x) mod nw = x /\
  (y * nw + x) / nw = y.
Proof.
  intros Hx Hk Hy. repeat split.
  - symmetry. apply Z.div_unique with k; [lia | ring].
  - symmetry. apply Z.mod_unique with (y * nw + x); [lia | ring].
  - symmetry. apply Z.mod_unique with y; [lia | ring].
  - symmetry. apply Z.div_unique with x; [lia | ring].
Qed.

Lemma flat_index_bound (nw nh c x y k : Z) :
  0 <= x < nw -> 0 <= y < nh -> 0 <= k < c ->
  0 <= y * nw /\ y * nw + x < nw * nh /\
  0 <= (y * nw + x) * c /\ (y * nw + x) * c + k < nw * nh * c.
Proof.
  intros Hx Hy Hk.
  assert (A1 : 0 <= y * nw) by (apply Z.mul_nonneg_nonneg; lia).
  assert (A2 : y * nw <= (nh - 1) * nw) by (apply Z.mul_le_mono_nonneg_r; lia).
  assert (A3 : 0 <= (y * nw + x) * c) by (apply Z.mul_nonneg_nonneg; lia).
  assert (A4 : (y * nw + x) * c <= (nw * nh - 1) * c)
    by (apply Z.mul_le_mono_nonneg_r; lia).
  lia.
Qed.

(** The index arithmetic of [getPixel] and of the store in [resizeImage]
    stays within [int] on a buffer whose size does. *)
Lemma flat_index_int (nw nh c x y k : Z) :
  0 <= x < nw -> 0 <= y < nh -> 0 <= k < c -> nw * nh * c <= INT_MAX ->
  int_add (int_mul (int_add (int_mul y nw) x) c) k = (y * nw + x) * c + k.
Proof.
  intros Hx Hy Hk Hfit.
  destruct (flat_index_bound nw nh c x y k Hx Hy Hk) as [B1 [B2 [B3 B4]]].
  assert (nw * nh <= nw * nh * c) by nia.
  unfold int_add, int_mul.
  rewrite (wrap32_small (y * nw)) by (unfold INT_MIN, INT_MAX in *; lia).
  rewrite (wrap32_small (y * nw + x)) by (unfold INT_MIN, INT_MAX in *; lia).
  rewrite (wrap32_small ((y * nw + x) * c)) by (unfold INT_MIN, INT_MAX in *; lia).
  apply wrap32_small. unfold INT_MIN, INT_MAX in *; lia.
Qed.

Section Sampling.
Variable input : ImageData.
Hypothesis Hw : 1 <= width input.
Hypothesis Hh : 1 <= height input.
Hypothesis Hc : 1 <= channels input.
Hypothesis Hsize : well_sized input.
Hypothesis Hfit : fits_int input.

Local Abbreviation d := (data input).
Local Abbreviation w := (width input).
Local Abbreviation h := (height input).
Local Abbreviation c := (channels input).

(** A read guarded by [getPixel] is inside the vector. *)
Lemma getPixel_inside (px py ch : Z) :
  0 <= px < w -> 0 <= py < h -> 0 <= ch < c ->
  getPixel d w h c px py ch = Returned (byte_at d ((py * w + px) * c + ch)).
Proof.
  intros Hx Hy Hk. unfold getPixel.
  destruct (Z.ltb_spec px 0); [lia|]. destruct (Z.leb_spec w px); [lia|].
  destruct (Z.ltb_spec py 0); [lia|]. destruct (Z.leb_spec h py); [lia|].
  cbn [orb].
  rewrite (flat_index_int w h c) by (auto; apply Hfit).
  apply vec_get_byte_at.
  destruct (flat_index_bound w h c px py ch Hx Hy Hk) as [B1 [B2 [B3 B4]]].
  unfold well_sized in Hsize. lia.
Qed.

(** [getPixel] never reads outside the vector, whatever the coordinates. *)
Lemma getPixel_defined (px py ch : Z) :
  0 <= ch < c ->
  exists b, getPixel d w h c px py ch = Returned b /\ (b = 0 \/ In b d).
Proof.
  intros Hk.
  destruct (Z.lt_ge_cases px 0) as [X0|X0];
    [exists 0; unfold getPixel; destruct (Z.ltb_spec px 0); [auto|lia]|].
  destruct (Z.lt_ge_cases px w) as [X1|X1];
    [|exists 0; unfold getPixel; destruct (Z.leb_spec w px);
      [rewrite orb_true_r; auto|lia]].
  destruct (Z.lt_ge_cases py 0) as [Y0|Y0];
    [exists 0; unfold getPixel; destruct (Z.ltb_spec py 0);
      [rewrite !orb_true_r; auto|lia]|].
  destruct (Z.lt_ge_cases py h) as [Y1|Y1];
    [|exists 0; unfold getPixel; destruct (Z.leb_spec h py);
      [rewrite !orb_true_r; auto|lia]].
  rewrite getPixel_inside by lia.
  eexists. split; [reflexivity|]. right.
  unfold byte_at. apply nth_In.
  destruct (flat_index_bound w h c px py ch) as [B1 [B2 [B3 B4]]]; try lia.
  unfold well_sized, vec_size in Hsize. lia.
Qed.

Lemma bilinearValue_defined (x y : float) (ch : Z) :
  0 <= ch < c -> exists v, bilinearValue d w h c x y ch = Returned v.
Proof.
  intros Hk. unfold bilinearValue.
  destruct (getPixel_defined (int_of_float (ffloor x)) (int_of_float (ffloor y))
              ch Hk) as [p11 [E11 _]].
  rewrite E11. cbn [bind].
  match goal with |- context [getPixel d w h c ?a ?b ch] =>
    destruct (getPixel_defined a b ch Hk) as [p21 [E21 _]]; rewrite E21 end.
  cbn [bind].
  match goal with |- context [getPixel d w h c ?a ?b ch] =>
    destruct (getPixel_defined a b ch Hk) as [p12 [E12 _]]; rewrite E12 end.
  cbn [bind].
  match goal with |- context [getPixel d w h c ?a ?b ch] =>
    destruct (getPixel_defined a b ch Hk) as [p22 [E22 _]]; rewrite E22 end.
  cbn [bind]. eauto.
Qed.

Lemma bilinearInterpolate_defined (x y : float) (ch : Z) :
  0 <= ch < c ->
  exists v, bilinearInterpolate d w h c x y ch = Returned v /\ is_byte v.
Proof.
  intros Hk. unfold bilinearInterpolate.
  destruct (bilinearValue_defined x y ch Hk) as [v E]. rewrite E. cbn [bind].
  eexists. split; [reflexivity|]. apply to_uint8_range.
Qed.

(** [resizeImage] to positive dimensions whose byte count fits an [int]:
    it returns, the result has the requested shape and each byte is the
    sample taken for its index. *)
Lemma resizeImage_spec (nw nh : Z) :
  1 <= nw -> 1 <= nh -> nw * nh * c <= INT_MAX ->
  exists out,
    resizeImage input nw nh = Returned (mkImage out nw nh c) /\
    vec_size out = nw * nh * c /\
    forall idx, 0 <= idx < nw * nh * c ->
      exists v, resize_sample input nw nh idx = Returned v /\ is_byte v /\
                vec_get out idx = Returned v.
Proof.
  intros Hnw Hnh Hn.
  assert (Hwh : 1 <= nw * nh <= nw * nh * c) by nia.
  unfold resizeImage.
  rewrite (int_mul_small nw nh), (int_mul_small (nw * nh) c)
    by (unfold in_int, INT_MIN, INT_MAX in *; lia).
  rewrite to_size_t_small by lia.
  unfold vec_resize.
  destruct (Z.ltb_spec vector_max_size (nw * nh * c));
    [unfold vector_max_size, INT_MAX in *; lia|].
  cbn [bind].
  set (Q := fun (p : Z) (out : list Z) =>
    vec_size out = nw * nh * c /\
    forall idx, 0 <= idx < p ->
      exists v, resize_sample input nw nh idx = Returned v /\ is_byte v /\
                vec_get out idx = Returned v).
  match goal with |- context [for_loop nh ?body ?s] =>
    destruct (for_loop_invariant (fun y => Q (y * nw * c)) body nh s)
      as [out [E [HQ1 HQ2]]] end.
  - lia.
  - split; [apply vec_size_repeat; lia | intros idx Hidx; lia].
  - intros y out Hy HQ.
    match goal with |- context [for_loop nw ?body ?s] =>
      destruct (for_loop_invariant (fun x => Q ((y * nw + x) * c)) body nw s)
        as [out' [E' HQ']] end.
    + lia.
    + now rewrite Z.add_0_r.
    + intros x out1 Hx HQ1.
      match goal with |- context [for_loop c ?body ?s] =>
        destruct (for_loop_invariant (fun k => Q ((y * nw + x) * c + k)) body c s)
          as [out2 [E2 HQ2]] end.
      * lia.
      * now rewrite Z.add_0_r.
      * intros k out2 Hk [HS HQ2].
        destruct (flat_index_decode nw c x y k) as [D1 [D2 [D3 D4]]]; try lia.
        destruct (flat_index_bound nw nh c x y k) as [B1 [B2 [B3 B4]]]; try lia.
        match goal with |- context [bilinearInterpolate d w h c ?sx ?sy k] =>
          destruct (bilinearInterpolate_defined sx sy k ltac:(lia))
            as [v [Ev Bv]]; rewrite Ev end.
        cbn [bind].
        rewrite (flat_index_int nw nh c) by (auto; lia).
        rewrite vec_set_defined by lia.
        eexists. split; [reflexivity|]. split.
        { now rewrite vec_size_list_set. }
        intros idx Hidx.
        destruct (Z.eq_dec idx ((y * nw + x) * c + k)) as [->|N].
        { exists v. split; [|split; [exact Bv|]].
          - unfold resize_sample. rewrite D1, D2, D3, D4. exact Ev.
          - apply vec_get_list_set_eq. lia. }
        destruct (HQ2 idx ltac:(lia)) as [v' [S' [B' G']]].
        exists v'. split; [exact S'|]. split; [exact B'|].
        rewrite vec_get_list_set_neq by lia. exact G'.
      * exists out2. split; [exact E2|].
        replace ((y * nw + (x + 1)) * c) with ((y * nw + x) * c + c) by lia.
        exact HQ2.
    + exists out'. split; [exact E'|].
      replace ((y + 1) * nw * c) with ((y * nw + nw) * c) by lia. exact HQ'.
  - rewrite E. cbn [bind]. exists out. split; [reflexivity|]. split; [exact HQ1|].
    intros idx Hidx. apply HQ2. lia.
Qed.

End Sampling.

(** [convertToGrayscale] on a well-sized buffer: it returns, the result has
    one channel and the source's dimensions, and each byte is the gray
    value of its pixel. *)
Lemma convertToGrayscale_spec (input : ImageData) :
  1 <= width input -> 1 <= height input -> 1 <= channels input ->
  well_sized input -> fits_int input ->
  exists out,
    convertToGrayscale input
    = Returned (mkImage out (width input) (height input) 1) /\
    vec_size out = width input * height input /\
    forall i, 0 <= i < width input * height input ->
      vec_get out i = Returned (gray_pixel input i).
Proof.
  intros Hw Hh Hc Hsize Hfit. unfold well_sized in Hsize. unfold fits_int in Hfit.
  set (w := width input) in *. set (h := height input) in *.
  set (c := channels input) in *. set (d := data input) in *.
  assert (Hwh : 1 <= w * h <= w * h * c) by nia.
  unfold convertToGrayscale. fold w h c d.
  rewrite (int_mul_small w h) by (unfold in_int, INT_MIN, INT_MAX in *; lia).
  rewrite to_size_t_small by lia.
  unfold vec_resize.
  destruct (Z.ltb_spec vector_max_size (w * h));
    [unfold vector_max_size, INT_MAX in *; lia|].
  cbn [bind].
  set (Q := fun (p : Z) (out : list Z) =>
    vec_size out = w * h /\
    forall idx, 0 <= idx < p -> vec_get out idx = Returned (gray_pixel input idx)).
  match goal with |- context [for_loop (w * h) ?body ?s] =>
    destruct (for_loop_invariant Q body (w * h) s) as [out [E [HQ1 HQ2]]] end.
  - lia.
  - split; [apply vec_size_repeat; lia | intros idx Hidx; lia].
  - intros i out Hi [HS HQ].
    assert (Hic : 0 <= i * c /\ i * c + c <= w * h * c) by nia.
    rewrite (int_mul_small i c) by (unfold in_int, INT_MIN, INT_MAX in *; lia).
    assert (Hstore : forall b,
      b = gray_pixel input i ->
      exists t', vec_set out i b = Returned t' /\ Q (i + 1) t').
    { intros b ->. rewrite vec_set_defined by lia.
      eexists. split; [reflexivity|]. split; [now rewrite vec_size_list_set|].
      intros idx Hidx. destruct (Z.eq_dec idx i) as [->|N].
      - apply vec_get_list_set_eq. lia.
      - rewrite vec_get_list_set_neq by lia. apply HQ. lia. }
    unfold gray_pixel in Hstore. fold c d in Hstore.
    destruct (Z.leb_spec 3 c).
    + rewrite !int_add_small by (unfold in_int, INT_MIN, INT_MAX in *; lia).
      rewrite !vec_get_byte_at by lia. cbn [bind]. now apply Hstore.
    + rewrite !vec_get_byte_at by lia. cbn [bind]. now apply Hstore.
  - rewrite E. cbn [bind]. exists out. split; [reflexivity|]. split; [exact HQ1|].
    exact HQ2.
Qed.

(** ** The distributor *)

Lemma length_update {A : Type} (l : list A) (n : nat) (f : A -> A) :
  length (update l n f) = length l.
Proof. revert n. induction l as [|a l IH]; intros [|n]; cbn; auto. Qed.

Lemma nth_update_eq {A : Type} (l : list A) (n : nat) (f : A -> A) (dflt : A) :
  (n < length l)%nat -> nth n (update l n f) dflt = f (nth n l dflt).
Proof.
  revert n. induction l as [|a l IH]; intros [|n] H; cbn in *; try lia; auto.
  apply IH. lia.
Qed.

Lemma update_beyond {A : Type} (l : list A) (n : nat) (f : A -> A) :
  (length l <= n)%nat -> update l n f = l.
Proof.
  revert n. induction l as [|a l IH]; intros [|n] H; cbn in *; try lia; auto.
  f_equal. apply IH. lia.
Qed.

Lemma list_sum_update (ls : list (list nat)) (w : nat)
  (f : list nat -> list nat) :
  (w < length ls)%nat ->
  (list_sum (map (@length nat) (update ls w f)) + length (nth w ls [])
   = list_sum (map (@length nat) ls) + length (f (nth w ls [])))%nat.
Proof.
  unfold list_sum.
  revert w. induction ls as [|l ls IH]; intros [|w] H; cbn in *; try lia.
  specialize (IH w ltac:(lia)). lia.
Qed.

Lemma list_sum_repeat_nil (n : nat) :
  list_sum (map (@length nat) (repeat [] n)) = 0%nat.
Proof. induction n as [|n IH]; [reflexivity | exact IH]. Qed.

Lemma nth_nonempty_inside {A : Type} (ls : list (list A)) (w : nat) (a : A)
  (l : list A) : nth w ls [] = a :: l -> (w < length ls)%nat.
Proof.
  intros H. destruct (Nat.lt_ge_cases w (length ls)) as [L|L]; [exact L|].
  rewrite nth_overflow in H by exact L. discriminate.
Qed.

Lemma remove_one_head (a : nat) (l : list nat) : remove_one a (a :: l) = l.
Proof. cbn. now rewrite Nat.eqb_refl. Qed.

(** [settle] touches the promise of one call only. *)
Lemma settle_fields (id : nat) (p : promise) (st : processor) :
  pendingQueue (settle id p st) = pendingQueue st /\
  processedImages (settle id p st) = processedImages st /\
  completedJobs (settle id p st) = completedJobs st /\
  length (calls (settle id p st)) = length (calls st) /\
  listeners (settle id p st) = listeners st /\
  awaiting (settle id p st) = awaiting st.
Proof. unfold settle. cbn. rewrite length_update. auto 10. Qed.

(** One [messageHandler] whose registration heads the list of its worker. *)
Lemma messageHandler_head (n : Z) (events : list event) (w id : nat)
  (rest : list nat) (r : reply) (st : processor) :
  nth w (listeners st) [] = id :: rest ->
  In (Message w r) events ->
  counted n st -> sourced events st ->
  nth w (listeners (messageHandler w id r st)) [] = rest /\
  counted n (messageHandler w id r st) /\
  sourced events (messageHandler w id r st).
Proof.
  intros Hl Hin [C1 [C2 C3]] Hs.
  pose proof (nth_nonempty_inside _ _ _ _ Hl) as Hw.
  pose proof (list_sum_update (listeners st) w (remove_one id) Hw) as Hsum.
  rewrite Hl, remove_one_head in Hsum. cbn [length] in Hsum.
  unfold messageHandler.
  destruct (r_success r) eqn:Es;
    match goal with |- context [settle ?i ?p ?s] =>
      destruct (settle_fields i p s) as [F1 [F2 [F3 [F4 [F5 F6]]]]] end;
    unfold counted, sourced, registered; rewrite F1, F2, F3, F4, F5;
    cbn [unregister pendingQueue processedImages completedJobs calls listeners];
    rewrite length_update, nth_update_eq, Hl, remove_one_head by exact Hw;
    (split; [reflexivity|]); unfold registered in C2.
  - split.
    + rewrite length_app. cbn [length]. lia.
    + intros p Hp. apply in_app_or in Hp as [Hp|[<-|[]]]; [now apply Hs|].
      exists w, r. auto.
  - split; [lia | exact Hs].
Qed.

Lemma fold_messageHandler (n : Z) (events : list event) (w : nat) (r : reply) :
  In (Message w r) events ->
  forall (l : list nat) (st : processor),
  nth w (listeners st) [] = l ->
  counted n st -> sourced events st ->
  counted n (fold_left (fun st id => messageHandler w id r st) l st) /\
  sourced events (fold_left (fun st id => messageHandler w id r st) l st).
Proof.
  intros Hin. induction l as [|id rest IH]; intros st Hl Hc Hs; cbn [fold_left].
  - auto.
  - destruct (messageHandler_head n events w id rest r st Hl Hin Hc Hs)
      as [Hl' [Hc' Hs']].
    now apply IH.
Qed.

Lemma errorHandler_head (n : Z) (events : list event) (w id : nat)
  (rest : list nat) (m : string) (st : processor) :
  nth w (listeners st) [] = id :: rest ->
  counted n st -> sourced events st ->
  nth w (listeners (errorHandler w id m st)) [] = rest /\
  counted n (errorHandler w id m st) /\
  sourced events (errorHandler w id m st).
Proof.
  intros Hl [C1 [C2 C3]] Hs.
  pose proof (nth_nonempty_inside _ _ _ _ Hl) as Hw.
  pose proof (list_sum_update (listeners st) w (remove_one id) Hw) as Hsum.
  rewrite Hl, remove_one_head in Hsum. cbn [length] in Hsum.
  unfold errorHandler.
  match goal with |- context [settle ?i ?p ?s] =>
    destruct (settle_fields i p s) as [F1 [F2 [F3 [F4 [F5 F6]]]]] end.
  unfold counted, sourced, registered; rewrite F1, F2, F3, F4, F5.
  cbn [unregister pendingQueue processedImages completedJobs calls listeners].
  rewrite length_update, nth_update_eq, Hl, remove_one_head by exact Hw.
  unfold registered in C2. repeat split; try lia. exact Hs.
Qed.

Lemma fold_errorHandler (n : Z) (events : list event) (w : nat) (m : string) :
  forall (l : list nat) (st : processor),
  nth w (listeners st) [] = l ->
  counted n st -> sourced events st ->
  counted n (fold_left (fun st id => errorHandler w id m st) l st) /\
  sourced events (fold_left (fun st id => errorHandler w id m st) l st).
Proof.
  induction l as [|id rest IH]; intros st Hl Hc Hs; cbn [fold_left].
  - auto.
  - destruct (errorHandler_head n events w id rest m st Hl Hc Hs)
      as [Hl' [Hc' Hs']].
    now apply IH.
Qed.

Lemma timeoutCallback_counted (n : Z) (events : list event) (id : nat)
  (st : processor) :
  counted n st -> sourced events st ->
  counted n (timeoutCallback id st) /\ sourced events (timeoutCallback id st).
Proof.
  intros Hc Hs. unfold timeoutCallback.
  destruct (nth_error (calls st) id) as [c|]; [|auto].
  match goal with |- context [settle ?i ?p ?s] =>
    destruct (settle_fields i p s) as [F1 [F2 [F3 [F4 [F5 F6]]]]] end.
  unfold counted, sourced, registered in *. rewrite F1, F2, F3, F4, F5.
  cbn [pendingQueue processedImages completedJobs calls listeners].
  rewrite length_update. auto.
Qed.

Lemma registered_push (ls : list (list nat)) (w id : nat) :
  (list_sum (map (@length nat) (update ls w (fun l => l ++ [id])))
   <= list_sum (map (@length nat) ls) + 1)%nat.
Proof.
  destruct (Nat.lt_ge_cases w (length ls)) as [L|L].
  - pose proof (list_sum_update ls w (fun l => l ++ [id]) L) as H.
    cbv beta in H. rewrite length_app in H. cbn [length] in H. lia.
  - rewrite update_beyond by exact L. lia.
Qed.

Lemma processWorkerQueue_counted (n : Z) (events : list event) (w : nat)
  (st : processor) :
  counted n st -> sourced events st ->
  counted n (processWorkerQueue w st) /\ sourced events (processWorkerQueue w st).
Proof.
  intros [C1 [C2 C3]] Hs. unfold processWorkerQueue.
  destruct (pendingQueue st) as [|f rest] eqn:Eq.
  - unfold counted, sourced, registered, end_loop in *. cbn. rewrite Eq. auto.
  - cbn [length] in C3.
    destruct (String.eqb f EmptyString).
    + unfold counted, sourced, registered, end_loop in *. cbn.
      repeat split; auto; lia.
    + unfold counted, sourced, registered, processImageWithWorker in *. cbn.
      pose proof (registered_push (listeners st) w (length (calls st))).
      rewrite length_app. cbn [length]. unfold list_sum in *.
      repeat split; auto; lia.
Qed.

Lemma resume_counted (n : Z) (events : list event) (st : processor) :
  counted n st -> sourced events st ->
  counted n (resume st) /\ sourced events (resume st).
Proof.
  unfold resume. generalize (seq 0 (length (awaiting st))). intros ws.
  revert st. induction ws as [|w ws IH]; intros st Hc Hs; cbn [fold_left].
  - auto.
  - assert (H : counted n (resume_worker st w) /\
                sourced events (resume_worker st w)).
    { unfold resume_worker.
      destruct (nth_error (awaiting st) w) as [[id|]|]; auto.
      destruct (is_settled st id); auto.
      now apply processWorkerQueue_counted. }
    destruct H. now apply IH.
Qed.

Lemma sourced_weaken (events : list event) (e : event) (st : processor) :
  sourced events st -> sourced (events ++ [e]) st.
Proof.
  intros H p Hp. destruct (H p Hp) as [w [r [I R]]].
  exists w, r. split; [apply in_or_app; now left | exact R].
Qed.

Lemma handle_counted (n : Z) (events : list event) (e : event)
  (st : processor) :
  counted n st -> sourced events st ->
  counted n (handle st e) /\ sourced (events ++ [e]) (handle st e).
Proof.
  intros Hc Hs. apply (sourced_weaken events e) in Hs.
  destruct e as [w r|w m|id]; cbn [handle].
  - destruct (fold_messageHandler n (events ++ [Message w r]) w r)
      with (l := nth w (listeners st) []) (st := st); auto.
    + apply in_or_app; right; now left.
    + now apply resume_counted.
  - destruct (fold_errorHandler n (events ++ [WorkerError w m]) w m)
      with (l := nth w (listeners st) []) (st := st); auto.
    now apply resume_counted.
  - destruct (nth_error (calls st) id) as [c|]; [|auto].
    destruct (c_timer c); [|auto].
    destruct (timeoutCallback_counted n (events ++ [TimerFired id]) id st); auto.
    now apply resume_counted.
Qed.

Lemma processImageQueue_counted (workerCount : nat) (imageFiles : list string) :
  counted (Z.of_nat (length imageFiles)) (processImageQueue workerCount imageFiles)
  /\ sourced [] (processImageQueue workerCount imageFiles).
Proof.
  unfold processImageQueue.
  match goal with |- context [fold_left _ _ ?s] =>
    assert (H0 : counted (Z.of_nat (length imageFiles)) s /\ sourced [] s) end.
  { unfold counted, sourced, registered. cbn.
    rewrite list_sum_repeat_nil. repeat split; try lia. }
  revert H0. generalize (seq 0 workerCount). intros ws.
  match goal with |- context [fold_left _ _ ?s] => generalize s end.
  induction ws as [|w ws IH]; intros st [Hc Hs]; cbn [fold_left].
  - auto.
  - apply IH. now apply processWorkerQueue_counted.
Qed.

Lemma run_counted (workerCount : nat) (imageFiles : list string)
  (events : list event) :
  counted (Z.of_nat (length imageFiles)) (run workerCount imageFiles events) /\
  sourced events (run workerCount imageFiles events).
Proof.
  unfold run.
  induction events as [|e events IH] using rev_ind.
  - apply processImageQueue_counted.
  - rewrite fold_left_app. cbn [fold_left]. destruct IH as [Hc Hs].
    now apply handle_counted.
Qed.

Lemma Returned_inj {A : Type} (a b : A) : Returned a = Returned b -> a = b.
Proof. congruence. Qed.

(** ** binary32: shifts and values that round to themselves *)

Lemma nat_iter_add {A : Type} (f : A -> A) (n m : nat) (x : A) :
  Nat.iter (n + m) f x = Nat.iter n f (Nat.iter m f x).
Proof.
  induction n as [|n IH]; [reflexivity|].
  change (Nat.iter (S n + m) f x) with (f (Nat.iter (n + m) f x)).
  change (Nat.iter (S n) f (Nat.iter m f x))
    with (f (Nat.iter n f (Nat.iter m f x))).
  now rewrite IH.
Qed.

Lemma nat_iter_succ_r {A : Type} (f : A -> A) (n : nat) (x : A) :
  Nat.iter (S n) f x = Nat.iter n f (f x).
Proof.
  replace (S n) with (n + 1)%nat by lia. now rewrite nat_iter_add.
Qed.

Lemma iter_pos_nat {A : Type} (f : A -> A) (p : positive) (x : A) :
  iter_pos f p x = Nat.iter (Pos.to_nat p) f x.
Proof.
  revert x. induction p as [p IH|p IH|]; intros x; cbn [iter_pos].
  - rewrite !IH, Pos2Nat.inj_xI, <- nat_iter_add, <- nat_iter_succ_r.
    f_equal. lia.
  - rewrite !IH, Pos2Nat.inj_xO, <- nat_iter_add. f_equal. lia.
  - reflexivity.
Qed.

Lemma pos_iter_shiftl (p q : positive) :
  Pos.iter xO p q = Pos.shiftl_nat p (Pos.to_nat q).
Proof. unfold Pos.shiftl_nat. apply Pos2Nat.inj_iter. Qed.

Lemma digits_shiftl (p : positive) (k : nat) :
  Zpos (digits2_pos (Pos.shiftl_nat p k)) = Zpos (digits2_pos p) + Z.of_nat k.
Proof.
  induction k as [|k IH].
  - cbn. lia.
  - change (Pos.shiftl_nat p (S k)) with (xO (Pos.shiftl_nat p k)).
    cbn [digits2_pos]. rewrite Pos2Z.inj_succ, IH. lia.
Qed.

Lemma Zpos_shiftl (p : positive) (k : nat) :
  Zpos (Pos.shiftl_nat p k) = Zpos p * 2 ^ Z.of_nat k.
Proof.
  induction k as [|k IH].
  - cbn. lia.
  - change (Pos.shiftl_nat p (S k)) with (xO (Pos.shiftl_nat p k)).
    rewrite Pos2Z.inj_xO, IH, Nat2Z.inj_succ, Z.pow_succ_r by lia. ring.
Qed.

(** Shifting out zero bits loses nothing. *)
Lemma shr_exact (k : nat) (p : positive) :
  Nat.iter k shr_1 (Build_shr_record (Zpos (Pos.shiftl_nat p k)) false false)
  = Build_shr_record (Zpos p) false false.
Proof.
  induction k as [|k IH]; [reflexivity|].
  rewrite nat_iter_succ_r. exact IH.
Qed.

Lemma fexp_eq (e : Z) : fexp prec emax e = Z.max (e - 24) (-149).
Proof. reflexivity. Qed.

(** A canonical mantissa shifted left by [k] bits, with the exponent
    lowered by [k], rounds back to itself. *)
Lemma round_shifted (s : bool) (p : positive) (k : nat) (e : Z) :
  fexp prec emax (Zpos (digits2_pos p) + e) = e ->
  e <= 104 ->
  binary_round_aux prec emax s (Zpos (Pos.shiftl_nat p k)) (e - Z.of_nat k)
    loc_Exact
  = S754_finite s p e.
Proof.
  intros Hcan He. unfold binary_round_aux, shr_fexp.
  cbn [Zdigits2]. rewrite digits_shiftl.
  replace (Zpos (digits2_pos p) + Z.of_nat k + (e - Z.of_nat k))
    with (Zpos (digits2_pos p) + e) by lia.
  rewrite Hcan.
  replace (e - (e - Z.of_nat k)) with (Z.of_nat k) by lia.
  assert (Hshr : shr (shr_record_of_loc (Zpos (Pos.shiftl_nat p k)) loc_Exact)
                     (e - Z.of_nat k) (Z.of_nat k)
                 = (Build_shr_record (Zpos p) false false, e)).
  { destruct k as [|k].
    - cbn. f_equal. lia.
    - rewrite Nat2Z.inj_succ, <- Zpos_P_of_succ_nat. cbn [shr shr_record_of_loc].
      rewrite iter_pos_nat, SuccNat2Pos.id_succ, shr_exact. f_equal. lia. }
  rewrite Hshr. cbn [shr_m loc_of_shr_record round_nearest_even Zdigits2].
  rewrite Hcan, Z.sub_diag. cbn [shr shr_record_of_loc shr_m].
  change (emax - prec) with 104.
  destruct (Z.leb_spec e 104); [reflexivity | lia].
Qed.

(** The float of a positive integer of at most 24 bits: the integer
    itself, with its leading bit moved to the top of the mantissa. *)
Lemma float_of_small_int (p : positive) :
  Zpos (digits2_pos p) <= 24 ->
  float_of_int (Zpos p)
  = S754_finite false
      (Pos.shiftl_nat p (Z.to_nat (24 - Zpos (digits2_pos p))))
      (Zpos (digits2_pos p) - 24).
Proof.
  intros Hd. unfold float_of_int, binary_normalize, binary_round, shl_align.
  rewrite Z.add_0_r, fexp_eq.
  set (d := Zpos (digits2_pos p)) in *.
  assert (1 <= d) by (unfold d; lia).
  rewrite Z.max_l by lia. rewrite Z.sub_0_r.
  destruct (d - 24) as [|q|q] eqn:Eq; try lia.
  - replace d with 24 by lia. cbn [Z.to_nat Z.sub Z.opp Z.pos_sub Z.add].
    change (Pos.shiftl_nat p 0) with p.
    apply (round_shifted false p 0 0); [|lia].
    fold d. replace d with 24 by lia. reflexivity.
  - rewrite pos_iter_shiftl.
    replace (Z.to_nat (24 - d)) with (Pos.to_nat q) by lia.
    pose proof (round_shifted false (Pos.shiftl_nat p (Pos.to_nat q)) 0 (Z.neg q))
      as R.
    cbn [Z.of_nat] in R. rewrite Z.sub_0_r in R.
    change (Pos.shiftl_nat (Pos.shiftl_nat p (Pos.to_nat q)) 0)
      with (Pos.shiftl_nat p (Pos.to_nat q)) in R.
    apply R; [|lia].
    rewrite digits_shiftl, fexp_eq. fold d. lia.
Qed.

Lemma digits_bounds (p : positive) :
  2 ^ (Zpos (digits2_pos p) - 1) <= Zpos p < 2 ^ Zpos (digits2_pos p).
Proof.
  induction p as [p IH|p IH|]; cbn [digits2_pos].
  - rewrite Pos2Z.inj_succ. change (Zpos p~1) with (2 * Zpos p + 1).
    replace (Z.succ (Zpos (digits2_pos p)) - 1)
      with (Z.succ (Zpos (digits2_pos p) - 1)) by lia.
    rewrite !Z.pow_succ_r by lia.
    revert IH. generalize (2 ^ (Zpos (digits2_pos p) - 1)).
    generalize (2 ^ Zpos (digits2_pos p)). intros; lia.
  - rewrite Pos2Z.inj_succ. change (Zpos p~0) with (2 * Zpos p).
    replace (Z.succ (Zpos (digits2_pos p)) - 1)
      with (Z.succ (Zpos (digits2_pos p) - 1)) by lia.
    rewrite !Z.pow_succ_r by lia.
    revert IH. generalize (2 ^ (Zpos (digits2_pos p) - 1)).
    generalize (2 ^ Zpos (digits2_pos p)). intros; lia.
  - cbn. lia.
Qed.

Lemma digits_small (p : positive) :
  Zpos p < 16777216 -> Zpos (digits2_pos p) <= 24.
Proof.
  intros H. destruct (Z.le_gt_cases (Zpos (digits2_pos p)) 24) as [L|L]; [exact L|].
  pose proof (digits_bounds p) as [B _].
  assert (2 ^ 24 <= 2 ^ (Zpos (digits2_pos p) - 1))
    by (apply Z.pow_le_mono_r; lia).
  change (2 ^ 24) with 16777216 in *. lia.
Qed.

(** The shape of the float of an integer in [0, 2^24). *)
Lemma small_int_float (n : Z) :
  0 <= n < 16777216 ->
  (n = 0 /\ float_of_int n = S754_zero false) \/
  (exists m e,
     float_of_int n = S754_finite false m e /\
     Zpos (digits2_pos m) = 24 /\ -23 <= e <= 0 /\
     Zpos m = n * 2 ^ (- e)).
Proof.
  intros Hn. destruct n as [|p|p]; try lia.
  - left. split; reflexivity.
  - right. pose proof (digits_small p ltac:(lia)) as Hd.
    assert (1 <= Zpos (digits2_pos p)) by lia.
    eexists _, _. split; [apply float_of_small_int, Hd|].
    rewrite digits_shiftl, Zpos_shiftl.
    rewrite !Z2Nat.id by lia.
    repeat split; try lia. f_equal. f_equal. lia.
Qed.

Lemma float_trunc_small_int (n : Z) :
  0 <= n < 16777216 -> float_trunc (float_of_int n) = Some n.
Proof.
  intros Hn. destruct (small_int_float n Hn) as [[-> ->]|[m [e [-> [D [E M]]]]]].
  - reflexivity.
  - cbn [float_trunc cond_Zopp]. rewrite M. f_equal.
    rewrite Z.shiftl_div_pow2 by lia.
    apply Z.div_mul. apply Z.pow_nonzero; lia.
Qed.

Lemma int_of_float_small_int (n : Z) :
  0 <= n < 16777216 -> int_of_float (float_of_int n) = n.
Proof.
  intros Hn. unfold int_of_float. rewrite float_trunc_small_int by exact Hn.
  unfold INT_MIN, INT_MAX.
  destruct (Z.leb_spec (-2147483648) n); [|lia].
  destruct (Z.leb_spec n 2147483647); [reflexivity | lia].
Qed.

Lemma uint8_of_float_byte (b : Z) :
  is_byte b -> uint8_of_float (float_of_int b) = b.
Proof.
  unfold is_byte. intros Hb. unfold uint8_of_float.
  rewrite int_of_float_small_int by lia. apply to_uint8_small. lia.
Qed.

Lemma ffloor_small_int (n : Z) :
  0 <= n < 16777216 -> ffloor (float_of_int n) = float_of_int n.
Proof.
  intros Hn. pose proof (float_trunc_small_int n Hn) as T.
  destruct (small_int_float n Hn) as [[-> ->]|[m [e [Ef [D [E M]]]]]].
  - reflexivity.
  - rewrite Ef in *. cbn [ffloor float_trunc cond_Zopp] in *.
    destruct (Z.leb_spec 0 e); [reflexivity|].
    injection T as T. rewrite T.
    destruct (Z.eqb_spec n 0) as [->|_]; [|exact Ef].
    rewrite Z.mul_0_l in M. discriminate.
Qed.

Lemma float_of_int_1 : float_of_int 1 = f_one.
Proof. reflexivity. Qed.

Lemma fmul_one_small_int (n : Z) :
  0 <= n < 16777216 -> fmul (float_of_int n) f_one = float_of_int n.
Proof.
  intros Hn.
  destruct (small_int_float n Hn) as [[-> ->]|[m [e [Ef [D [E M]]]]]].
  - reflexivity.
  - rewrite Ef. unfold fmul, f_one. cbn [SFmul xorb].
    replace (Zpos (m * 8388608)) with (Zpos (Pos.shiftl_nat m 23))
      by (rewrite Zpos_shiftl, Pos2Z.inj_mul; reflexivity).
    change (e + -23) with (e - Z.of_nat 23).
    apply round_shifted; [|lia].
    rewrite D, fexp_eq. lia.
Qed.

Lemma fsub_self (a : float) :
  (a = S754_zero false \/ exists s m e, a = S754_finite s m e) ->
  fsub a a = S754_zero false.
Proof.
  intros [->|[s [m [e ->]]]]; [reflexivity|].
  unfold fsub. cbn [SFsub]. unfold shl_align.
  rewrite Z.min_id, Z.sub_diag. cbn [fst]. reflexivity.
Qed.

Lemma fdiv_self (s : bool) (m : positive) (e : Z) :
  fdiv (S754_finite s m e) (S754_finite s m e) = f_one.
Proof.
  unfold fdiv. cbn [SFdiv]. unfold SFdiv_core_binary.
  rewrite !Z.sub_diag. rewrite fexp_eq.
  change (Z.min (Z.max (0 - 24) (-149)) 0) with (-24).
  change (0 - -24) with 24.
  cbv beta iota zeta.
  rewrite Z.shiftl_mul_pow2 by lia.
  assert (Hq : (Zpos m * 2 ^ 24) / Zpos m = 2 ^ 24)
    by (rewrite Z.mul_comm; apply Z.div_mul; lia).
  assert (Hr : (Zpos m * 2 ^ 24) mod Zpos m = 0)
    by (rewrite Z.mul_comm; apply Z.mod_mul; lia).
  unfold Z.div in Hq. unfold Z.modulo in Hr.
  destruct (Z.div_eucl (Zpos m * 2 ^ 24) (Zpos m)) as [q r].
  subst q r.
  assert (Hloc : new_location (Zpos m) 0 = loc_Exact).
  { unfold new_location. destruct (Z.even (Zpos m)); reflexivity. }
  rewrite Hloc. destruct s; reflexivity.
Qed.

(** ** Resampling at scale 1 *)

Lemma lerp_at_zero (p q : Z) :
  0 <= p < 16777216 -> 0 <= q < 16777216 ->
  lerp (float_of_int p) (float_of_int q) (S754_zero false) = float_of_int p.
Proof.
  intros Hp Hq. unfold lerp. rewrite float_of_int_1.
  change (fsub f_one (S754_zero false)) with f_one.
  rewrite fmul_one_small_int by exact Hp.
  assert (Hb : fmul (float_of_int q) (S754_zero false) = S754_zero false).
  { destruct (small_int_float q Hq) as [[_ ->]|[m [e [-> _]]]]; reflexivity. }
  rewrite Hb.
  destruct (small_int_float p Hp) as [[_ ->]|[m [e [-> _]]]]; reflexivity.
Qed.

Lemma float_of_int_finite (n : Z) :
  1 <= n <= 16777216 -> exists s m e, float_of_int n = S754_finite s m e.
Proof.
  intros Hn. destruct (Z.eq_dec n 16777216) as [->|N].
  - eexists _, _, _. reflexivity.
  - destruct (small_int_float n ltac:(lia)) as [[-> _]|[m [e [E _]]]]; [lia|].
    eauto.
Qed.

Lemma scale_one (n : Z) :
  1 <= n <= 16777216 -> fdiv (float_of_int n) (float_of_int n) = f_one.
Proof.
  intros Hn. destruct (float_of_int_finite n Hn) as [s [m [e ->]]].
  apply fdiv_self.
Qed.

Lemma byte_small (b : Z) : is_byte b -> 0 <= b < 16777216.
Proof. unfold is_byte. lia. Qed.

Section Identity.
Variable input : ImageData.
Hypothesis Hvalid : valid_buffer input.
Hypothesis Hfit : fits_int input.
Hypothesis Hwide : width input <= 16777216.
Hypothesis Hhigh : height input <= 16777216.

Local Abbreviation d := (data input).
Local Abbreviation w := (width input).
Local Abbreviation h := (height input).
Local Abbreviation c := (channels input).

(** Sampling at a pixel's own integer coordinates gives that pixel. *)
Lemma bilinearValue_at_pixel (xi yi ch : Z) :
  0 <= xi < w -> 0 <= yi < h -> 0 <= ch < c ->
  bilinearValue d w h c (float_of_int xi) (float_of_int yi) ch
  = Returned (float_of_int (byte_at d ((yi * w + xi) * c + ch))).
Proof.
  destruct Hvalid as [Hw [Hh [Hc [Hs Hb]]]].
  intros Hx Hy Hk. unfold bilinearValue.
  rewrite !ffloor_small_int, !int_of_float_small_int by lia.
  rewrite !int_add_small, !int_sub_small
    by (unfold in_int, INT_MIN, INT_MAX; lia).
  rewrite (fsub_self (float_of_int xi)), (fsub_self (float_of_int yi)).
  2,3: match goal with |- _ \/ (exists _ _ _, float_of_int ?n = _) =>
         destruct (small_int_float n ltac:(lia)) as [[_ E]|[m [e [E _]]]];
         rewrite E; eauto end.
  rewrite !(getPixel_inside input) by (try assumption; lia).
  cbn [bind].
  rewrite !lerp_at_zero by (apply byte_small, byte_at_range, Hb).
  reflexivity.
Qed.

Lemma resize_sample_identity (idx : Z) :
  0 <= idx < w * h * c ->
  resize_sample input w h idx = Returned (byte_at d idx).
Proof.
  destruct Hvalid as [Hw [Hh [Hc [Hs Hb]]]].
  intros Hidx. unfold resize_sample, bilinearInterpolate.
  rewrite !scale_one by lia.
  assert (Hq : 0 <= idx / c < w * h).
  { split; [apply Z.div_pos; lia | apply Z.div_lt_upper_bound; lia]. }
  assert (Hx : 0 <= (idx / c) mod w < w) by (apply Z.mod_pos_bound; lia).
  assert (Hy : 0 <= idx / c / w < h).
  { split; [apply Z.div_pos; lia | apply Z.div_lt_upper_bound; lia]. }
  assert (Hk : 0 <= idx mod c < c) by (apply Z.mod_pos_bound; lia).
  rewrite !fmul_one_small_int by lia.
  rewrite bilinearValue_at_pixel by lia. cbn [bind].
  rewrite uint8_of_float_byte by (apply byte_at_range, Hb).
  do 2 f_equal.
  pose proof (Z.div_mod (idx / c) w ltac:(lia)).
  pose proof (Z.div_mod idx c ltac:(lia)). nia.
Qed.

(** [resizeImage] to the source's own dimensions returns the source. *)
Lemma resizeImage_identity :
  resizeImage input w h = Returned input.
Proof.
  pose proof Hvalid as [Hw [Hh [Hc [Hs Hb]]]].
  destruct (resizeImage_spec input Hw Hh ltac:(lia) Hs Hfit w h Hw Hh Hfit)
    as [out [E [L S]]].
  rewrite E. f_equal.
  assert (out = d) as ->.
  { apply vec_ext; [rewrite L; symmetry; exact Hs|].
    intros i Hi. rewrite L in Hi.
    destruct (S i Hi) as [v [Sv [_ Gv]]].
    rewrite resize_sample_identity in Sv by exact Hi.
    rewrite Gv, <- Sv. symmetry. apply vec_get_byte_at.
    unfold well_sized in Hs. lia. }
  now destruct input.
Qed.

End Identity.

(** ** binary32: rounding to nearest *)

Lemma Zdigits2_unique (z k : Z) :
  0 < z -> 2 ^ (k - 1) <= z < 2 ^ k -> Zdigits2 z = k.
Proof.
  intros Hz [Hlo Hhi]. destruct z as [|p|p]; try lia. cbn [Zdigits2].
  pose proof (digits_bounds p) as [Dlo Dhi].
  set (d := Zpos (digits2_pos p)) in *.
  assert (1 <= d) by (unfold d; lia).
  destruct (Z.lt_trichotomy d k) as [L|[E|G]]; [|exact E|].
  - assert (2 ^ d <= 2 ^ (k - 1)) by (apply Z.pow_le_mono_r; lia). lia.
  - destruct (Z.le_gt_cases k 0) as [K0|K0].
    + assert (2 ^ k <= 2 ^ 0) by (apply Z.pow_le_mono_r_iff; lia).
      change (2 ^ 0) with 1 in *. lia.
    + assert (2 ^ k <= 2 ^ (d - 1)) by (apply Z.pow_le_mono_r; lia). lia.
Qed.

Lemma shr_1_m (r : shr_record) :
  0 <= shr_m r -> shr_m (shr_1 r) = shr_m r / 2.
Proof.
  destruct r as [m r s]. cbn [shr_m]. intros Hm.
  destruct m as [|[p|p|]|p]; cbn [shr_1 shr_m]; try reflexivity; try lia.
  - change (Zpos p~1) with (2 * Zpos p + 1).
    apply Z.div_unique with 1; lia.
  - change (Zpos p~0) with (2 * Zpos p).
    apply Z.div_unique with 0; lia.
Qed.

Lemma shr_iter_m (k : nat) (r : shr_record) :
  0 <= shr_m r ->
  shr_m (Nat.iter k shr_1 r) = shr_m r / 2 ^ Z.of_nat k.
Proof.
  intros Hm. induction k as [|k IH].
  - cbn. now rewrite Z.div_1_r.
  - change (Nat.iter (S k) shr_1 r) with (shr_1 (Nat.iter k shr_1 r)).
    rewrite shr_1_m, IH.
    + rewrite Nat2Z.inj_succ, Z.pow_succ_r, Z.div_div by lia.
      f_equal. lia.
    + rewrite IH. apply Z.div_pos; lia.
Qed.

(** Shifting right by [n] bits divides the mantissa by 2^n. *)
Lemma shr_spec (m e n : Z) :
  0 <= m -> 0 <= n ->
  exists rec,
    shr (Build_shr_record m false false) e n = (rec, e + n) /\
    shr_m rec = m / 2 ^ n.
Proof.
  intros Hm Hn. destruct n as [|p|p]; try lia.
  - eexists. cbn [shr]. rewrite Z.add_0_r. split; [reflexivity|].
    cbn [shr_m]. now rewrite Z.div_1_r.
  - eexists. cbn [shr]. split; [reflexivity|].
    rewrite iter_pos_nat, shr_iter_m by (cbn; lia).
    cbn [shr_m]. now rewrite positive_nat_Z.
Qed.

Lemma round_nearest_even_cases (q : Z) (l : location) :
  round_nearest_even q l = q \/ round_nearest_even q l = q + 1.
Proof.
  destruct l as [|[| |]]; cbn; auto. destruct (Z.even q); auto.
Qed.

(** [binary_round_aux] on an exact mantissa with at least as many bits as
    its exponent allows, below 2^127: the result is a canonical float
    within one unit in the last place of the value. *)
Lemma round_spec (s : bool) (m : positive) (e : Z) :
  e <= fexp prec emax (Zpos (digits2_pos m) + e) ->
  Zpos (digits2_pos m) + e <= 127 ->
  exists m2 e2,
    binary_round_aux prec emax s (Zpos m) e loc_Exact = mk_float s m2 e2 /\
    0 <= m2 /\ e <= e2 <= 104 /\
    (0 < m2 -> fexp prec emax (Zdigits2 m2 + e2) = e2) /\
    Z.abs (m2 * 2 ^ (e2 - e) - Zpos m)
    <= 2 ^ (fexp prec emax (Zpos (digits2_pos m) + e) - e).
Proof.
  intros Hn Hmag. pose proof (digits_bounds m) as [Dlo Dhi].
  rewrite fexp_eq in *.
  set (d := Zpos (digits2_pos m)) in *.
  assert (Hd : 1 <= d) by (unfold d; lia).
  set (e1 := Z.max (d + e - 24) (-149)) in *.
  set (n := e1 - e).
  assert (Hn0 : 0 <= n) by (unfold n; lia).
  unfold binary_round_aux, shr_fexp. cbn [Zdigits2 shr_record_of_loc].
  rewrite !fexp_eq. fold d e1 n.
  destruct (shr_spec (Zpos m) e n ltac:(lia) Hn0) as [rec [E1 Q]].
  rewrite E1. replace (e + n) with e1 by (unfold n; lia).
  set (q := Zpos m / 2 ^ n) in *.
  assert (Hpow : 0 < 2 ^ n) by (apply Z.pow_pos_nonneg; lia).
  assert (Hq : q * 2 ^ n <= Zpos m < (q + 1) * 2 ^ n).
  { unfold q. pose proof (Z.div_mod (Zpos m) (2 ^ n) ltac:(lia)).
    pose proof (Z.mod_pos_bound (Zpos m) (2 ^ n) Hpow). lia. }
  assert (Hq0 : 0 <= q) by (unfold q; apply Z.div_pos; lia).
  cbv beta iota zeta.
  set (m1 := round_nearest_even (shr_m rec) (loc_of_shr_record rec)).
  rewrite fexp_eq.
  assert (Hm1 : m1 = q \/ m1 = q + 1)
    by (unfold m1; rewrite Q; apply round_nearest_even_cases).
  assert (Hm1n : Z.abs (m1 * 2 ^ n - Zpos m) <= 2 ^ n)
    by (destruct Hm1 as [H1|H1]; rewrite H1; lia).
  destruct (Z.le_gt_cases (-149) (d + e - 24)) as [Hnorm|Hsub].
  - (* normal range *)
    assert (He1 : e1 = d + e - 24) by (unfold e1; lia).
    assert (Hnd : n = d - 24) by (unfold n; lia).
    assert (Hqb : 2 ^ 23 <= q < 2 ^ 24).
    { assert (P1 : 2 ^ (d - 1) = 2 ^ 23 * 2 ^ n)
        by (rewrite <- Z.pow_add_r by lia; f_equal; lia).
      assert (P2 : 2 ^ d = 2 ^ 24 * 2 ^ n)
        by (rewrite <- Z.pow_add_r by lia; f_equal; lia).
      rewrite P1 in Dlo. rewrite P2 in Dhi.
      change (2 ^ 23) with 8388608 in *. change (2 ^ 24) with 16777216 in *.
      split.
      - apply Z.div_le_lower_bound; lia.
      - apply Z.div_lt_upper_bound; lia. }
    change (2 ^ 23) with 8388608 in Hqb. change (2 ^ 24) with 16777216 in Hqb.
    destruct (Z.eq_dec m1 16777216) as [E24|N24].
    + rewrite E24. cbn [Zdigits2 digits2_pos Pos.succ].
      replace (Z.max (25 + e1 - 24) (-149) - e1) with 1 by lia.
      cbn [shr iter_pos shr_1 shr_m]. exists 8388608, (e1 + 1).
      change (emax - prec) with 104.
      destruct (Z.leb_spec (e1 + 1) 104); [|lia].
      split; [reflexivity|]. split; [lia|]. split; [lia|]. split.
      * intros _. cbn [Zdigits2 digits2_pos Pos.succ]. rewrite fexp_eq. lia.
      * replace (e1 + 1 - e) with (Z.succ n) by (unfold n; lia).
        rewrite Z.pow_succ_r by lia. rewrite E24 in Hm1n.
        replace (8388608 * (2 * 2 ^ n)) with (16777216 * 2 ^ n) by ring.
        fold n. exact Hm1n.
    + assert (Hm1b : 8388608 <= m1 < 16777216) by lia.
      assert (Hdig : Zdigits2 m1 = 24)
        by (apply Zdigits2_unique; [lia | change (2 ^ (24 - 1)) with 8388608;
            change (2 ^ 24) with 16777216; lia]).
      rewrite Hdig.
      replace (Z.max (24 + e1 - 24) (-149) - e1) with 0 by lia.
      cbn [shr shr_m]. exists m1, e1.
      change (emax - prec) with 104.
      destruct m1 as [|p1|p1]; try lia.
      destruct (Z.leb_spec e1 104); [|lia].
      split; [reflexivity|]. split; [lia|]. split; [lia|]. split.
      * intros _. rewrite Hdig, fexp_eq. lia.
      * fold n. exact Hm1n.
  - (* subnormal range *)
    assert (He1 : e1 = -149) by (unfold e1; lia).
    assert (Hqb : q < 2 ^ 23).
    { assert (P : 2 ^ d <= 2 ^ 23 * 2 ^ n).
      { rewrite <- Z.pow_add_r by lia. apply Z.pow_le_mono_r; unfold n; lia. }
      apply Z.div_lt_upper_bound; lia. }
    change (2 ^ 23) with 8388608 in Hqb.
    assert (Hm1b : 0 <= m1 <= 8388608) by lia.
    assert (Hdig : m1 = 0 \/ (0 < m1 /\ Zdigits2 m1 <= 24)).
    { destruct (Z.eq_dec m1 0) as [|N0]; [now left | right].
      split; [lia|]. destruct m1 as [|p1|p1]; try lia. cbn [Zdigits2].
      apply digits_small. lia. }
    assert (Hshift : Z.max (Zdigits2 m1 + e1 - 24) (-149) - e1 = 0).
    { destruct Hdig as [->|[_ Hdig]]; [cbn [Zdigits2]|]; lia. }
    rewrite Hshift. cbn [shr shr_m]. exists m1, e1.
    change (emax - prec) with 104.
    destruct m1 as [|p1|p1]; try lia.
    + split; [reflexivity|]. split; [lia|]. split; [lia|]. split; [lia|].
      fold n. exact Hm1n.
    + destruct (Z.leb_spec e1 104); [|lia].
      split; [reflexivity|]. split; [lia|]. split; [lia|]. split.
      * intros _. rewrite fexp_eq. lia.
      * fold n. exact Hm1n.
Qed.

(** ** binary32: rounding a truncated quotient *)




(** ** binary32: the error of one operation *)

Lemma bpow_pos (e : Z) : (0 < bpow e)%R.
Proof. apply powerRZ_lt. lra. Qed.

Lemma bpow_add (a b : Z) : bpow (a + b) = (bpow a * bpow b)%R.
Proof. apply powerRZ_add. lra. Qed.

Lemma bpow_IZR (n : Z) : 0 <= n -> bpow n = IZR (2 ^ n).
Proof.
  intros Hn. unfold bpow. rewrite <- (Z2Nat.id n Hn) at 1.
  rewrite <- pow_powerRZ, pow_IZR, Z2Nat.id by exact Hn. reflexivity.
Qed.

Lemma bpow_le (a b : Z) : a <= b -> (bpow a <= bpow b)%R.
Proof.
  intros H. replace b with (a + (b - a)) by lia.
  rewrite bpow_add, (bpow_IZR (b - a)) by lia.
  assert (H1 : 0 < 2 ^ (b - a)) by (apply Z.pow_pos_nonneg; lia).
  assert (H2 : (1 <= IZR (2 ^ (b - a)))%R) by (apply IZR_le; lia).
  pose proof (bpow_pos a). nra.
Qed.

Lemma bpow_lt_inv (a b : Z) : (bpow a < bpow b)%R -> a < b.
Proof.
  intros H. destruct (Z.lt_ge_cases a b) as [L|G]; [exact L|].
  apply bpow_le in G. lra.
Qed.

Lemma B2R_mk_float (s : bool) (m e : Z) :
  0 <= m -> B2R (mk_float s m e) = (IZR (cond_Zopp s m) * bpow e)%R.
Proof.
  intros Hm. destruct m as [|p|p]; try lia; cbn [mk_float B2R].
  - destruct s; cbn [cond_Zopp Z.opp]; lra.
  - reflexivity.
Qed.

Lemma good_mk_float (s : bool) (m e : Z) :
  0 <= m -> (0 < m -> fexp prec emax (Zdigits2 m + e) = e) -> e <= 104 ->
  good (mk_float s m e).
Proof.
  intros Hm Hcan He. destruct m as [|p|p]; try lia; cbn [mk_float good].
  - exact I.
  - unfold bounded, canonical_mantissa.
    specialize (Hcan ltac:(lia)). cbn [Zdigits2] in Hcan.
    rewrite Hcan, Z.eqb_refl. change (emax - prec) with 104.
    destruct (Z.leb_spec e 104); [reflexivity | lia].
Qed.

Lemma good_finite_inv (s : bool) (m : positive) (e : Z) :
  good (S754_finite s m e) ->
  fexp prec emax (Zpos (digits2_pos m) + e) = e /\ e <= 104.
Proof.
  cbn [good]. unfold bounded, canonical_mantissa. intros H.
  apply andb_prop in H as [H1 H2].
  apply Z.eqb_eq in H1. apply Z.leb_le in H2.
  change (emax - prec) with 104 in H2. auto.
Qed.

Lemma IZR_cond_Zopp (s : bool) (z : Z) :
  IZR (cond_Zopp s z) = (if s then - IZR z else IZR z)%R.
Proof. destruct s; cbn [cond_Zopp]; [apply opp_IZR | reflexivity]. Qed.

(** One unit in the last place, against the value. *)
Lemma ulp_bound (m : positive) (e : Z) :
  (bpow (fexp prec emax (Zpos (digits2_pos m) + e))
   <= bpow (-23) * (IZR (Zpos m) * bpow e) + bpow (-149))%R.
Proof.
  pose proof (digits_bounds m) as [Dlo _].
  set (d := Zpos (digits2_pos m)) in *.
  assert (Hd : 1 <= d) by (unfold d; lia).
  pose proof (bpow_pos e) as Pe. pose proof (bpow_pos (-23)) as P23.
  pose proof (bpow_pos (-149)) as P149.
  assert (Hm : (bpow (d - 1) <= IZR (Zpos m))%R).
  { rewrite bpow_IZR by lia. apply IZR_le. exact Dlo. }
  rewrite fexp_eq.
  destruct (Z.le_gt_cases (-149) (d + e - 24)) as [H|H].
  - rewrite Z.max_l by lia.
    replace (d + e - 24) with (-23 + ((d - 1) + e)) by lia.
    rewrite !bpow_add.
    assert (Hk : (0 <= bpow (-23) * bpow e)%R)
      by (apply Rmult_le_pos; lra).
    pose proof (Rmult_le_compat_l _ _ _ Hk Hm). lra.
  - rewrite Z.max_r by lia.
    pose proof (bpow_pos (d - 1)).
    assert (Hk : (0 <= bpow (-23) * (IZR (Zpos m) * bpow e))%R)
      by (repeat apply Rmult_le_pos; lra).
    lra.
Qed.

Lemma round_error (s : bool) (m : positive) (e : Z) :
  e <= fexp prec emax (Zpos (digits2_pos m) + e) ->
  Zpos (digits2_pos m) + e <= 127 ->
  good (binary_round_aux prec emax s (Zpos m) e loc_Exact) /\
  (Rabs (B2R (binary_round_aux prec emax s (Zpos m) e loc_Exact)
         - IZR (cond_Zopp s (Zpos m)) * bpow e)
   <= bpow (-23) * (IZR (Zpos m) * bpow e) + bpow (-149))%R.
Proof.
  intros Hn Hmag.
  destruct (round_spec s m e Hn Hmag) as [m2 [e2 [E [Hm2 [He2 [Hcan Herr]]]]]].
  rewrite E. split; [apply good_mk_float; auto; lia|].
  rewrite B2R_mk_float by exact Hm2.
  eapply Rle_trans; [|apply ulp_bound].
  set (e1 := fexp prec emax (Zpos (digits2_pos m) + e)) in *.
  replace e2 with (e + (e2 - e)) at 1 by lia.
  replace e1 with (e + (e1 - e)) by lia.
  rewrite !bpow_add, (bpow_IZR (e2 - e)), (bpow_IZR (e1 - e)) by lia.
  apply IZR_le in Herr. rewrite abs_IZR, minus_IZR, mult_IZR in Herr.
  pose proof (bpow_pos e) as Pe.
  rewrite !IZR_cond_Zopp.
  set (a := IZR m2) in *. set (b := IZR (2 ^ (e2 - e))) in *.
  set (c := IZR (Zpos m)) in *. set (u := IZR (2 ^ (e1 - e))) in *.
  assert (Hab : (Rabs (a * b - c) * bpow e <= bpow e * u)%R) by nra.
  replace (Rabs ((if s then - a else a) * (bpow e * b)
                 - (if s then - c else c) * bpow e))%R
    with (Rabs (a * b - c) * bpow e)%R; [exact Hab|].
  rewrite <- (Rabs_pos_eq (bpow e)) at 1 by lra.
  rewrite <- Rabs_mult. destruct s.
  - rewrite <- Rabs_Ropp. f_equal. ring.
  - f_equal. ring.
Qed.

Lemma digits_mul_lower (a b : positive) :
  Zpos (digits2_pos a) + Zpos (digits2_pos b) - 1
  <= Zpos (digits2_pos (a * b)).
Proof.
  pose proof (digits_bounds a) as [Alo _].
  pose proof (digits_bounds b) as [Blo _].
  pose proof (digits_bounds (a * b)) as [_ Phi].
  set (da := Zpos (digits2_pos a)) in *. set (db := Zpos (digits2_pos b)) in *.
  set (d := Zpos (digits2_pos (a * b))) in *.
  assert (1 <= da) by (unfold da; lia). assert (1 <= db) by (unfold db; lia).
  assert (1 <= d) by (unfold d; lia).
  destruct (Z.le_gt_cases (da + db - 1) d) as [L|G]; [exact L|].
  assert (P : 2 ^ (da - 1) * 2 ^ (db - 1) <= Zpos a * Zpos b).
  { apply Z.mul_le_mono_nonneg; try assumption; apply Z.pow_nonneg; lia. }
  rewrite <- Z.pow_add_r in P by lia. rewrite Pos2Z.inj_mul in Phi.
  assert (2 ^ d <= 2 ^ (da - 1 + (db - 1))) by (apply Z.pow_le_mono_r; lia).
  lia.
Qed.

(** A value below 2^126 has at most 127 bits above its last place. *)
Lemma magnitude_digits (m : positive) (e : Z) :
  (IZR (Zpos m) * bpow e < bpow 126)%R -> Zpos (digits2_pos m) + e <= 127.
Proof.
  intros H. pose proof (digits_bounds m) as [Dlo _].
  set (d := Zpos (digits2_pos m)) in *.
  assert (Hd : 1 <= d) by (unfold d; lia).
  assert (Hm : (bpow (d - 1) <= IZR (Zpos m))%R).
  { rewrite bpow_IZR by lia. apply IZR_le. exact Dlo. }
  pose proof (bpow_pos e) as Pe.
  assert (Hlt : (bpow (d - 1 + e) < bpow 126)%R).
  { rewrite bpow_add. pose proof (Rmult_le_compat_r _ _ _ (Rlt_le _ _ Pe) Hm). lra. }
  apply bpow_lt_inv in Hlt. lia.
Qed.

Lemma B2R_finite_abs (s : bool) (m : positive) (e : Z) :
  Rabs (B2R (S754_finite s m e)) = (IZR (Zpos m) * bpow e)%R.
Proof.
  cbn [B2R]. rewrite IZR_cond_Zopp. pose proof (bpow_pos e).
  assert (0 < IZR (Zpos m))%R by (apply IZR_lt; lia).
  assert (0 < IZR (Zpos m) * bpow e)%R by (apply Rmult_lt_0_compat; lra).
  destruct s.
  - replace (- IZR (Zpos m) * bpow e)%R with (- (IZR (Zpos m) * bpow e))%R by ring.
    rewrite Rabs_Ropp. apply Rabs_pos_eq. lra.
  - apply Rabs_pos_eq. lra.
Qed.

Lemma zero_within (v : R) :
  v = 0%R -> (Rabs (0 - v) <= bpow (-23) * Rabs v + bpow (-149))%R.
Proof.
  intros ->. rewrite Rminus_0_r, Rabs_R0.
  pose proof (bpow_pos (-149)). lra.
Qed.

Lemma exact_within (v : R) :
  (Rabs (v - v) <= bpow (-23) * Rabs v + bpow (-149))%R.
Proof.
  rewrite Rminus_diag, Rabs_R0.
  pose proof (bpow_pos (-149)). pose proof (bpow_pos (-23)).
  pose proof (Rabs_pos v). nra.
Qed.

(** Multiplication. *)
Lemma fmul_error (x y : float) :
  good x -> good y ->
  (Rabs (B2R x * B2R y) < bpow 126)%R ->
  good (fmul x y) /\
  (Rabs (B2R (fmul x y) - B2R x * B2R y)
   <= bpow (-23) * Rabs (B2R x * B2R y) + bpow (-149))%R.
Proof.
  intros Gx Gy Hmag.
  destruct x as [sx|sx| |sx mx ex], y as [sy|sy| |sy my ey];
    try contradiction; cbn [fmul SFmul]; unfold fmul; cbn [SFmul].
  - split; [exact I|]. apply zero_within. cbn [B2R]. ring.
  - split; [exact I|]. apply zero_within. cbn [B2R]. ring.
  - split; [exact I|]. apply zero_within. cbn [B2R]. ring.
  - destruct (good_finite_inv _ _ _ Gx) as [Cx Ex].
    destruct (good_finite_inv _ _ _ Gy) as [Cy Ey].
    pose proof (digits_mul_lower mx my) as Dm.
    rewrite fexp_eq in Cx, Cy.
    assert (Hval : (B2R (S754_finite sx mx ex) * B2R (S754_finite sy my ey)
                    = IZR (cond_Zopp (xorb sx sy) (Zpos (mx * my)))
                      * bpow (ex + ey))%R).
    { cbn [B2R]. rewrite !IZR_cond_Zopp, bpow_add, Pos2Z.inj_mul, mult_IZR.
      destruct sx, sy; cbn [xorb]; ring. }
    assert (Habs : (Rabs (B2R (S754_finite sx mx ex) * B2R (S754_finite sy my ey))
                    = IZR (Zpos (mx * my)) * bpow (ex + ey))%R).
    { rewrite Hval.
      change (IZR (cond_Zopp (xorb sx sy) (Zpos (mx * my))) * bpow (ex + ey))%R
        with (B2R (S754_finite (xorb sx sy) (mx * my) (ex + ey))).
      apply B2R_finite_abs. }
    rewrite Habs in Hmag |- *. rewrite Hval.
    apply round_error.
    + rewrite fexp_eq. lia.
    + apply magnitude_digits, Hmag.
Qed.

Lemma shl_align_value (m : positive) (e e' : Z) :
  e' <= e ->
  (IZR (Zpos (fst (shl_align m e e'))) * bpow e' = IZR (Zpos m) * bpow e)%R.
Proof.
  intros H. unfold shl_align.
  destruct (e' - e) as [|k|k] eqn:Ek; try lia; cbn [fst].
  - replace e' with e by lia. reflexivity.
  - rewrite pos_iter_shiftl, Zpos_shiftl, mult_IZR, positive_nat_Z.
    replace e with (Zpos k + e') by lia.
    rewrite bpow_add, (bpow_IZR (Zpos k)) by lia. ring.
Qed.

(** [binary_round], the rounding of an integer mantissa at an exponent. *)
Lemma binary_round_error (s : bool) (m : positive) (e : Z) :
  (IZR (Zpos m) * bpow e < bpow 126)%R ->
  good (binary_round prec emax s m e) /\
  (Rabs (B2R (binary_round prec emax s m e)
         - IZR (cond_Zopp s (Zpos m)) * bpow e)
   <= bpow (-23) * (IZR (Zpos m) * bpow e) + bpow (-149))%R.
Proof.
  intros Hmag. pose proof (magnitude_digits m e Hmag) as Hd.
  unfold binary_round, shl_align.
  set (e' := fexp prec emax (Zpos (digits2_pos m) + e)) in *.
  destruct (e' - e) as [|k|k] eqn:Ek.
  - apply round_error; [fold e'; lia | exact Hd].
  - apply round_error; [fold e'; lia | exact Hd].
  - pose proof (round_error s (Pos.iter xO m k) e') as R.
    rewrite pos_iter_shiftl in *.
    rewrite digits_shiftl, positive_nat_Z in R.
    replace (Zpos (digits2_pos m) + Zpos k + e')
      with (Zpos (digits2_pos m) + e) in R by lia.
    fold e' in R. specialize (R ltac:(lia) Hd).
    assert (Hv : forall z, (IZR (z * 2 ^ Zpos k) * bpow e' = IZR z * bpow e)%R).
    { intros z. rewrite mult_IZR. replace e with (Zpos k + e') by lia.
      rewrite bpow_add, (bpow_IZR (Zpos k)) by lia. ring. }
    assert (Hc : cond_Zopp s (Zpos (Pos.shiftl_nat m (Pos.to_nat k)))
                 = cond_Zopp s (Zpos m) * 2 ^ Zpos k).
    { rewrite Zpos_shiftl, positive_nat_Z. destruct s; cbn [cond_Zopp]; ring. }
    set (f := binary_round_aux prec emax s
                (Zpos (Pos.shiftl_nat m (Pos.to_nat k))) e' loc_Exact) in *.
    rewrite Hc, Hv in R.
    rewrite Zpos_shiftl, positive_nat_Z, Hv in R. exact R.
Qed.

(** [binary_normalize], the rounding of a signed integer at an exponent. *)
Lemma binary_normalize_error (M e : Z) :
  (Rabs (IZR M * bpow e) < bpow 126)%R ->
  good (binary_normalize prec emax M e false) /\
  (Rabs (B2R (binary_normalize prec emax M e false) - IZR M * bpow e)
   <= bpow (-23) * Rabs (IZR M * bpow e) + bpow (-149))%R.
Proof.
  intros Hmag. pose proof (bpow_pos e) as Pe.
  destruct M as [|p|p]; cbn [binary_normalize].
  - split; [exact I|]. apply zero_within. ring.
  - change (IZR (Zpos p) * bpow e)%R with (B2R (S754_finite false p e)) in Hmag |- * at 2.
    rewrite B2R_finite_abs in Hmag |- *.
    apply (binary_round_error false p e Hmag).
  - change (IZR (Zneg p) * bpow e)%R with (B2R (S754_finite true p e)) in Hmag |- * at 2.
    rewrite B2R_finite_abs in Hmag |- *.
    apply (binary_round_error true p e Hmag).
Qed.

Lemma aligned_value (s : bool) (m : positive) (e ez : Z) :
  ez <= e ->
  (IZR (cond_Zopp s (Zpos (fst (shl_align m e ez)))) * bpow ez
   = B2R (S754_finite s m e))%R.
Proof.
  intros H. cbn [B2R]. rewrite !IZR_cond_Zopp.
  pose proof (shl_align_value m e ez H) as V.
  destruct s; lra.
Qed.

(** Addition. *)
Lemma fadd_error (x y : float) :
  good x -> good y ->
  (Rabs (B2R x + B2R y) < bpow 126)%R ->
  good (fadd x y) /\
  (Rabs (B2R (fadd x y) - (B2R x + B2R y))
   <= bpow (-23) * Rabs (B2R x + B2R y) + bpow (-149))%R.
Proof.
  intros Gx Gy Hmag.
  destruct x as [sx|sx| |sx mx ex], y as [sy|sy| |sy my ey];
    try contradiction; unfold fadd; cbn [SFadd].
  - destruct sx, sy; cbn [B2R good]; (split; [exact I|]);
      apply zero_within; ring.
  - split; [exact Gy|]. change (B2R (S754_zero sx)) with 0%R.
    rewrite !Rplus_0_l. apply exact_within.
  - split; [exact Gx|]. change (B2R (S754_zero sy)) with 0%R.
    rewrite !Rplus_0_r. apply exact_within.
  - set (ez := Z.min ex ey) in *.
    rewrite <- (aligned_value sx mx ex ez), <- (aligned_value sy my ey ez) in *
      by (unfold ez; lia).
    rewrite <- Rmult_plus_distr_r, <- plus_IZR in *.
    now apply binary_normalize_error.
Qed.

(** Subtraction. *)
Lemma fsub_error (x y : float) :
  good x -> good y ->
  (Rabs (B2R x - B2R y) < bpow 126)%R ->
  good (fsub x y) /\
  (Rabs (B2R (fsub x y) - (B2R x - B2R y))
   <= bpow (-23) * Rabs (B2R x - B2R y) + bpow (-149))%R.
Proof.
  intros Gx Gy Hmag.
  destruct x as [sx|sx| |sx mx ex], y as [sy|sy| |sy my ey];
    try contradiction; unfold fsub; cbn [SFsub].
  - destruct sx, sy; cbn [B2R good]; (split; [exact I|]);
      apply zero_within; ring.
  - split; [exact Gy|].
    replace (B2R (S754_finite (negb sy) my ey))
      with (B2R (S754_zero sx) - B2R (S754_finite sy my ey))%R.
    + apply exact_within.
    + cbn [B2R]. rewrite !IZR_cond_Zopp. destruct sy; cbn [negb]; ring.
  - split; [exact Gx|]. change (B2R (S754_zero sy)) with 0%R.
    rewrite !Rminus_0_r. apply exact_within.
  - set (ez := Z.min ex ey) in *.
    rewrite <- (aligned_value sx mx ex ez), <- (aligned_value sy my ey ez) in *
      by (unfold ez; lia).
    rewrite <- Rmult_minus_distr_r, <- minus_IZR in *.
    now apply binary_normalize_error.
Qed.

(** The float of an integer in [0, 2^24) is that integer. *)
Lemma float_of_small_int_value (n : Z) :
  0 <= n < 16777216 ->
  good (float_of_int n) /\ B2R (float_of_int n) = IZR n.
Proof.
  intros Hn. destruct (small_int_float n Hn) as [[-> ->]|[m [e [-> [D [E M]]]]]].
  - split; [exact I | reflexivity].
  - split.
    + cbn [good]. unfold bounded, canonical_mantissa.
      rewrite D, fexp_eq. change (emax - prec) with 104.
      replace (Z.max (24 + e - 24) (-149)) with e by lia.
      rewrite Z.eqb_refl. destruct (Z.leb_spec e 104); [reflexivity | lia].
    + cbn [B2R cond_Zopp]. rewrite M, mult_IZR, <- bpow_IZR by lia.
      rewrite Rmult_assoc, <- bpow_add.
      replace (- e + e) with 0 by lia. unfold bpow. cbn [powerRZ]. ring.
Qed.

(** ** binary32: truncation and floor *)

Lemma bpow_opp (e : Z) : (bpow e * bpow (- e) = 1)%R.
Proof.
  rewrite <- bpow_add. replace (e + - e) with 0 by lia. reflexivity.
Qed.

(** Truncating a number strictly between -1 and 256 gives a byte. *)
Lemma float_trunc_byte (f : float) :
  good f -> (-1 < B2R f < 256)%R ->
  exists z, float_trunc f = Some z /\ 0 <= z <= 255.
Proof.
  intros Gf [Hlo Hhi]. destruct f as [s|s| |s m e]; try contradiction.
  - exists 0. split; [reflexivity | lia].
  - cbn [float_trunc]. eexists. split; [reflexivity|].
    cbn [B2R] in Hlo, Hhi. rewrite IZR_cond_Zopp in Hlo, Hhi.
    pose proof (bpow_pos e) as Pe.
    assert (Hm : (1 <= IZR (Zpos m))%R) by (apply IZR_le; lia).
    destruct (Z.le_gt_cases 0 e) as [He|He].
    + rewrite Z.shiftl_mul_pow2 by lia.
      rewrite bpow_IZR in Hlo, Hhi, Pe by lia.
      assert (H1 : 1 <= 2 ^ e) by (pose proof (Z.pow_pos_nonneg 2 e); lia).
      assert (H1R : (1 <= IZR (2 ^ e))%R) by (apply IZR_le; exact H1).
      destruct s; cbn [cond_Zopp].
      * exfalso. nra.
      * rewrite <- mult_IZR in Hhi. apply lt_IZR in Hhi. nia.
    + rewrite Z.shiftl_div_pow2 by lia.
      set (P := 2 ^ (- e)) in *.
      assert (HP : 0 < P) by (apply Z.pow_pos_nonneg; lia).
      assert (HPR : (0 < IZR P)%R) by (apply IZR_lt; exact HP).
      assert (Hb : (bpow e * IZR P = 1)%R)
        by (unfold P; rewrite <- bpow_IZR by lia; apply bpow_opp).
      assert (Hq0 : 0 <= Zpos m / P) by (apply Z.div_pos; lia).
      destruct s; cbn [cond_Zopp].
      * assert (Hlt : (IZR (Zpos m) < IZR P)%R) by nra.
        apply lt_IZR in Hlt. rewrite Z.div_small by lia. cbn. lia.
      * assert (Hlt : (IZR (Zpos m) < 256 * IZR P)%R) by nra.
        rewrite <- mult_IZR in Hlt. apply lt_IZR in Hlt.
        assert (Zpos m / P < 256) by (apply Z.div_lt_upper_bound; lia).
        lia.
Qed.

Lemma good_digits (s : bool) (m : positive) (e : Z) :
  good (S754_finite s m e) ->
  Zpos (digits2_pos m) <= 24 /\ (-149 < e -> Zpos (digits2_pos m) = 24) /\
  -149 <= e <= 104.
Proof.
  intros G. destruct (good_finite_inv s m e G) as [C E].
  rewrite fexp_eq in C. lia.
Qed.

Lemma good_mantissa (s : bool) (m : positive) (e : Z) :
  good (S754_finite s m e) -> Zpos m < 16777216.
Proof.
  intros G. destruct (good_digits s m e G) as [D _].
  pose proof (digits_bounds m) as [_ Hhi].
  assert (2 ^ Zpos (digits2_pos m) <= 2 ^ 24) by (apply Z.pow_le_mono_r; lia).
  change (2 ^ 24) with 16777216 in *. lia.
Qed.

(** The float of an integer-valued float is that float. *)
Lemma float_of_int_integral (m : positive) (e : Z) :
  good (S754_finite false m e) -> 0 <= e ->
  float_of_int (Z.shiftl (Zpos m) e) = S754_finite false m e.
Proof.
  intros G He. destruct (good_digits false m e G) as [_ [D E]].
  specialize (D ltac:(lia)).
  rewrite Z.shiftl_mul_pow2 by lia.
  rewrite <- (Z2Nat.id e He) at 1. rewrite <- Zpos_shiftl.
  unfold float_of_int, binary_normalize, binary_round, shl_align.
  rewrite digits_shiftl, D, Z2Nat.id, Z.add_0_r, fexp_eq by lia.
  replace (Z.max (24 + e - 24) (-149) - 0) with e by lia.
  destruct e as [|pe|pe] eqn:Ee; try lia.
  - apply (round_shifted false m 0 0); [rewrite D, fexp_eq|]; lia.
  - rewrite <- Ee in *.
    pose proof (round_shifted false m (Z.to_nat e) e) as R.
    rewrite Z2Nat.id, Z.sub_diag in R by lia.
    rewrite Ee in *. apply R; [rewrite D, fexp_eq|]; lia.
Qed.

(** The integer part of a coordinate in [0, n]: what [floor] and the cast
    to [int] give, and the float it is converted back to. *)
Lemma floor_spec (x : float) (n : Z) :
  good x -> float_in_range x n = true -> n <= INT_MAX ->
  let x1 := int_of_float (ffloor x) in
  0 <= x1 <= n /\
  (IZR x1 <= B2R x < IZR x1 + 1)%R /\
  good (float_of_int x1) /\ B2R (float_of_int x1) = IZR x1.
Proof.
  unfold INT_MAX. intros G Hr Hn. cbv zeta.
  destruct x as [s|s| |[|] m e]; try contradiction; try discriminate.
  - cbn [float_in_range] in Hr. apply Z.leb_le in Hr.
    cbn [ffloor]. change (int_of_float (S754_zero s)) with 0.
    cbn [B2R]. repeat split; try lia; lra.
  - cbn [float_in_range] in Hr.
    pose proof (good_mantissa _ _ _ G) as Hm24.
    pose proof (bpow_pos e) as Pe.
    destruct (Z.leb_spec 0 e) as [He|He].
    + apply Z.leb_le in Hr. unfold ffloor.
      destruct (Z.leb_spec 0 e); [|lia].
      assert (Ht : int_of_float (S754_finite false m e) = Z.shiftl (Zpos m) e).
      { unfold int_of_float, INT_MIN, INT_MAX. cbn [float_trunc cond_Zopp].
        rewrite Z.shiftl_mul_pow2 by lia.
        assert (0 < 2 ^ e) by (apply Z.pow_pos_nonneg; lia).
        destruct (Z.leb_spec (-2147483648) (Zpos m * 2 ^ e)); [|nia].
        destruct (Z.leb_spec (Zpos m * 2 ^ e) 2147483647); [reflexivity | lia]. }
      rewrite Ht, float_of_int_integral by assumption.
      rewrite Z.shiftl_mul_pow2 by lia.
      assert (0 < 2 ^ e) by (apply Z.pow_pos_nonneg; lia).
      cbn [B2R cond_Zopp]. rewrite mult_IZR, <- bpow_IZR by lia.
      repeat split; try nia; try lra; exact G.
    + apply Z.leb_le in Hr. unfold ffloor.
      destruct (Z.leb_spec 0 e); [lia|].
      cbn [cond_Zopp]. rewrite Z.shiftl_div_pow2 by lia.
      set (P := 2 ^ (- e)) in *.
      assert (HP : 0 < P) by (apply Z.pow_pos_nonneg; lia).
      assert (HPR : (0 < IZR P)%R) by (apply IZR_lt; exact HP).
      assert (Hb : (bpow e * IZR P = 1)%R)
        by (unfold P; rewrite <- bpow_IZR by lia; apply bpow_opp).
      set (t := Zpos m / P).
      assert (Ht0 : 0 <= t) by (apply Z.div_pos; lia).
      assert (Htm : t * P <= Zpos m < (t + 1) * P).
      { unfold t. pose proof (Z.div_mod (Zpos m) P ltac:(lia)).
        pose proof (Z.mod_pos_bound (Zpos m) P HP). lia. }
      assert (Htn : t <= n) by (apply Z.div_le_upper_bound; lia).
      assert (Ht24 : t < 16777216) by nia.
      assert (Hx1 : int_of_float (if t =? 0 then S754_zero false
                                  else float_of_int t) = t).
      { destruct (Z.eqb_spec t 0) as [->|N]; [reflexivity|].
        apply int_of_float_small_int. lia. }
      rewrite Hx1.
      destruct (float_of_small_int_value t ltac:(lia)) as [Gt Vt].
      cbn [B2R cond_Zopp].
      destruct Htm as [T1 T2]. apply IZR_le in T1. apply IZR_lt in T2.
      rewrite mult_IZR in T1, T2. rewrite plus_IZR in T2.
      apply (Rmult_le_compat_r (bpow e) _ _ (Rlt_le _ _ Pe)) in T1.
      apply (Rmult_lt_compat_r (bpow e) _ _ Pe) in T2.
      replace (IZR t * IZR P * bpow e)%R with (IZR t * (bpow e * IZR P))%R
        in T1 by ring.
      replace ((IZR t + 1) * IZR P * bpow e)%R
        with ((IZR t + 1) * (bpow e * IZR P))%R in T2 by ring.
      rewrite Hb in T1, T2.
      repeat split; try lia; try assumption; lra.
Qed.

(** ** binary32: bounds with numbers *)

Lemma bpow_m23 : bpow (-23) = (/ 8388608)%R.
Proof.
  unfold bpow. cbn [powerRZ]. change (Pos.to_nat 23) with 23%nat.
  f_equal. simpl. lra.
Qed.

Lemma bpow_m149_le : (bpow (-149) <= / 8388608)%R.
Proof. rewrite <- bpow_m23. apply bpow_le. lia. Qed.

Lemma bpow_126_large : (1048576 <= bpow 126)%R.
Proof.
  replace 1048576%R with (bpow 20).
  - apply bpow_le. lia.
  - rewrite bpow_IZR by lia. reflexivity.
Qed.

Lemma Rabs_le_elim (a b : R) : (Rabs a <= b)%R -> (- b <= a <= b)%R.
Proof. unfold Rabs. destruct (Rcase_abs a); lra. Qed.

(** The error bound of one operation on a value of magnitude at most [K]. *)
Lemma error_within (K v r : R) :
  (- K <= v <= K)%R ->
  (Rabs (r - v) <= bpow (-23) * Rabs v + bpow (-149))%R ->
  (v - (K + 1) / 8000000 <= r <= v + (K + 1) / 8000000)%R.
Proof.
  intros Hv He. pose proof bpow_m149_le as H149. rewrite bpow_m23 in He.
  assert (Ha : (Rabs v <= K)%R) by (apply Rabs_le; lra).
  pose proof (Rabs_pos v) as Hp.
  assert (Hb : (Rabs (r - v) <= (K + 1) / 8000000)%R) by lra.
  apply Rabs_le_elim in Hb. lra.
Qed.

Lemma magnitude_ok (K v : R) :
  (- K <= v <= K)%R -> (K <= 1000000)%R -> (Rabs v < bpow 126)%R.
Proof.
  intros Hv HK. pose proof bpow_126_large.
  apply Rle_lt_trans with K; [apply Rabs_le; lra | lra].
Qed.

Lemma fmul_within (x y : float) (K : R) :
  good x -> good y ->
  (- K <= B2R x * B2R y <= K)%R -> (K <= 1000000)%R ->
  good (fmul x y) /\
  (B2R x * B2R y - (K + 1) / 8000000 <= B2R (fmul x y)
   <= B2R x * B2R y + (K + 1) / 8000000)%R.
Proof.
  intros Gx Gy Hv HK.
  destruct (fmul_error x y Gx Gy (magnitude_ok K _ Hv HK)) as [G E].
  split; [exact G | exact (error_within K _ _ Hv E)].
Qed.

Lemma fadd_within (x y : float) (K : R) :
  good x -> good y ->
  (- K <= B2R x + B2R y <= K)%R -> (K <= 1000000)%R ->
  good (fadd x y) /\
  (B2R x + B2R y - (K + 1) / 8000000 <= B2R (fadd x y)
   <= B2R x + B2R y + (K + 1) / 8000000)%R.
Proof.
  intros Gx Gy Hv HK.
  destruct (fadd_error x y Gx Gy (magnitude_ok K _ Hv HK)) as [G E].
  split; [exact G | exact (error_within K _ _ Hv E)].
Qed.

Lemma fsub_within (x y : float) (K : R) :
  good x -> good y ->
  (- K <= B2R x - B2R y <= K)%R -> (K <= 1000000)%R ->
  good (fsub x y) /\
  (B2R x - B2R y - (K + 1) / 8000000 <= B2R (fsub x y)
   <= B2R x - B2R y + (K + 1) / 8000000)%R.
Proof.
  intros Gx Gy Hv HK.
  destruct (fsub_error x y Gx Gy (magnitude_ok K _ Hv HK)) as [G E].
  split; [exact G | exact (error_within K _ _ Hv E)].
Qed.

(** A weighted mean with a weight slightly outside [0, 1]. *)
Lemma prod_bound (a b A B : R) :
  (- A <= a <= A)%R -> (- B <= b <= B)%R -> (- (A * B) <= a * b <= A * B)%R.
Proof.
  intros Ha Hb. apply Rabs_le_elim. rewrite Rabs_mult.
  assert (Rabs a <= A)%R by (apply Rabs_le; lra).
  assert (Rabs b <= B)%R by (apply Rabs_le; lra).
  apply Rmult_le_compat; auto using Rabs_pos.
Qed.

Lemma convex_bound (L U A B T tau : R) :
  (L <= A <= U)%R -> (L <= B <= U)%R -> (- tau <= T <= 1 + tau)%R ->
  (0 <= tau)%R ->
  (L - (U - L) * tau <= A * (1 - T) + B * T <= U + (U - L) * tau)%R.
Proof.
  intros HA HB HT Ht.
  assert (H1 : (- ((U - L) * tau) <= (A - B) * Rmin 0 (Rmin T (1 - T))
                <= (U - L) * tau)%R).
  { apply prod_bound; [lra|].
    unfold Rmin. repeat destruct Rle_dec; lra. }
  assert (H2 : (0 <= (A - L) * (1 - T - Rmin 0 (Rmin T (1 - T))))%R).
  { apply Rmult_le_pos; [lra|]. unfold Rmin. repeat destruct Rle_dec; lra. }
  assert (H3 : (0 <= (B - L) * (T - Rmin 0 (Rmin T (1 - T))))%R).
  { apply Rmult_le_pos; [lra|]. unfold Rmin. repeat destruct Rle_dec; lra. }
  assert (H4 : (0 <= (U - A) * (1 - T - Rmin 0 (Rmin T (1 - T))))%R).
  { apply Rmult_le_pos; [lra|]. unfold Rmin. repeat destruct Rle_dec; lra. }
  assert (H5 : (0 <= (U - B) * (T - Rmin 0 (Rmin T (1 - T))))%R).
  { apply Rmult_le_pos; [lra|]. unfold Rmin. repeat destruct Rle_dec; lra. }
  set (m := Rmin 0 (Rmin T (1 - T))) in *.
  assert (H6 : (- ((U - L) * tau) <= (U - L) * m <= (U - L) * tau)%R).
  { apply prod_bound; [lra|]. subst m.
    unfold Rmin. repeat destruct Rle_dec; lra. }
  split; nra.
Qed.

(** The interpolation [a * (1 - t) + b * t] in floats. *)
Lemma lerp_within (a b t : float) (L U tau : R) :
  good a -> good b -> good t ->
  (L <= B2R a <= U)%R -> (L <= B2R b <= U)%R ->
  (-1 <= L)%R -> (U <= 256)%R ->
  (- tau <= B2R t <= 1 + tau)%R -> (0 <= tau <= / 1000)%R ->
  good (lerp a b t) /\
  (L - 257 * tau - / 1000 <= B2R (lerp a b t) <= U + 257 * tau + / 1000)%R.
Proof.
  intros Ga Gb Gt HA HB HL HU HT Htau. unfold lerp.
  destruct (float_of_small_int_value 1 ltac:(lia)) as [G1 V1].
  destruct (fsub_within (float_of_int 1) t 2 G1 Gt) as [Gom Vom];
    [rewrite V1; lra | lra |].
  rewrite V1 in Vom. set (om := fsub (float_of_int 1) t) in *.
  pose proof (prod_bound (B2R a) (B2R om) 256 (11 / 10)
                ltac:(lra) ltac:(lra)) as Pa.
  pose proof (prod_bound (B2R b) (B2R t) 256 (11 / 10)
                ltac:(lra) ltac:(lra)) as Pb.
  destruct (fmul_within a om 300 Ga Gom) as [Gp1 Vp1]; [lra | lra |].
  destruct (fmul_within b t 300 Gb Gt) as [Gp2 Vp2]; [lra | lra |].
  set (p1 := fmul a om) in *. set (p2 := fmul b t) in *.
  destruct (fadd_within p1 p2 700 Gp1 Gp2) as [Gs Vs]; [lra | lra |].
  split; [exact Gs|].
  pose proof (convex_bound L U (B2R a) (B2R b) (B2R t) tau HA HB HT
                ltac:(lra)) as Hc.
  pose proof (prod_bound (B2R a) (B2R om - (1 - B2R t)) 256 (3 / 8000000)
                ltac:(lra) ltac:(lra)) as Hd.
  replace (B2R a * (B2R om - (1 - B2R t)))%R
    with (B2R a * B2R om - B2R a * (1 - B2R t))%R in Hd by ring.
  assert (He : ((U - L) * tau <= 257 * tau)%R)
    by (apply Rmult_le_compat_r; lra).
  generalize dependent (B2R a * B2R om)%R.
  generalize dependent (B2R b * B2R t)%R.
  generalize dependent (B2R a * (1 - B2R t))%R.
  intros. lra.
Qed.

(** ** binary32: the error of a division *)






(** ** Truncation toward zero, in numbers *)

Lemma bpow_neg (n : Z) : 0 <= n -> bpow (- n) = (/ IZR (2 ^ n))%R.
Proof.
  intros Hn. pose proof (bpow_opp n) as H. pose proof (bpow_pos n) as P.
  rewrite <- bpow_IZR by exact Hn.
  apply Rmult_eq_reg_l with (bpow n); [|lra].
  rewrite H. field. lra.
Qed.

(** The integer part lies between zero and the number, less than one away
    from it. *)
Lemma float_trunc_spec (f : float) :
  good f ->
  exists z, float_trunc f = Some z /\
    (0 <= B2R f -> IZR z <= B2R f < IZR z + 1)%R /\
    (B2R f <= 0 -> IZR z - 1 < B2R f <= IZR z)%R.
Proof.
  intros Gf. destruct f as [s|s| |s m e]; try contradiction.
  - exists 0. cbn [float_trunc B2R]. split; [reflexivity|]. split; intros; lra.
  - cbn [float_trunc]. eexists. split; [reflexivity|].
    cbn [B2R]. rewrite !IZR_cond_Zopp.
    pose proof (bpow_pos e) as Pe.
    assert (Hm : (1 <= IZR (Zpos m))%R) by (apply IZR_le; lia).
    assert (Hpos : (0 < IZR (Zpos m) * bpow e)%R)
      by (apply Rmult_lt_0_compat; lra).
    assert (Hcore : (IZR (Z.shiftl (Zpos m) e) <= IZR (Zpos m) * bpow e
                     < IZR (Z.shiftl (Zpos m) e) + 1)%R).
    { destruct (Z.le_gt_cases 0 e) as [He|He].
      - rewrite Z.shiftl_mul_pow2 by lia.
        rewrite mult_IZR, <- bpow_IZR by lia. lra.
      - rewrite Z.shiftl_div_pow2 by lia.
        set (P := 2 ^ (- e)) in *.
        assert (HP : 0 < P) by (apply Z.pow_pos_nonneg; lia).
        assert (HPR : (0 < IZR P)%R) by (apply IZR_lt; exact HP).
        assert (Hb : bpow e = (/ IZR P)%R).
        { unfold P. rewrite <- bpow_neg by lia. f_equal. lia. }
        rewrite Hb.
        pose proof (Z.div_mod (Zpos m) P ltac:(lia)) as Hdm.
        pose proof (Z.mod_pos_bound (Zpos m) P HP) as Hr.
        set (q := Zpos m / P) in *. set (r := Zpos m mod P) in *.
        rewrite Hdm, plus_IZR, mult_IZR.
        assert (Hr0 : (0 <= IZR r)%R) by (apply IZR_le; lia).
        assert (Hr1 : (IZR r < IZR P)%R) by (apply IZR_lt; lia).
        replace ((IZR P * IZR q + IZR r) * / IZR P)%R
          with (IZR q + IZR r * / IZR P)%R by (field; lra).
        assert (0 <= IZR r * / IZR P < 1)%R.
        { split.
          - apply Rmult_le_pos; [lra|]. left. apply Rinv_0_lt_compat, HPR.
          - apply Rmult_lt_reg_r with (IZR P); [exact HPR|].
            rewrite Rmult_assoc, Rinv_l by lra. lra. }
        lra. }
    destruct s; split; intros; lra.
Qed.

(** ** The luminance in numbers *)

Lemma good_coefficients : good f0_299 /\ good f0_587 /\ good f0_114.
Proof. repeat split; reflexivity. Qed.

Lemma coefficient_values :
  B2R f0_299 = (10032775 / 33554432)%R /\
  B2R f0_587 = (9848226 / 16777216)%R /\
  B2R f0_114 = (15300821 / 134217728)%R.
Proof.
  unfold f0_299, f0_587, f0_114. cbn [B2R cond_Zopp].
  change (-25) with (- (25)). change (-24) with (- (24)).
  change (-27) with (- (27)).
  rewrite !bpow_neg by lia.
  change (2 ^ 25) with 33554432. change (2 ^ 24) with 16777216.
  change (2 ^ 27) with 134217728.
  repeat split; reflexivity.
Qed.

(** The float luminance of three bytes is a number within 1/4000 of the
    exact weighted sum. *)
Lemma luminance_within (r g b : Z) :
  is_byte r -> is_byte g -> is_byte b ->
  good (luminance r g b) /\
  (Rabs (B2R (luminance r g b)
         - (299 * IZR r + 587 * IZR g + 114 * IZR b) / 1000) <= / 4000)%R.
Proof.
  unfold is_byte. intros Hr Hg Hb.
  destruct good_coefficients as [G1 [G2 G3]].
  destruct coefficient_values as [V1 [V2 V3]].
  destruct (float_of_small_int_value r ltac:(lia)) as [Gr Vr].
  destruct (float_of_small_int_value g ltac:(lia)) as [Gg Vg].
  destruct (float_of_small_int_value b ltac:(lia)) as [Gb Vb].
  assert (Rr : (0 <= IZR r <= 255)%R) by (split; apply IZR_le; lia).
  assert (Rg : (0 <= IZR g <= 255)%R) by (split; apply IZR_le; lia).
  assert (Rb : (0 <= IZR b <= 255)%R) by (split; apply IZR_le; lia).
  unfold luminance.
  destruct (fmul_within f0_299 (float_of_int r) 300 G1 Gr) as [Gp1 Vp1];
    [rewrite V1, Vr; lra | lra |].
  destruct (fmul_within f0_587 (float_of_int g) 300 G2 Gg) as [Gp2 Vp2];
    [rewrite V2, Vg; lra | lra |].
  destruct (fmul_within f0_114 (float_of_int b) 300 G3 Gb) as [Gp3 Vp3];
    [rewrite V3, Vb; lra | lra |].
  rewrite V1, Vr in Vp1. rewrite V2, Vg in Vp2. rewrite V3, Vb in Vp3.
  set (p1 := fmul f0_299 (float_of_int r)) in *.
  set (p2 := fmul f0_587 (float_of_int g)) in *.
  set (p3 := fmul f0_114 (float_of_int b)) in *.
  destruct (fadd_within p1 p2 300 Gp1 Gp2) as [Gs1 Vs1]; [lra | lra |].
  set (s1 := fadd p1 p2) in *.
  destruct (fadd_within s1 p3 300 Gs1 Gp3) as [Gs2 Vs2]; [lra | lra |].
  split; [exact Gs2|]. apply Rabs_le. lra.
Qed.

(** The byte stored for three source bytes. *)
Lemma luminance_byte (r g b : Z) :
  is_byte r -> is_byte g -> is_byte b ->
  exists z,
    float_trunc (luminance r g b) = Some z /\ 0 <= z <= 255 /\
    uint8_of_float (luminance r g b) = z /\
    (IZR z <= Rmax 0 (B2R (luminance r g b)) < IZR z + 1)%R.
Proof.
  intros Hr Hg Hb. destruct (luminance_within r g b Hr Hg Hb) as [G E].
  apply Rabs_le_elim in E.
  assert (Rr : (0 <= IZR r <= 255)%R)
    by (unfold is_byte in Hr; split; apply IZR_le; lia).
  assert (Rg : (0 <= IZR g <= 255)%R)
    by (unfold is_byte in Hg; split; apply IZR_le; lia).
  assert (Rb : (0 <= IZR b <= 255)%R)
    by (unfold is_byte in Hb; split; apply IZR_le; lia).
  destruct (float_trunc_byte _ G ltac:(lra)) as [z [T B]].
  destruct (float_trunc_spec _ G) as [z' [T' [Sp Sn]]].
  assert (z' = z) by congruence. subst z'.
  exists z. split; [exact T|]. split; [exact B|]. split.
  - unfold uint8_of_float, int_of_float. rewrite T.
    destruct (Z.leb_spec INT_MIN z); [|unfold INT_MIN in *; lia].
    destruct (Z.leb_spec z INT_MAX); [|unfold INT_MAX in *; lia].
    cbn [andb]. apply to_uint8_small. lia.
  - unfold Rmax. destruct Rle_dec as [L|L].
    + apply Sp, L.
    + assert (Hneg : (B2R (luminance r g b) <= 0)%R) by lra.
      specialize (Sn Hneg).
      assert (Hz : (IZR z < 1)%R) by lra.
      apply lt_IZR in Hz. assert (z = 0) by lia. subst z. lra.
Qed.

(** ** One bilinear sample *)

(** The neighbour coordinate [min (x1 + 1) (n - 1)] of a coordinate inside
    [0, n - 1]. *)
Lemma neighbour_clamped (x1 n : Z) :
  0 <= x1 <= n - 1 -> n <= INT_MAX ->
  let x2 := Z.min (int_add x1 1) (int_sub n 1) in
  x1 <= x2 /\ x2 <= n - 1 /\ x2 <= x1 + 1.
Proof.
  unfold INT_MAX. intros Hx Hn. cbv zeta.
  rewrite int_add_small, int_sub_small
    by (unfold in_int, INT_MIN, INT_MAX; lia).
  lia.
Qed.

(** The fraction [x - floor x], computed in floats. *)
Lemma fraction_within (x : float) (x1 : Z) :
  good x -> good (float_of_int x1) -> B2R (float_of_int x1) = IZR x1 ->
  (IZR x1 <= B2R x < IZR x1 + 1)%R ->
  good (fsub x (float_of_int x1)) /\
  (- (2 / 8000000) <= B2R (fsub x (float_of_int x1)) <= 1 + 2 / 8000000)%R.
Proof.
  intros Gx G1 V1 Hx.
  destruct (fsub_within x (float_of_int x1) 1 Gx G1) as [G V];
    [rewrite V1; lra | lra |].
  rewrite V1 in V. split; [exact G | lra].
Qed.

(** The record changes nothing: without it, the logged functions are
    [getPixel] and [bilinearValue]. *)
Lemma getPixel_logged_value (d : list Z) (w h c px py ch : Z) :
  getPixel d w h c px py ch
  = let! r := getPixel_logged d w h c px py ch in Returned (fst r).
Proof.
  unfold getPixel, getPixel_logged.
  destruct ((px <? 0) || (w <=? px) || (py <? 0) || (h <=? py));
    [reflexivity|].
  cbv zeta. now destruct (vec_get d _).
Qed.

Lemma bilinearValue_logged_value (d : list Z) (w h c : Z) (x y : float)
  (ch : Z) :
  bilinearValue d w h c x y ch
  = let! r := bilinearValue_logged d w h c x y ch in Returned (fst r).
Proof.
  unfold bilinearValue, bilinearValue_logged. cbv zeta.
  rewrite !getPixel_logged_value.
  repeat match goal with
         | |- context [getPixel_logged ?d ?w ?h ?c ?px ?py ?ch] =>
             destruct (getPixel_logged d w h c px py ch) as [?r| |];
             cbn [bind]; try reflexivity
         end.
Qed.

Section Corners.
Variable input : ImageData.
Hypothesis Hvalid : valid_buffer input.
Hypothesis Hfit : fits_int input.
Variables x y : float.
Hypothesis Gx : good x.
Hypothesis Gy : good y.
Hypothesis Hx : float_in_range x (width input - 1) = true.
Hypothesis Hy : float_in_range y (height input - 1) = true.
Variable ch : Z.
Hypothesis Hch : 0 <= ch < channels input.

Local Abbreviation d := (data input).
Local Abbreviation w := (width input).
Local Abbreviation h := (height input).
Local Abbreviation c := (channels input).
Local Abbreviation x1 := (int_of_float (ffloor x)).
Local Abbreviation y1 := (int_of_float (ffloor y)).
Local Abbreviation x2 := (Z.min (int_add x1 1) (int_sub w 1)).
Local Abbreviation y2 := (Z.min (int_add y1 1) (int_sub h 1)).

Lemma dimensions_fit : w <= INT_MAX /\ h <= INT_MAX.
Proof.
  destruct Hvalid as [Hw [Hh [Hc _]]]. unfold fits_int in Hfit.
  assert (w * 1 <= w * h) by (apply Z.mul_le_mono_nonneg_l; lia).
  assert (h * 1 <= h * w) by (apply Z.mul_le_mono_nonneg_l; lia).
  assert (w * h * 1 <= w * h * c) by (apply Z.mul_le_mono_nonneg_l; nia).
  lia.
Qed.

Lemma corner_columns : 0 <= x1 <= x2 /\ x2 <= w - 1 /\ x2 <= x1 + 1.
Proof.
  destruct dimensions_fit as [Fw _].
  destruct (floor_spec x (w - 1) Gx Hx ltac:(lia)) as [B _].
  destruct (neighbour_clamped x1 w B Fw) as [A1 [A2 A3]]. lia.
Qed.

Lemma corner_rows : 0 <= y1 <= y2 /\ y2 <= h - 1 /\ y2 <= y1 + 1.
Proof.
  destruct dimensions_fit as [_ Fh].
  destruct (floor_spec y (h - 1) Gy Hy ltac:(lia)) as [B _].
  destruct (neighbour_clamped y1 h B Fh) as [A1 [A2 A3]]. lia.
Qed.

(** A read at one of the four corners. *)
Lemma corner_read (px py : Z) :
  px = x1 \/ px = x2 -> py = y1 \/ py = y2 ->
  let idx := int_add (int_mul (int_add (int_mul py w) px) c) ch in
  (px <? 0) || (w <=? px) || (py <? 0) || (h <=? py) = false /\
  idx = (py * w + px) * c + ch /\ 0 <= idx < vec_size d /\
  getPixel d w h c px py ch = Returned (byte_at d idx) /\
  is_byte (byte_at d idx).
Proof.
  intros Px Py. cbv zeta.
  destruct Hvalid as [Hw [Hh [Hc [Hs Hb]]]].
  pose proof corner_columns as Cx. pose proof corner_rows as Cy.
  assert (Bx : 0 <= px < w) by (destruct Px; subst px; lia).
  assert (By : 0 <= py < h) by (destruct Py; subst py; lia).
  destruct (flat_index_bound w h c px py ch Bx By Hch) as [B1 [B2 [B3 B4]]].
  rewrite (flat_index_int w h c px py ch Bx By Hch Hfit).
  split.
  { destruct (Z.ltb_spec px 0); [lia|]. destruct (Z.leb_spec w px); [lia|].
    destruct (Z.ltb_spec py 0); [lia|]. destruct (Z.leb_spec h py); [lia|].
    reflexivity. }
  split; [reflexivity|]. unfold well_sized in Hs.
  split; [lia|].
  split; [apply (getPixel_inside input); try assumption; lia|].
  apply byte_at_range, Hb.
Qed.

(** The value before the cast: within 3/1000 of the range of the four
    corner bytes. *)
Lemma bilinearValue_within (lo hi : Z) :
  0 <= lo -> hi <= 255 ->
  (forall px py, px = x1 \/ px = x2 -> py = y1 \/ py = y2 ->
     lo <= byte_at d ((py * w + px) * c + ch) <= hi) ->
  exists v,
    bilinearValue d w h c x y ch = Returned v /\ good v /\
    (IZR lo - 3 / 1000 <= B2R v <= IZR hi + 3 / 1000)%R.
Proof.
  intros Hlo Hhi Hrange.
  destruct dimensions_fit as [Fw Fh].
  destruct (floor_spec x (w - 1) Gx Hx ltac:(lia)) as [_ [Fx [G1x V1x]]].
  destruct (floor_spec y (h - 1) Gy Hy ltac:(lia)) as [_ [Fy [G1y V1y]]].
  destruct (fraction_within x x1 Gx G1x V1x Fx) as [Gdx Vdx].
  destruct (fraction_within y y1 Gy G1y V1y Fy) as [Gdy Vdy].
  unfold bilinearValue.
  set (dx := fsub x (float_of_int x1)) in *.
  set (dy := fsub y (float_of_int y1)) in *.
  assert (Hcorner : forall px py, px = x1 \/ px = x2 -> py = y1 \/ py = y2 ->
    exists p, getPixel d w h c px py ch = Returned p /\
              good (float_of_int p) /\
              (IZR lo <= B2R (float_of_int p) <= IZR hi)%R).
  { intros px py Px Py.
    destruct (corner_read px py Px Py) as [_ [Ei [_ [Eg Bp]]]].
    rewrite Ei in Eg, Bp. eexists. split; [exact Eg|].
    destruct (float_of_small_int_value _ (byte_small _ Bp)) as [G V].
    split; [exact G|]. rewrite V.
    specialize (Hrange px py Px Py). split; apply IZR_le; lia. }
  destruct (Hcorner x1 y1 (or_introl eq_refl) (or_introl eq_refl))
    as [p11 [E11 [G11 V11]]].
  destruct (Hcorner x2 y1 (or_intror eq_refl) (or_introl eq_refl))
    as [p21 [E21 [G21 V21]]].
  destruct (Hcorner x1 y2 (or_introl eq_refl) (or_intror eq_refl))
    as [p12 [E12 [G12 V12]]].
  destruct (Hcorner x2 y2 (or_intror eq_refl) (or_intror eq_refl))
    as [p22 [E22 [G22 V22]]].
  rewrite E11. cbn [bind]. rewrite E21. cbn [bind].
  rewrite E12. cbn [bind]. rewrite E22. cbn [bind].
  assert (RL : (0 <= IZR lo)%R) by (apply IZR_le; lia).
  assert (RH : (IZR hi <= 255)%R) by (apply IZR_le; lia).
  destruct (lerp_within (float_of_int p11) (float_of_int p21) dx
              (IZR lo) (IZR hi) (2 / 8000000) G11 G21 Gdx V11 V21)
    as [Gt Vt]; try lra.
  destruct (lerp_within (float_of_int p12) (float_of_int p22) dx
              (IZR lo) (IZR hi) (2 / 8000000) G12 G22 Gdx V12 V22)
    as [Gb Vb]; try lra.
  set (top := lerp (float_of_int p11) (float_of_int p21) dx) in *.
  set (bottom := lerp (float_of_int p12) (float_of_int p22) dx) in *.
  destruct (lerp_within top bottom dy
              (IZR lo - 257 * (2 / 8000000) - / 1000)
              (IZR hi + 257 * (2 / 8000000) + / 1000)
              (2 / 8000000) Gt Gb Gdy Vt Vb) as [Gv Vv]; try lra.
  eexists. split; [reflexivity|]. split; [exact Gv | lra].
Qed.

(** The four calls of [getPixel]: each loads the byte of a corner. *)
Lemma corner_logged (px py : Z) :
  px = x1 \/ px = x2 -> py = y1 \/ py = y2 ->
  getPixel_logged d w h c px py ch
  = Returned (byte_at d ((py * w + px) * c + ch),
              Loaded px py ((py * w + px) * c + ch)).
Proof.
  intros Px Py. destruct (corner_read px py Px Py) as [G [I [B _]]].
  unfold getPixel_logged. rewrite G. cbv zeta. rewrite I.
  rewrite I in B. now rewrite vec_get_byte_at by exact B.
Qed.

Lemma bilinearValue_logged_corners (v : float) :
  bilinearValue d w h c x y ch = Returned v ->
  bilinearValue_logged d w h c x y ch
  = Returned (v, [Loaded x1 y1 ((y1 * w + x1) * c + ch);
                  Loaded x2 y1 ((y1 * w + x2) * c + ch);
                  Loaded x1 y2 ((y2 * w + x1) * c + ch);
                  Loaded x2 y2 ((y2 * w + x2) * c + ch)]).
Proof.
  intros E. rewrite bilinearValue_logged_value in E.
  unfold bilinearValue_logged in *. cbv zeta in *.
  rewrite (corner_logged x1 y1 (or_introl eq_refl) (or_introl eq_refl)) in *.
  rewrite (corner_logged x2 y1 (or_intror eq_refl) (or_introl eq_refl)) in *.
  rewrite (corner_logged x1 y2 (or_introl eq_refl) (or_intror eq_refl)) in *.
  rewrite (corner_logged x2 y2 (or_intror eq_refl) (or_intror eq_refl)) in *.
  cbn [bind fst snd] in *. congruence.
Qed.

End Corners.

(** ** Relative errors *)










(** ** The dimension computation in numbers *)






Section Dimensions.

Variables srcW srcH maxW maxH : Z.
Hypothesis HsrcW : 1 <= srcW <= 2147000000.
Hypothesis HsrcH : 1 <= srcH <= 2147000000.
Hypothesis HmaxW : 1 <= maxW <= 2147000000.
Hypothesis HmaxH : 1 <= maxH <= 2147000000.

Local Abbreviation aspectRatio :=
  (fdiv (float_of_int srcW) (float_of_int srcH)).










End Dimensions.

(** ** One worker, every reply in time *)

Lemma update_app_last {A : Type} (l : list A) (a : A) (f : A -> A) :
  update (l ++ [a]) (length l) f = l ++ [f a].
Proof. induction l as [|b l IH]; cbn; [reflexivity | now rewrite IH]. Qed.

Lemma nth_error_app_last {A : Type} (l : list A) (a : A) :
  nth_error (l ++ [a]) (length l) = Some a.
Proof. induction l as [|b l IH]; cbn; auto. Qed.

Lemma busy_message (cs : list call) (f : string) (queue processed : list string)
  (active completed total : Z) (r : reply) :
  handle (busy cs f queue processed active completed total) (Message 0 r)
  = match queue with
    | [] =>
        mkProcessor [] (pushed processed r) (active - 1) (completed + 1) total
          (cs ++ [mkCall 0 f (settled_by r) false]) [[]] [None]
    | f' :: rest =>
        if String.eqb f' EmptyString
        then mkProcessor rest (pushed processed r) (active - 1) (completed + 1)
               total (cs ++ [mkCall 0 f (settled_by r) false]) [[]] [None]
        else busy (cs ++ [mkCall 0 f (settled_by r) false]) f' rest
               (pushed processed r) (active - 1 + 1) (completed + 1) total
    end.
Proof.
  unfold busy, handle. cbn [listeners nth fold_left].
  unfold messageHandler, unregister, settle, pushed, settled_by.
  destruct (r_success r);
    cbn [pendingQueue processedImages activeJobs completedJobs totalJobs calls
         listeners awaiting update remove_one];
    rewrite Nat.eqb_refl, !update_app_last;
    cbn [c_promise c_worker c_imageFile c_timer];
    unfold resume; cbn [awaiting length seq fold_left];
    unfold resume_worker; cbn [awaiting nth_error];
    unfold is_settled; cbn [calls]; rewrite nth_error_app_last;
    cbn [c_promise];
    unfold processWorkerQueue; cbn [pendingQueue];
    (destruct queue as [|f' rest]; [reflexivity|]);
    (destruct (String.eqb f' EmptyString); reflexivity).
Qed.

Lemma pushed_all (processed : list string) (r : reply) (rs : list reply) :
  pushed processed r ++ map r_outputPath (filter r_success rs)
  = processed ++ map r_outputPath (filter r_success (r :: rs)).
Proof.
  unfold pushed. cbn [filter]. destruct (r_success r); cbn [map].
  - now rewrite <- app_assoc.
  - reflexivity.
Qed.

Lemma busy_run (queue : list string) :
  Forall (fun f => f <> EmptyString) queue ->
  forall (replies : list reply) (cs : list call) (f : string)
         (processed : list string) (active completed total : Z),
  length replies = S (length queue) ->
  returned (fold_left handle (map (Message 0) replies)
              (busy cs f queue processed active completed total))
  = Some (processed ++ map r_outputPath (filter r_success replies)).
Proof.
  induction 1 as [|f' rest Hf' Hrest IH];
    intros [|r replies] cs f processed active completed total Hlen;
    try discriminate; cbn [map fold_left]; rewrite busy_message.
  - destruct replies; [|discriminate]. cbn [map fold_left].
    unfold returned. cbn [awaiting forallb processedImages andb].
    rewrite <- (pushed_all processed r []). cbn [filter map].
    now rewrite app_nil_r.
  - apply String.eqb_neq in Hf'. rewrite Hf'.
    rewrite IH by (cbn [length] in Hlen; lia).
    now rewrite pushed_all.
Qed.

(** With one worker, files whose names are not empty and one reply per
    file, each arriving before the next file is dispatched,
    [processImageQueue] returns the output paths of the replies that
    reported success, in order. *)
Lemma single_worker_run (imageFiles : list string) (replies : list reply) :
  Forall (fun f => f <> EmptyString) imageFiles ->
  length replies = length imageFiles ->
  returned (run 1 imageFiles (map (Message 0) replies))
  = Some (map r_outputPath (filter r_success replies)).
Proof.
  intros Hne Hlen. unfold run, processImageQueue.
  cbn [seq fold_left repeat]. unfold processWorkerQueue.
  cbn [pendingQueue].
  destruct imageFiles as [|f queue].
  - destruct replies; [reflexivity | discriminate].
  - inversion Hne as [|? ? Hf Hq]; subst.
    apply String.eqb_neq in Hf. rewrite Hf.
    change (processImageWithWorker 0 f _)
      with (busy [] f queue [] (0 + 1) 0 (Z.of_nat (length (f :: queue)))).
    now rewrite (busy_run queue Hq).
Qed.

(** ** The distributor: counters *)

Lemma settle_more_fields (id : nat) (p : promise) (st : processor) :
  activeJobs (settle id p st) = activeJobs st /\
  totalJobs (settle id p st) = totalJobs st.
Proof. split; reflexivity. Qed.

Lemma balanced_settle (n id : nat) (p : promise) (st : processor) :
  balanced n st -> balanced n (settle id p st).
Proof. intros H. exact H. Qed.

Lemma messageHandler_balanced (n w id : nat) (rest : list nat) (r : reply)
  (st : processor) :
  nth w (listeners st) [] = id :: rest ->
  balanced n st ->
  nth w (listeners (messageHandler w id r st)) [] = rest /\
  balanced n (messageHandler w id r st).
Proof.
  intros Hl [B1 [B2 B3]].
  pose proof (nth_nonempty_inside _ _ _ _ Hl) as Hw.
  pose proof (list_sum_update (listeners st) w (remove_one id) Hw) as Hsum.
  rewrite Hl, remove_one_head in Hsum. cbn [length] in Hsum.
  unfold registered in B2.
  unfold messageHandler.
  destruct (r_success r); unfold balanced, registered, settle, unregister;
    cbn [totalJobs activeJobs listeners awaiting];
    rewrite length_update, nth_update_eq, Hl, remove_one_head by exact Hw;
    repeat split; auto; lia.
Qed.

Lemma errorHandler_balanced (n w id : nat) (rest : list nat) (m : string)
  (st : processor) :
  nth w (listeners st) [] = id :: rest ->
  balanced n st ->
  nth w (listeners (errorHandler w id m st)) [] = rest /\
  balanced n (errorHandler w id m st).
Proof.
  intros Hl [B1 [B2 B3]].
  pose proof (nth_nonempty_inside _ _ _ _ Hl) as Hw.
  pose proof (list_sum_update (listeners st) w (remove_one id) Hw) as Hsum.
  rewrite Hl, remove_one_head in Hsum. cbn [length] in Hsum.
  unfold registered in B2.
  unfold errorHandler, balanced, registered, settle, unregister.
  cbn [totalJobs activeJobs listeners awaiting].
  rewrite length_update, nth_update_eq, Hl, remove_one_head by exact Hw.
  repeat split; auto; lia.
Qed.

Lemma fold_messageHandler_balanced (n w : nat) (r : reply) :
  forall (l : list nat) (st : processor),
  nth w (listeners st) [] = l -> balanced n st ->
  balanced n (fold_left (fun st id => messageHandler w id r st) l st).
Proof.
  induction l as [|id rest IH]; intros st Hl Hb; cbn [fold_left].
  - exact Hb.
  - destruct (messageHandler_balanced n w id rest r st Hl Hb) as [Hl' Hb'].
    now apply IH.
Qed.

Lemma fold_errorHandler_balanced (n w : nat) (m : string) :
  forall (l : list nat) (st : processor),
  nth w (listeners st) [] = l -> balanced n st ->
  balanced n (fold_left (fun st id => errorHandler w id m st) l st).
Proof.
  induction l as [|id rest IH]; intros st Hl Hb; cbn [fold_left].
  - exact Hb.
  - destruct (errorHandler_balanced n w id rest m st Hl Hb) as [Hl' Hb'].
    now apply IH.
Qed.

Lemma timeoutCallback_balanced (n id : nat) (st : processor) :
  balanced n st -> balanced n (timeoutCallback id st).
Proof.
  intros Hb. unfold timeoutCallback.
  destruct (nth_error (calls st) id); exact Hb.
Qed.

Lemma processWorkerQueue_balanced (n w : nat) (st : processor) :
  (w < length (listeners st))%nat ->
  balanced n st -> balanced n (processWorkerQueue w st).
Proof.
  intros Hw [B1 [B2 B3]]. unfold processWorkerQueue.
  assert (He : forall s, totalJobs s = totalJobs st ->
             activeJobs s = activeJobs st -> listeners s = listeners st ->
             awaiting s = awaiting st -> balanced n (end_loop w s)).
  { intros s E1 E2 E3 E4. unfold balanced, registered, end_loop.
    cbn [totalJobs activeJobs listeners awaiting].
    rewrite length_update, E1, E2, E3, E4. auto. }
  destruct (pendingQueue st) as [|f rest]; [now apply He|].
  destruct (String.eqb f EmptyString); [now apply He|].
  unfold balanced, registered, processImageWithWorker.
  cbn [totalJobs activeJobs listeners awaiting calls].
  rewrite !length_update.
  pose proof (list_sum_update (listeners st) w
                (fun l => l ++ [length (calls st)]) Hw) as Hsum.
  cbv beta in Hsum. rewrite length_app in Hsum. cbn [length] in Hsum.
  unfold registered in B2. repeat split; auto; lia.
Qed.

Lemma resume_worker_balanced (n : nat) (st : processor) (w : nat) :
  balanced n st -> balanced n (resume_worker st w).
Proof.
  intros Hb. unfold resume_worker.
  destruct (nth_error (awaiting st) w) as [[id|]|] eqn:E; auto.
  destruct (is_settled st id); auto.
  apply processWorkerQueue_balanced; [|exact Hb].
  destruct Hb as [_ [_ B3]]. rewrite B3.
  apply nth_error_Some. congruence.
Qed.

Lemma resume_balanced (n : nat) (st : processor) :
  balanced n st -> balanced n (resume st).
Proof.
  unfold resume. generalize (seq 0 (length (awaiting st))). intros ws.
  revert st. induction ws as [|w ws IH]; intros st Hb; cbn [fold_left].
  - exact Hb.
  - apply IH. now apply resume_worker_balanced.
Qed.

Lemma handle_balanced (n : nat) (e : event) (st : processor) :
  balanced n st -> balanced n (handle st e).
Proof.
  intros Hb. destruct e as [w r|w m|id]; cbn [handle].
  - apply resume_balanced. now apply fold_messageHandler_balanced.
  - apply resume_balanced. now apply fold_errorHandler_balanced.
  - destruct (nth_error (calls st) id) as [c|]; [|exact Hb].
    destruct (c_timer c); [|exact Hb].
    apply resume_balanced. now apply timeoutCallback_balanced.
Qed.

Lemma processImageQueue_balanced (workerCount : nat)
  (imageFiles : list string) :
  balanced (length imageFiles) (processImageQueue workerCount imageFiles).
Proof.
  unfold processImageQueue.
  assert (H : forall ws st,
            Forall (fun w => (w < length (listeners st))%nat) ws ->
            balanced (length imageFiles) st ->
            balanced (length imageFiles)
              (fold_left (fun st w => processWorkerQueue w st) ws st)).
  { induction ws as [|w ws IH]; intros st Hws Hb; cbn [fold_left].
    - exact Hb.
    - inversion Hws as [|? ? Hw Hrest]; subst.
      pose proof (processWorkerQueue_balanced _ w st Hw Hb) as Hb'.
      apply IH; [|exact Hb'].
      destruct Hb as [_ [_ B3]], Hb' as [_ [_ B3']].
      assert (L : length (awaiting (processWorkerQueue w st))
                  = length (awaiting st)).
      { unfold processWorkerQueue.
        destruct (pendingQueue st) as [|f rest];
          [|destruct (String.eqb f EmptyString)];
          cbn [end_loop processImageWithWorker awaiting];
          apply length_update. }
      rewrite B3', L, <- B3. exact Hrest. }
  apply H.
  - cbn [listeners]. rewrite repeat_length. apply Forall_forall.
    intros w Hw. apply in_seq in Hw. lia.
  - unfold balanced, registered. cbn [totalJobs activeJobs listeners awaiting].
    rewrite list_sum_repeat_nil, !repeat_length. auto.
Qed.

Lemma run_balanced (workerCount : nat) (imageFiles : list string)
  (events : list event) :
  balanced (length imageFiles) (run workerCount imageFiles events).
Proof.
  unfold run. induction events as [|e events IH] using rev_ind.
  - apply processImageQueue_balanced.
  - rewrite fold_left_app. cbn [fold_left]. now apply handle_balanced.
Qed.

(** ** The queue *)

Lemma map_update_same {A B : Type} (g : A -> B) (f : A -> A) (l : list A)
  (n : nat) :
  (forall a, g (f a) = g a) -> map g (update l n f) = map g l.
Proof.
  intros H. revert n. induction l as [|a l IH]; intros [|n]; cbn;
    rewrite ?H, ?IH; reflexivity.
Qed.

Lemma dispatched_settle (id : nat) (p : promise) (st : processor) :
  dispatched (settle id p st) = dispatched st.
Proof.
  unfold dispatched, settle. cbn [calls]. apply map_update_same.
  intros c. destruct (c_promise c); reflexivity.
Qed.

Lemma dispatched_unregister (w id : nat) (st : processor) :
  dispatched (unregister w id st) = dispatched st.
Proof.
  unfold dispatched, unregister. cbn [calls]. now apply map_update_same.
Qed.

Lemma messageHandler_queue (w id : nat) (r : reply) (st : processor) :
  dispatched (messageHandler w id r st) = dispatched st /\
  pendingQueue (messageHandler w id r st) = pendingQueue st.
Proof.
  unfold messageHandler.
  destruct (r_success r); rewrite dispatched_settle; split; try reflexivity;
    apply (dispatched_unregister w id st).
Qed.

Lemma errorHandler_queue (w id : nat) (m : string) (st : processor) :
  dispatched (errorHandler w id m st) = dispatched st /\
  pendingQueue (errorHandler w id m st) = pendingQueue st.
Proof.
  unfold errorHandler. rewrite dispatched_settle. split; [|reflexivity].
  apply (dispatched_unregister w id st).
Qed.

Lemma timeoutCallback_queue (id : nat) (st : processor) :
  dispatched (timeoutCallback id st) = dispatched st /\
  pendingQueue (timeoutCallback id st) = pendingQueue st.
Proof.
  unfold timeoutCallback. destruct (nth_error (calls st) id); [|auto].
  rewrite dispatched_settle. split; [|reflexivity].
  unfold dispatched. cbn [calls]. now apply map_update_same.
Qed.

Lemma fold_handlers_queue (h : nat -> processor -> processor) :
  (forall id st, dispatched (h id st) = dispatched st /\
                 pendingQueue (h id st) = pendingQueue st) ->
  forall (l : list nat) (st : processor),
  dispatched (fold_left (fun st id => h id st) l st) = dispatched st /\
  pendingQueue (fold_left (fun st id => h id st) l st) = pendingQueue st.
Proof.
  intros H. induction l as [|id l IH]; intros st; cbn [fold_left]; [auto|].
  destruct (IH (h id st)) as [-> ->]. apply H.
Qed.

(** A turn of a worker's loop moves the head of the queue to the calls,
    as long as no name in the queue is empty. *)
Lemma processWorkerQueue_queue (w : nat) (st : processor) :
  Forall (fun f => f <> EmptyString) (pendingQueue st) ->
  dispatched (processWorkerQueue w st) ++ pendingQueue (processWorkerQueue w st)
  = dispatched st ++ pendingQueue st /\
  Forall (fun f => f <> EmptyString) (pendingQueue (processWorkerQueue w st)).
Proof.
  intros Hq. unfold processWorkerQueue.
  destruct (pendingQueue st) as [|f rest] eqn:Eq.
  - unfold end_loop, dispatched. cbn [calls pendingQueue]. rewrite Eq. auto.
  - inversion Hq as [|? ? Hf Hrest]; subst.
    destruct (String.eqb_spec f EmptyString) as [->|_]; [contradiction|].
    unfold processImageWithWorker, dispatched. cbn [calls pendingQueue].
    rewrite map_app, <- app_assoc. auto.
Qed.

Lemma processWorkerQueue_conserved (files : list string) (w : nat)
  (st : processor) :
  conserved files st -> conserved files (processWorkerQueue w st).
Proof.
  intros [C1 C2]. destruct (processWorkerQueue_queue w st C2) as [E F].
  split; [congruence | exact F].
Qed.

Lemma resume_conserved (files : list string) (st : processor) :
  conserved files st -> conserved files (resume st).
Proof.
  unfold resume. generalize (seq 0 (length (awaiting st))). intros ws.
  revert st. induction ws as [|w ws IH]; intros st Hc; cbn [fold_left].
  - exact Hc.
  - apply IH. unfold resume_worker.
    destruct (nth_error (awaiting st) w) as [[id|]|]; auto.
    destruct (is_settled st id); auto.
    now apply processWorkerQueue_conserved.
Qed.

Lemma handle_conserved (files : list string) (e : event) (st : processor) :
  conserved files st -> conserved files (handle st e).
Proof.
  intros [C1 C2]. destruct e as [w r|w m|id]; cbn [handle].
  - apply resume_conserved.
    destruct (fold_handlers_queue (fun id st => messageHandler w id r st)
                (fun id st => messageHandler_queue w id r st)
                (nth w (listeners st) []) st) as [E1 E2].
    unfold conserved. now rewrite E1, E2.
  - apply resume_conserved.
    destruct (fold_handlers_queue (fun id st => errorHandler w id m st)
                (fun id st => errorHandler_queue w id m st)
                (nth w (listeners st) []) st) as [E1 E2].
    unfold conserved. now rewrite E1, E2.
  - destruct (nth_error (calls st) id) as [c|]; [|split; assumption].
    destruct (c_timer c); [|split; assumption].
    apply resume_conserved.
    destruct (timeoutCallback_queue id st) as [E1 E2].
    unfold conserved. now rewrite E1, E2.
Qed.

Lemma run_conserved (workerCount : nat) (imageFiles : list string)
  (events : list event) :
  Forall (fun f => f <> EmptyString) imageFiles ->
  conserved imageFiles (run workerCount imageFiles events).
Proof.
  intros Hf. unfold run. induction events as [|e events IH] using rev_ind.
  - cbn [fold_left]. unfold processImageQueue.
    match goal with |- context [fold_left _ _ ?s] =>
      assert (H0 : conserved imageFiles s) by (split; [reflexivity | exact Hf]);
      revert H0; generalize s end.
    generalize (seq 0 workerCount). intros ws.
    induction ws as [|w ws IH]; intros st Hc; cbn [fold_left]; [exact Hc|].
    apply IH. now apply processWorkerQueue_conserved.
  - rewrite fold_left_app. cbn [fold_left]. now apply handle_conserved.
Qed.

(** ** Nothing to do *)

Lemma nth_all_nil (ls : list (list nat)) (w : nat) :
  Forall (fun l => l = []) ls -> nth w ls [] = [].
Proof.
  intros H. destruct (nth_in_or_default w ls []) as [I|E]; [|exact E].
  rewrite Forall_forall in H. now apply H.
Qed.

Lemma resume_idle (st : processor) :
  Forall (fun a => a = None) (awaiting st) -> resume st = st.
Proof.
  intros H. unfold resume.
  generalize (seq 0 (length (awaiting st))). intros ws.
  induction ws as [|w ws IH]; cbn [fold_left]; [reflexivity|].
  assert (E : resume_worker st w = st).
  { unfold resume_worker.
    destruct (nth_error (awaiting st) w) as [[id|]|] eqn:E; try reflexivity.
    apply nth_error_In in E. rewrite Forall_forall in H.
    specialize (H _ E). discriminate. }
  now rewrite E.
Qed.

Lemma handle_idle (st : processor) (e : event) : idle st -> handle st e = st.
Proof.
  intros [Hc [Hl Ha]]. destruct e as [w r|w m|id]; cbn [handle].
  - rewrite (nth_all_nil _ w Hl). cbn [fold_left]. now apply resume_idle.
  - rewrite (nth_all_nil _ w Hl). cbn [fold_left]. now apply resume_idle.
  - rewrite Hc. now destruct id.
Qed.

Lemma run_idle (st : processor) (events : list event) :
  idle st -> fold_left handle events st = st.
Proof.
  intros Hi. induction events as [|e events IH]; cbn [fold_left]; [reflexivity|].
  now rewrite (handle_idle st e Hi).
Qed.

Lemma returned_idle (st : processor) :
  idle st -> returned st = Some (processedImages st).
Proof.
  intros [_ [_ Ha]]. unfold returned.
  replace (forallb _ (awaiting st)) with true; [reflexivity|].
  symmetry. apply forallb_forall. intros a Hin.
  rewrite Forall_forall in Ha. now rewrite (Ha a Hin).
Qed.

Lemma update_none_idle (l : list (option nat)) (w : nat) :
  Forall (fun a => a = None) l ->
  Forall (fun a => a = None) (update l w (fun _ => None)).
Proof.
  intros H. revert w. induction H as [|a l Ha Hl IH]; intros [|w]; cbn;
    constructor; auto.
Qed.

Lemma end_loop_idle (w : nat) (st : processor) :
  idle st -> idle (end_loop w st).
Proof.
  intros [Hc [Hl Ha]]. unfold idle, end_loop. cbn [calls listeners awaiting].
  repeat split; auto. now apply update_none_idle.
Qed.

Lemma start_on_empty_queue (ws : list nat) (st : processor) :
  idle st -> pendingQueue st = [] ->
  idle (fold_left (fun st w => processWorkerQueue w st) ws st) /\
  processedImages (fold_left (fun st w => processWorkerQueue w st) ws st)
  = processedImages st.
Proof.
  revert st. induction ws as [|w ws IH]; intros st Hi Hq; cbn [fold_left].
  - auto.
  - assert (E : processWorkerQueue w st = end_loop w st)
      by (unfold processWorkerQueue; now rewrite Hq).
    rewrite E. destruct (IH (end_loop w st)) as [I P].
    + now apply end_loop_idle.
    + exact Hq.
    + auto.
Qed.

(** ** The start *)

Lemma update_app_r {A : Type} (l1 l2 : list A) (i : nat) (f : A -> A) :
  update (l1 ++ l2) (length l1 + i) f = l1 ++ update l2 i f.
Proof. induction l1 as [|a l1 IH]; cbn; [reflexivity | now rewrite IH]. Qed.

Lemma update_repeat_same {A : Type} (x : A) (m i : nat) :
  update (repeat x m) i (fun _ => x) = repeat x m.
Proof.
  revert i. induction m as [|m IH]; intros [|i]; cbn; try reflexivity.
  now rewrite IH.
Qed.

Lemma skipn_nth_cons (files : list string) (j : nat) :
  (j < length files)%nat ->
  skipn j files = nth j files EmptyString :: skipn (S j) files.
Proof.
  revert j. induction files as [|f files IH]; intros [|j] H; cbn in *;
    try lia; [reflexivity|].
  apply IH. lia.
Qed.

(** The processor after the loops of the first [j] workers have been
    started. *)
Lemma start_stage (workerCount : nat) (imageFiles : list string) (j : nat) :
  Forall (fun f => f <> EmptyString) imageFiles ->
  (j <= workerCount)%nat ->
  fold_left (fun st w => processWorkerQueue w st) (seq 0 j)
    (mkProcessor imageFiles [] 0 0 (Z.of_nat (length imageFiles)) []
       (repeat [] workerCount) (repeat None workerCount))
  = let k := Nat.min j (length imageFiles) in
    mkProcessor (skipn k imageFiles) [] (Z.of_nat k) 0
      (Z.of_nat (length imageFiles))
      (map (fun w => mkCall w (nth w imageFiles EmptyString) Pending true)
           (seq 0 k))
      (map (fun w => [w]) (seq 0 k) ++ repeat [] (workerCount - k))
      (map Some (seq 0 k) ++ repeat None (workerCount - k)).
Proof.
  intros Hf. induction j as [|j IH]; intros Hj.
  - cbn [seq fold_left Nat.min]. cbv zeta. cbn [skipn seq map app].
    now rewrite Nat.sub_0_r.
  - rewrite seq_S, fold_left_app, IH by lia. cbn [fold_left Nat.add]. cbv zeta.
    destruct (Nat.lt_ge_cases j (length imageFiles)) as [L|L].
    + rewrite (Nat.min_l j) by lia. rewrite (Nat.min_l (S j)) by lia.
      unfold processWorkerQueue. cbn [pendingQueue].
      rewrite (skipn_nth_cons imageFiles j L).
      assert (Hne : nth j imageFiles EmptyString <> EmptyString).
      { rewrite Forall_forall in Hf. apply Hf, nth_In, L. }
      destruct (String.eqb_spec (nth j imageFiles EmptyString) EmptyString)
        as [E|_]; [contradiction|].
      unfold processImageWithWorker.
      cbn [pendingQueue processedImages activeJobs completedJobs totalJobs
           calls listeners awaiting].
      rewrite length_map, length_seq.
      replace (workerCount - j)%nat with (S (workerCount - S j)) by lia.
      cbn [repeat].
      assert (U1 : forall (f : list nat -> list nat),
                update (map (fun w => [w]) (seq 0 j)
                        ++ [] :: repeat [] (workerCount - S j)) j f
                = map (fun w => [w]) (seq 0 j)
                  ++ f [] :: repeat [] (workerCount - S j)).
      { intros f.
        pose proof (update_app_r (map (fun w : nat => [w]) (seq 0 j))
                      ([] :: repeat [] (workerCount - S j)) 0 f) as U.
        rewrite length_map, length_seq, Nat.add_0_r in U. exact U. }
      assert (U2 : forall (f : option nat -> option nat),
                update (map Some (seq 0 j)
                        ++ None :: repeat None (workerCount - S j)) j f
                = map Some (seq 0 j)
                  ++ f None :: repeat None (workerCount - S j)).
      { intros f.
        pose proof (update_app_r (map Some (seq 0 j))
                      (None :: repeat None (workerCount - S j)) 0 f) as U.
        rewrite length_map, length_seq, Nat.add_0_r in U. exact U. }
      rewrite U1, U2. rewrite !seq_S, !map_app. cbn [map app Nat.add].
      rewrite <- !app_assoc. cbn [app].
      f_equal. lia.
    + rewrite (Nat.min_r j) by lia. rewrite (Nat.min_r (S j)) by lia.
      unfold processWorkerQueue. cbn [pendingQueue].
      rewrite skipn_all. unfold end_loop.
      cbn [pendingQueue processedImages activeJobs completedJobs totalJobs
           calls listeners awaiting].
      f_equal.
      pose proof (update_app_r (map Some (seq 0 (length imageFiles)))
                    (repeat None (workerCount - length imageFiles))
                    (j - length imageFiles) (fun _ => None)) as U.
      rewrite length_map, length_seq, update_repeat_same in U.
      replace (length imageFiles + (j - length imageFiles))%nat with j in U
        by lia.
      exact U.
Qed.

(** ** One call per worker *)

Lemma nth_update_neq {A : Type} (l : list A) (n k : nat) (f : A -> A)
  (dflt : A) : n <> k -> nth k (update l n f) dflt = nth k l dflt.
Proof.
  revert n k. induction l as [|a l IH]; intros [|n] [|k] H; cbn; auto; try lia.
Qed.

Lemma nth_error_update_neq {A : Type} (l : list A) (n k : nat) (f : A -> A) :
  n <> k -> nth_error (update l n f) k = nth_error l k.
Proof.
  revert n k. induction l as [|a l IH]; intros [|n] [|k] H; cbn; auto; try lia.
Qed.

Lemma nth_error_update_eq {A : Type} (l : list A) (n : nat) (f : A -> A) :
  nth_error (update l n f) n = option_map f (nth_error l n).
Proof.
  revert n. induction l as [|a l IH]; intros [|n]; cbn; auto.
Qed.

Lemma nth_error_nth_some {A : Type} (l : list (option A)) (w : nat) (a : A) :
  nth_error l w = Some (Some a) -> nth w l None = Some a.
Proof. intros H. now apply nth_error_nth. Qed.

Lemma nth_some_inside {A : Type} (l : list (option A)) (w : nat) (a : A) :
  nth w l None = Some a -> (w < length l)%nat /\ nth_error l w = Some (Some a).
Proof.
  intros H. destruct (Nat.lt_ge_cases w (length l)) as [L|L].
  - split; [exact L|]. rewrite (nth_error_nth' l None L). now rewrite H.
  - rewrite nth_overflow in H by exact L. discriminate.
Qed.

(** A worker whose slot is in order is not resumed. *)
Lemma resume_worker_waiting (st : processor) (w : nat) :
  slot_ok st w -> resume_worker st w = st.
Proof.
  intros H. unfold resume_worker.
  destruct (nth_error (awaiting st) w) as [[id|]|] eqn:E; try reflexivity.
  unfold slot_ok in H. rewrite (nth_error_nth_some _ _ _ E) in H.
  destruct H as [_ [c [Ec [Ep _]]]].
  unfold is_settled. now rewrite Ec, Ep.
Qed.

Lemma fold_resume_waiting (ws : list nat) (st : processor) :
  (forall w, In w ws -> slot_ok st w) ->
  fold_left resume_worker ws st = st.
Proof.
  induction ws as [|w ws IH]; intros H; cbn [fold_left]; [reflexivity|].
  rewrite (resume_worker_waiting st w) by (apply H; now left).
  apply IH. intros w' Hw'. apply H. now right.
Qed.

Lemma resume_exclusive (st : processor) : exclusive st -> resume st = st.
Proof. intros [_ H]. unfold resume. now apply fold_resume_waiting. Qed.

(** A turn of the loop of a worker on which no handler is registered. *)
Lemma processWorkerQueue_slot (w : nat) (st : processor) :
  length (listeners st) = length (awaiting st) ->
  (w < length (awaiting st))%nat ->
  nth w (listeners st) [] = [] ->
  (forall w', w' <> w -> slot_ok st w') ->
  exclusive (processWorkerQueue w st).
Proof.
  intros Hlen Hw Hl Hothers.
  assert (Hend : forall s, listeners s = listeners st ->
            awaiting s = awaiting st -> calls s = calls st ->
            exclusive (end_loop w s)).
  { intros s E1 E2 E3. unfold exclusive, end_loop, slot_ok.
    cbn [listeners awaiting calls]. rewrite length_update, E1, E2, E3.
    split; [exact Hlen|]. intros w'.
    destruct (Nat.eq_dec w' w) as [->|N].
    - rewrite nth_update_eq by exact Hw. exact Hl.
    - rewrite nth_update_neq by auto. apply (Hothers w' N). }
  unfold processWorkerQueue.
  destruct (pendingQueue st) as [|f rest]; [now apply Hend|].
  destruct (String.eqb f EmptyString); [now apply Hend|].
  unfold exclusive, processImageWithWorker, slot_ok.
  cbn [listeners awaiting calls]. rewrite !length_update.
  split; [exact Hlen|]. intros w'.
  destruct (Nat.eq_dec w' w) as [->|N].
  - rewrite !nth_update_eq by lia. rewrite Hl. split; [reflexivity|].
    eexists. split; [apply nth_error_app_last|]. auto.
  - rewrite !nth_update_neq by auto.
    specialize (Hothers w' N). unfold slot_ok in Hothers.
    destruct (nth w' (awaiting st) None) as [id'|]; [|exact Hothers].
    destruct Hothers as [H1 [c [Ec [Ep Ew]]]].
    split; [exact H1|]. exists c. split; [|auto].
    rewrite nth_error_app1; [exact Ec|].
    apply nth_error_Some. congruence.
Qed.

(** The loop of one worker goes on after the call it awaits was settled
    and the handlers of the call were removed. *)
Lemma resume_after_settle (w id : nat) (st : processor) :
  length (listeners st) = length (awaiting st) ->
  nth w (awaiting st) None = Some id ->
  is_settled st id = true ->
  nth w (listeners st) [] = [] ->
  (forall w', w' <> w -> slot_ok st w') ->
  resume st = processWorkerQueue w st /\ exclusive (processWorkerQueue w st).
Proof.
  intros Hlen Ha Hset Hl Hothers.
  destruct (nth_some_inside _ _ _ Ha) as [Hw Ea].
  pose proof (processWorkerQueue_slot w st Hlen Hw Hl Hothers) as Hex.
  split; [|exact Hex].
  unfold resume.
  replace (length (awaiting st)) with (w + S (length (awaiting st) - S w))%nat
    by lia.
  rewrite seq_app, fold_left_app. cbn [seq fold_left Nat.add].
  rewrite (fold_resume_waiting (seq 0 w) st)
    by (intros w' Hin; apply in_seq in Hin; apply Hothers; lia).
  assert (E : resume_worker st w = processWorkerQueue w st).
  { unfold resume_worker. now rewrite Ea, Hset. }
  rewrite E. apply fold_resume_waiting. intros w' _. apply Hex.
Qed.

(** What both handlers of a call do to the slots. *)
Lemma handler_slots (w id : nat) (p : promise) (pq pi : list string)
  (aj cj tj : Z) (st : processor) :
  p <> Pending ->
  exclusive st ->
  nth w (awaiting st) None = Some id ->
  let st0 := unregister w id st in
  let st1 := settle id p
               (mkProcessor pq pi aj cj tj (calls st0) (listeners st0)
                  (awaiting st0)) in
  length (listeners st1) = length (awaiting st1) /\
  nth w (awaiting st1) None = Some id /\
  is_settled st1 id = true /\
  nth w (listeners st1) [] = [] /\
  (forall w', w' <> w -> slot_ok st1 w').
Proof.
  intros Hp [Hlen Hslots] Ha. cbv zeta.
  destruct (nth_some_inside _ _ _ Ha) as [Hw _].
  pose proof (Hslots w) as Sw. unfold slot_ok in Sw. rewrite Ha in Sw.
  destruct Sw as [Hl [c [Ec [Epend Ework]]]].
  unfold settle, unregister, slot_ok, is_settled.
  cbn [pendingQueue processedImages activeJobs completedJobs totalJobs calls
       listeners awaiting].
  rewrite length_update. split; [exact Hlen|]. split; [exact Ha|]. split.
  { rewrite !nth_error_update_eq, Ec. cbn [option_map c_promise].
    rewrite Epend. cbn [c_promise]. destruct p; [contradiction | | ]; reflexivity. }
  split.
  { rewrite nth_update_eq by lia. rewrite Hl. apply remove_one_head. }
  intros w' N. rewrite nth_update_neq by auto.
  pose proof (Hslots w') as Sw'. unfold slot_ok in Sw'.
  destruct (nth w' (awaiting st) None) as [id'|]; [|exact Sw'].
  destruct Sw' as [H1 [c' [Ec' [Ep' Ew']]]].
  split; [exact H1|]. exists c'. split; [|auto].
  assert (id <> id') by (intros ->; congruence).
  now rewrite !nth_error_update_neq by auto.
Qed.

Lemma handle_exclusive (st : processor) (e : event) :
  is_timer e = false -> exclusive st -> exclusive (handle st e).
Proof.
  intros Ht Hex. destruct e as [w r|w m|id]; [| |discriminate]; cbn [handle].
  - pose proof (proj2 Hex w) as Sw. unfold slot_ok in Sw.
    destruct (nth w (awaiting st) None) as [id|] eqn:Ea.
    + destruct Sw as [Hl _]. rewrite Hl. cbn [fold_left].
      unfold messageHandler. destruct (r_success r).
      * destruct (handler_slots w id (Resolved r) (pendingQueue st)
                    (processedImages st ++ [r_outputPath r])
                    (activeJobs st - 1) (completedJobs st + 1) (totalJobs st)
                    st ltac:(discriminate) Hex Ea) as [H1 [H2 [H3 [H4 H5]]]].
        destruct (resume_after_settle w id _ H1 H2 H3 H4 H5) as [E X].
        exact (eq_ind_r exclusive X E).
      * destruct (handler_slots w id (Rejected (ReplyError (r_error r)))
                    (pendingQueue st) (processedImages st)
                    (activeJobs st - 1) (completedJobs st + 1) (totalJobs st)
                    st ltac:(discriminate) Hex Ea) as [H1 [H2 [H3 [H4 H5]]]].
        destruct (resume_after_settle w id _ H1 H2 H3 H4 H5) as [E X].
        exact (eq_ind_r exclusive X E).
    + rewrite Sw. cbn [fold_left]. now rewrite resume_exclusive.
  - pose proof (proj2 Hex w) as Sw. unfold slot_ok in Sw.
    destruct (nth w (awaiting st) None) as [id|] eqn:Ea.
    + destruct Sw as [Hl _]. rewrite Hl. cbn [fold_left].
      unfold errorHandler.
      destruct (handler_slots w id (Rejected (EmittedError m))
                  (pendingQueue st) (processedImages st)
                  (activeJobs st - 1) (completedJobs st) (totalJobs st)
                  st ltac:(discriminate) Hex Ea) as [H1 [H2 [H3 [H4 H5]]]].
      destruct (resume_after_settle w id _ H1 H2 H3 H4 H5) as [E X].
      exact (eq_ind_r exclusive X E).
    + rewrite Sw. cbn [fold_left]. now rewrite resume_exclusive.
Qed.

Lemma processImageQueue_exclusive (workerCount : nat)
  (imageFiles : list string) :
  exclusive (processImageQueue workerCount imageFiles).
Proof.
  unfold processImageQueue.
  assert (H : forall j,
    (j <= workerCount)%nat ->
    let st := fold_left (fun st w => processWorkerQueue w st) (seq 0 j)
                (mkProcessor imageFiles [] 0 0 (Z.of_nat (length imageFiles))
                   [] (repeat [] workerCount) (repeat None workerCount)) in
    exclusive st /\ length (awaiting st) = workerCount /\
    forall w, (j <= w)%nat -> nth w (listeners st) [] = []).
  { induction j as [|j IH]; intros Hj; cbv zeta.
    - cbn [seq fold_left]. unfold exclusive, slot_ok.
      cbn [listeners awaiting calls]. rewrite !repeat_length.
      assert (N1 : forall w, nth w (repeat (@nil nat) workerCount) [] = []).
      { intros w. destruct (nth_in_or_default w (repeat (@nil nat) workerCount) [])
          as [I|E]; [now apply repeat_spec in I | exact E]. }
      assert (N2 : forall w, nth w (repeat (@None nat) workerCount) None = None).
      { intros w. destruct (nth_in_or_default w (repeat (@None nat) workerCount) None)
          as [I|E]; [now apply repeat_spec in I | exact E]. }
      repeat split; auto. intros w. now rewrite N2.
    - rewrite seq_S, fold_left_app. cbn [fold_left Nat.add].
      destruct (IH ltac:(lia)) as [[Hlen Hslots] [Hn Hfree]].
      match goal with |- context [processWorkerQueue j ?s] => set (st := s) in * end.
      assert (Hex : exclusive (processWorkerQueue j st)).
      { apply processWorkerQueue_slot; auto; try lia. }
      split; [exact Hex|].
      assert (L : length (awaiting (processWorkerQueue j st)) = workerCount).
      { unfold processWorkerQueue.
        destruct (pendingQueue st) as [|f rest];
          [|destruct (String.eqb f EmptyString)];
          cbn [end_loop processImageWithWorker awaiting];
          now rewrite length_update. }
      split; [exact L|].
      intros w Hw. unfold processWorkerQueue.
      destruct (pendingQueue st) as [|f rest];
        [|destruct (String.eqb f EmptyString)];
        cbn [end_loop processImageWithWorker listeners];
        try (apply Hfree; lia).
      rewrite nth_update_neq by lia. apply Hfree. lia. }
  apply (H workerCount (Nat.le_refl _)).
Qed.

Lemma run_exclusive (workerCount : nat) (imageFiles : list string)
  (events : list event) :
  Forall (fun e => is_timer e = false) events ->
  exclusive (run workerCount imageFiles events).
Proof.
  intros Hev. unfold run.
  induction events as [|e events IH] using rev_ind.
  - apply processImageQueue_exclusive.
  - rewrite fold_left_app. cbn [fold_left].
    apply Forall_app in Hev as [H1 H2]. inversion H2; subst.
    apply handle_exclusive; auto.
Qed.

(** The number of workers does not change. *)
Lemma processWorkerQueue_workers (w : nat) (st : processor) :
  length (listeners (processWorkerQueue w st)) = length (listeners st).
Proof.
  unfold processWorkerQueue.
  destruct (pendingQueue st) as [|f rest];
    [|destruct (String.eqb f EmptyString)];
    cbn [end_loop processImageWithWorker listeners];
    try reflexivity. apply length_update.
Qed.

Lemma fold_workers {A : Type} (h : processor -> A -> processor) :
  (forall st a, length (listeners (h st a)) = length (listeners st)) ->
  forall (l : list A) (st : processor),
  length (listeners (fold_left h l st)) = length (listeners st).
Proof.
  intros H. induction l as [|a l IH]; intros st; cbn [fold_left]; [reflexivity|].
  now rewrite IH, H.
Qed.

Lemma resume_workers (st : processor) :
  length (listeners (resume st)) = length (listeners st).
Proof.
  unfold resume. apply fold_workers. intros s w. unfold resume_worker.
  destruct (nth_error (awaiting s) w) as [[id|]|]; try reflexivity.
  destruct (is_settled s id); [apply processWorkerQueue_workers | reflexivity].
Qed.

Lemma handle_workers (st : processor) (e : event) :
  length (listeners (handle st e)) = length (listeners st).
Proof.
  destruct e as [w r|w m|id]; cbn [handle].
  - rewrite resume_workers. apply fold_workers. intros s i.
    unfold messageHandler. destruct (r_success r);
      cbn [settle unregister listeners]; apply length_update.
  - rewrite resume_workers. apply fold_workers. intros s i.
    unfold errorHandler. cbn [settle unregister listeners]. apply length_update.
  - destruct (nth_error (calls st) id) as [c|] eqn:E; [|reflexivity].
    destruct (c_timer c); [|reflexivity].
    rewrite resume_workers. unfold timeoutCallback. now rewrite E.
Qed.

Lemma run_workers (workerCount : nat) (imageFiles : list string)
  (events : list event) :
  length (listeners (run workerCount imageFiles events)) = workerCount.
Proof.
  unfold run. rewrite (fold_workers handle handle_workers).
  unfold processImageQueue.
  rewrite (fold_workers (fun st w => processWorkerQueue w st)
             (fun st w => processWorkerQueue_workers w st)).
  cbn [listeners]. apply repeat_length.
Qed.

Lemma list_sum_short (ls : list (list nat)) :
  (forall l, In l ls -> (length l <= 1)%nat) ->
  (list_sum (map (@length nat) ls) <= length ls)%nat.
Proof.
  unfold list_sum.
  induction ls as [|l ls IH]; intros H; cbn; [lia|].
  pose proof (H l (or_introl eq_refl)).
  assert (forall l', In l' ls -> (length l' <= 1)%nat)
    by (intros l' I; apply H; now right).
  specialize (IH ltac:(assumption)). lia.
Qed.

Lemma slot_short (st : processor) (w : nat) :
  slot_ok st w -> (length (nth w (listeners st) []) <= 1)%nat.
Proof.
  unfold slot_ok. destruct (nth w (awaiting st) None).
  - intros [-> _]. cbn. lia.
  - intros ->. cbn. lia.
Qed.

(** ** What one event does to the call a worker is busy with *)

Lemma processWorkerQueue_keeps (w : nat) (st : processor) :
  completedJobs (processWorkerQueue w st) = completedJobs st /\
  processedImages (processWorkerQueue w st) = processedImages st /\
  forall id c, nth_error (calls st) id = Some c ->
               nth_error (calls (processWorkerQueue w st)) id = Some c.
Proof.
  unfold processWorkerQueue.
  destruct (pendingQueue st) as [|f rest];
    [|destruct (String.eqb f EmptyString)];
    cbn [end_loop processImageWithWorker completedJobs processedImages calls];
    repeat split; auto.
  intros id c E. rewrite nth_error_app1; [exact E|].
  apply nth_error_Some. congruence.
Qed.

Lemma handler_call (w id : nat) (p : promise) (pq pi : list string)
  (aj cj tj : Z) (st : processor) :
  exclusive st ->
  nth w (awaiting st) None = Some id ->
  let st0 := unregister w id st in
  let st1 := settle id p
               (mkProcessor pq pi aj cj tj (calls st0) (listeners st0)
                  (awaiting st0)) in
  exists c0,
    nth_error (calls st) id = Some c0 /\
    nth_error (calls st1) id
    = Some (mkCall (c_worker c0) (c_imageFile c0) p false).
Proof.
  intros [_ Hslots] Ha. cbv zeta.
  pose proof (Hslots w) as Sw. unfold slot_ok in Sw. rewrite Ha in Sw.
  destruct Sw as [_ [c [Ec [Epend _]]]].
  exists c. split; [exact Ec|].
  unfold settle, unregister. cbn [calls].
  rewrite !nth_error_update_eq, Ec. cbn [option_map c_promise c_worker
                                          c_imageFile c_timer].
  now rewrite Epend.
Qed.

(** The effect of the handlers of the call worker [w] is busy with, and
    of the turn of the loop that follows. *)
Lemma handler_step (w id : nat) (p : promise) (pq pi : list string)
  (aj cj tj : Z) (st : processor) :
  p <> Pending ->
  exclusive st ->
  nth w (awaiting st) None = Some id ->
  let st0 := unregister w id st in
  let st' := resume (settle id p
                       (mkProcessor pq pi aj cj tj (calls st0) (listeners st0)
                          (awaiting st0))) in
  completedJobs st' = cj /\ processedImages st' = pi /\
  promise_of st' id = Some p /\
  handle st' (TimerFired id) = st'.
Proof.
  intros Hp Hex Ha. cbv zeta.
  destruct (handler_slots w id p pq pi aj cj tj st Hp Hex Ha)
    as [H1 [H2 [H3 [H4 H5]]]].
  destruct (resume_after_settle w id _ H1 H2 H3 H4 H5) as [E _].
  rewrite E.
  match goal with |- context [processWorkerQueue w ?s] =>
    destruct (processWorkerQueue_keeps w s) as [K1 [K2 K3]] end.
  destruct (handler_call w id p pq pi aj cj tj st Hex Ha) as [c0 [_ Ec]].
  specialize (K3 _ _ Ec).
  split; [exact K1|]. split; [exact K2|]. split.
  - unfold promise_of. now rewrite K3.
  - cbn [handle]. now rewrite K3.
Qed.

(** ** The account of a pool on which no timer fires *)

Lemma outputs_app (a b : list call) : outputs (a ++ b) = outputs a ++ outputs b.
Proof. apply flat_map_app. Qed.

Lemma update_split {A : Type} (l : list A) (n : nat) (a : A) (f : A -> A) :
  nth_error l n = Some a ->
  exists l1 l2, l = l1 ++ a :: l2 /\ length l1 = n /\
                update l n f = l1 ++ f a :: l2.
Proof.
  revert n. induction l as [|b l IH]; intros [|n] H; cbn in H; try discriminate.
  - injection H as ->. exists [], l. auto.
  - destruct (IH n H) as [l1 [l2 [E1 [E2 E3]]]].
    exists (b :: l1), l2. cbn. rewrite E3, E2. rewrite E1 at 1. auto.
Qed.

Lemma nth_all_none (l : list (option nat)) (w : nat) :
  forallb (fun a => match a with None => true | Some _ => false end) l = true ->
  nth w l None = None.
Proof.
  intros H. destruct (nth_in_or_default w l None) as [I|E]; [|exact E].
  rewrite forallb_forall in H. specialize (H _ I).
  now destruct (nth w l None).
Qed.

Lemma Forall_update {A : Type} (P : A -> Prop) (l : list A) (n : nat)
  (f : A -> A) :
  (forall a, P (f a)) -> Forall P l -> Forall P (update l n f).
Proof.
  intros Hf H. revert n. induction H as [|a l Ha Hl IH]; intros [|n]; cbn;
    constructor; auto.
Qed.

Lemma explained_later (events : list event) (e : event) (st st' : processor)
  (id : nat) (c : call) :
  (c_promise c = Pending ->
   nth (c_worker c) (awaiting st') None = nth (c_worker c) (awaiting st) None) ->
  explained events st id c -> explained (events ++ [e]) st' id c.
Proof.
  unfold explained. intros Ha.
  destruct (c_promise c) as [|r|[wi f|m|m]].
  - intros H. now rewrite Ha.
  - intros [H1 H2]. split; [exact H1 | apply in_or_app; now left].
  - exact (fun H => H).
  - intros [r [H1 [H2 H3]]]. exists r. repeat split; auto.
    apply in_or_app; now left.
  - intros H. apply in_or_app; now left.
Qed.

Lemma outputs_count (cs : list call) :
  Forall (fun c => c_promise c <> Pending) cs ->
  (length (outputs cs) + length (filter is_rejected cs) = length cs)%nat.
Proof.
  induction 1 as [|c cs Hc Hcs IH]; [reflexivity|].
  unfold outputs, is_rejected in *. cbn [flat_map filter].
  destruct (c_promise c); [contradiction| |]; cbn [app length]; lia.
Qed.

(** The handlers of the call worker [w] is busy with settle the call with
    [p], and the loop of the worker takes its next turn. *)
Lemma handler_accounted (files : list string) (events : list event)
  (e : event) (w id : nat) (p : promise) (pi : list string)
  (aj cj tj : Z) (st : processor) :
  exclusive st -> conserved files st -> accounted events st ->
  nth w (awaiting st) None = Some id ->
  match p with
  | Pending => False
  | Resolved r => r_success r = true /\ e = Message w r /\
                  pi = processedImages st ++ [r_outputPath r]
  | Rejected (ReplyError m) =>
      (exists r, r_success r = false /\ r_error r = m /\ e = Message w r) /\
      pi = processedImages st
  | Rejected (EmittedError m) => e = WorkerError w m /\ pi = processedImages st
  | Rejected (TimeoutError _ _) => False
  end ->
  let st0 := unregister w id st in
  accounted (events ++ [e])
    (processWorkerQueue w
       (settle id p
          (mkProcessor (pendingQueue st) pi aj cj tj (calls st0)
             (listeners st0) (awaiting st0)))).
Proof.
  intros Hex [_ Hne] [HA [HB HC]] Ha Hp. cbv zeta.
  destruct (nth_some_inside _ _ _ Ha) as [Hw _].
  pose proof (proj2 Hex w) as Sw. unfold slot_ok in Sw. rewrite Ha in Sw.
  destruct Sw as [_ [c0 [Ec [Epend Ework]]]].
  destruct (update_split (calls st) id c0
              (fun c => mkCall (c_worker c) (c_imageFile c) (c_promise c) false)
              Ec) as [l1 [l2 [E1 [E2 E3]]]].
  set (c1 := mkCall (c_worker c0) (c_imageFile c0) p false).
  assert (Ecalls :
    calls (settle id p
             (mkProcessor (pendingQueue st) pi aj cj tj
                (calls (unregister w id st)) (listeners (unregister w id st))
                (awaiting (unregister w id st))))
    = l1 ++ c1 :: l2).
  { unfold settle, unregister. cbn [calls]. rewrite E3.
    pose proof (update_app_r l1
                  (mkCall (c_worker c0) (c_imageFile c0) (c_promise c0) false
                   :: l2) 0
                  (fun c => match c_promise c with
                            | Pending => mkCall (c_worker c) (c_imageFile c) p
                                           (c_timer c)
                            | _ => c
                            end)) as U.
    rewrite Nat.add_0_r, E2 in U. rewrite U. cbn [update c_promise].
    rewrite Epend. reflexivity. }
  (* the account of the calls *)
  assert (A1 : Permutation pi (outputs (l1 ++ c1 :: l2))).
  { rewrite E1, outputs_app in HA. rewrite outputs_app.
    unfold outputs in HA at 2. cbn [flat_map] in HA. rewrite Epend in HA.
    cbn [app] in HA. unfold outputs at 2. cbn [flat_map].
    fold (outputs l2) in *. unfold c1; cbn [c_promise].
    destruct p as [|r|[wi f|m|m]]; try contradiction.
    - destruct Hp as [_ [_ ->]]. cbn [app].
      apply Permutation_trans with (r_outputPath r :: processedImages st).
      + apply Permutation_sym, Permutation_cons_append.
      + apply Permutation_cons_app. exact HA.
    - destruct Hp as [_ ->]. exact HA.
    - destruct Hp as [_ ->]. exact HA. }
  assert (Bold : forall (a : option nat -> option nat) id' c,
            nth_error (l1 ++ c1 :: l2) id' = Some c ->
            forall s, awaiting s = update (awaiting st) w a ->
            explained (events ++ [e]) s id' c).
  { intros a id' c E s Es.
    destruct (Nat.eq_dec id' id) as [->|N].
    - rewrite <- E2 in E. rewrite nth_error_app2 in E by lia.
      rewrite Nat.sub_diag in E. cbn in E. injection E as <-.
      unfold explained. unfold c1; cbn [c_promise c_worker]. rewrite Ework.
      destruct p as [|r|[wi f|m|m]]; try contradiction.
      + destruct Hp as [H1 [-> _]]. split; [exact H1|].
        apply in_or_app. right. now left.
      + destruct Hp as [[r [H1 [H2 ->]]] _]. exists r. repeat split; auto.
        apply in_or_app. right. now left.
      + destruct Hp as [-> _]. apply in_or_app. right. now left.
    - assert (E' : nth_error (calls st) id' = Some c).
      { rewrite E1. rewrite <- E2 in N.
        destruct (Nat.lt_ge_cases id' (length l1)) as [L|L].
        - rewrite nth_error_app1 in E |- * by lia. exact E.
        - rewrite nth_error_app2 in E |- * by lia.
          destruct (id' - length l1)%nat as [|k] eqn:K; [lia|]. exact E. }
      apply (explained_later events e st s id' c); [|now apply HB].
      intros Pc. rewrite Es. apply nth_update_neq.
      intros Hwc. specialize (HB _ _ E'). unfold explained in HB.
      rewrite Pc, <- Hwc in HB. congruence. }
  assert (G : forall s, pendingQueue s = pendingQueue st ->
            processedImages s = pi -> calls s = l1 ++ c1 :: l2 ->
            awaiting s = awaiting st ->
            accounted (events ++ [e]) (processWorkerQueue w s)).
  { intros s Eq1 Ep1 Ec1 Ea1. unfold accounted, processWorkerQueue.
    rewrite Eq1.
    destruct (pendingQueue st) as [|f rest] eqn:Eq.
    - unfold end_loop.
      cbn [pendingQueue processedImages calls awaiting]. rewrite Ec1, Ep1, Eq1.
      split; [exact A1|]. split; [|now left].
      intros id' c E. apply (Bold (fun _ => None) id' c E). now rewrite Ea1.
    - inversion Hne as [|? ? Hf Hrest]; subst.
      destruct (String.eqb_spec f EmptyString) as [->|_]; [contradiction|].
      unfold processImageWithWorker.
      cbn [pendingQueue processedImages calls awaiting].
      rewrite Ec1, Ea1. split.
      { rewrite outputs_app. unfold outputs at 2. cbn [flat_map c_promise app].
        now rewrite app_nil_r. }
      split.
      { intros id' c E.
        destruct (Nat.lt_ge_cases id' (length (l1 ++ c1 :: l2))) as [L|L].
        - rewrite nth_error_app1 in E by exact L.
          apply (Bold (fun _ => Some (length (l1 ++ c1 :: l2))) id' c E).
          reflexivity.
        - rewrite nth_error_app2 in E by exact L.
          destruct (id' - length (l1 ++ c1 :: l2))%nat as [|k] eqn:K;
            [|destruct k; discriminate].
          cbn in E. injection E as <-.
          unfold explained. cbn [c_promise c_worker awaiting].
          rewrite nth_update_eq by exact Hw. f_equal. lia. }
      right. destruct HC as [HC|HC]; [discriminate|].
      apply Forall_update; [discriminate | exact HC]. }
  apply G; auto.
Qed.

Lemma accounted_later (events : list event) (e : event) (st : processor) :
  accounted events st -> accounted (events ++ [e]) st.
Proof.
  intros [HA [HB HC]]. split; [exact HA|]. split; [|exact HC].
  intros id c E. apply (explained_later events e st st id c); auto.
Qed.

Lemma handle_accounted (files : list string) (events : list event)
  (e : event) (st : processor) :
  is_timer e = false ->
  exclusive st -> conserved files st -> accounted events st ->
  accounted (events ++ [e]) (handle st e).
Proof.
  intros Ht Hex Hc Hacc.
  destruct e as [w r|w m|id]; [| |discriminate]; cbn [handle].
  - pose proof (proj2 Hex w) as Sw. unfold slot_ok in Sw.
    destruct (nth w (awaiting st) None) as [id|] eqn:Ea.
    + destruct Sw as [Hl _]. rewrite Hl. cbn [fold_left].
      unfold messageHandler. destruct (r_success r) eqn:Hs.
      * destruct (handler_slots w id (Resolved r) (pendingQueue st)
                    (processedImages st ++ [r_outputPath r])
                    (activeJobs st - 1) (completedJobs st + 1) (totalJobs st)
                    st ltac:(discriminate) Hex Ea) as [H1 [H2 [H3 [H4 H5]]]].
        destruct (resume_after_settle w id _ H1 H2 H3 H4 H5) as [E _].
        refine (eq_ind_r (accounted _) _ E).
        apply (handler_accounted files events (Message w r) w id (Resolved r)
                 (processedImages st ++ [r_outputPath r])); auto.
      * destruct (handler_slots w id (Rejected (ReplyError (r_error r)))
                    (pendingQueue st) (processedImages st)
                    (activeJobs st - 1) (completedJobs st + 1) (totalJobs st)
                    st ltac:(discriminate) Hex Ea) as [H1 [H2 [H3 [H4 H5]]]].
        destruct (resume_after_settle w id _ H1 H2 H3 H4 H5) as [E _].
        refine (eq_ind_r (accounted _) _ E).
        apply (handler_accounted files events (Message w r) w id
                 (Rejected (ReplyError (r_error r))) (processedImages st));
          auto.
        split; [|reflexivity]. exists r. auto.
    + rewrite Sw. cbn [fold_left]. rewrite resume_exclusive by exact Hex.
      now apply accounted_later.
  - pose proof (proj2 Hex w) as Sw. unfold slot_ok in Sw.
    destruct (nth w (awaiting st) None) as [id|] eqn:Ea.
    + destruct Sw as [Hl _]. rewrite Hl. cbn [fold_left].
      unfold errorHandler.
      destruct (handler_slots w id (Rejected (EmittedError m))
                  (pendingQueue st) (processedImages st)
                  (activeJobs st - 1) (completedJobs st) (totalJobs st)
                  st ltac:(discriminate) Hex Ea) as [H1 [H2 [H3 [H4 H5]]]].
      destruct (resume_after_settle w id _ H1 H2 H3 H4 H5) as [E _].
      refine (eq_ind_r (accounted _) _ E).
      apply (handler_accounted files events (WorkerError w m) w id
               (Rejected (EmittedError m)) (processedImages st)); auto.
    + rewrite Sw. cbn [fold_left]. rewrite resume_exclusive by exact Hex.
      now apply accounted_later.
Qed.

Lemma processImageQueue_accounted (workerCount : nat)
  (imageFiles : list string) :
  Forall (fun f => f <> EmptyString) imageFiles ->
  accounted [] (processImageQueue workerCount imageFiles).
Proof.
  intros Hf. unfold processImageQueue.
  rewrite (start_stage workerCount imageFiles workerCount Hf (Nat.le_refl _)).
  cbv zeta. set (k := Nat.min workerCount (length imageFiles)).
  unfold accounted. cbn [processedImages calls pendingQueue awaiting].
  split.
  { replace (outputs _) with (@nil string); [apply perm_nil|].
    symmetry. unfold outputs. generalize (seq 0 k). intros l.
    induction l as [|a l IH]; cbn; auto. }
  split.
  { intros id c E. rewrite nth_error_map in E.
    destruct (nth_error (seq 0 k) id) as [a|] eqn:Es; [|discriminate].
    cbn in E. injection E as <-.
    assert (L : (id < k)%nat).
    { assert (L : (id < length (seq 0 k))%nat)
        by (apply nth_error_Some; congruence).
      now rewrite length_seq in L. }
    rewrite nth_error_seq in Es.
    destruct (Nat.ltb_spec id k); [|lia]. injection Es as <-.
    unfold explained. cbn [c_promise c_worker awaiting Nat.add].
    rewrite app_nth1 by (rewrite length_map, length_seq; exact L).
    rewrite (nth_indep _ None (Some 0%nat))
      by (rewrite length_map, length_seq; exact L).
    rewrite map_nth. now rewrite seq_nth by exact L. }
  destruct (Nat.le_ge_cases workerCount (length imageFiles)) as [L|L].
  - right. replace (workerCount - k)%nat with 0%nat by lia.
    cbn [repeat]. rewrite app_nil_r. apply Forall_forall.
    intros a Ha. apply in_map_iff in Ha. destruct Ha as [x [<- _]].
    discriminate.
  - left. replace k with (length imageFiles) by lia. apply skipn_all.
Qed.

Lemma run_accounted (workerCount : nat) (imageFiles : list string)
  (events : list event) :
  Forall (fun f => f <> EmptyString) imageFiles ->
  Forall (fun e => is_timer e = false) events ->
  accounted events (run workerCount imageFiles events).
Proof.
  intros Hf Hev. induction events as [|e events IH] using rev_ind.
  - now apply processImageQueue_accounted.
  - apply Forall_app in Hev as [H1 H2]. inversion H2; subst.
    unfold run. rewrite fold_left_app. cbn [fold_left].
    apply (handle_accounted imageFiles); auto.
    + now apply run_exclusive.
    + now apply run_conserved.
Qed.

(** Once every loop of a pool has ended, every file was dispatched and
    every call is settled. *)
Lemma returned_accounted (workerCount : nat) (imageFiles : list string)
  (events : list event) (l : list string) :
  (1 <= workerCount)%nat ->
  Forall (fun f => f <> EmptyString) imageFiles ->
  Forall (fun e => is_timer e = false) events ->
  let st := run workerCount imageFiles events in
  returned st = Some l ->
  l = processedImages st /\
  map c_imageFile (calls st) = imageFiles /\
  Forall (fun c => c_promise c <> Pending) (calls st) /\
  (length l + length (filter is_rejected (calls st)) = length imageFiles)%nat.
Proof.
  intros Hw Hf Hev st Hret.
  pose proof (run_accounted workerCount imageFiles events Hf Hev) as [HA [HB HC]].
  pose proof (run_conserved workerCount imageFiles events Hf) as [C1 _].
  pose proof (run_exclusive workerCount imageFiles events Hev) as [Hlen _].
  pose proof (run_workers workerCount imageFiles events) as Hn.
  fold st in HA, HB, HC, C1, Hlen, Hn. clearbody st.
  unfold returned in Hret.
  destruct (forallb _ (awaiting st)) eqn:Hall; [|discriminate].
  injection Hret as <-.
  assert (Hq : pendingQueue st = []).
  { destruct HC as [HC|HC]; [exact HC|].
    destruct (awaiting st) as [|a rest] eqn:Ea.
    - cbn in Hlen. lia.
    - inversion HC; subst. cbn in Hall.
      destruct a; [discriminate | contradiction]. }
  assert (Hs : Forall (fun c => c_promise c <> Pending) (calls st)).
  { apply Forall_forall. intros c Hin Hp.
    apply In_nth_error in Hin. destruct Hin as [id E].
    specialize (HB _ _ E). unfold explained in HB. rewrite Hp in HB.
    rewrite (nth_all_none _ _ Hall) in HB. discriminate. }
  unfold dispatched in C1. rewrite Hq, app_nil_r in C1.
  split; [reflexivity|]. split; [exact C1|]. split; [exact Hs|].
  rewrite (Permutation_length HA), (outputs_count _ Hs).
  rewrite <- C1. now rewrite length_map.
Qed.

(** ** The order of the results *)

Lemma answered_no_timer (workerCount : nat) (imageFiles : list string)
  (events : list event) :
  answered workerCount imageFiles events ->
  Forall (fun e => is_timer e = false) events.
Proof.
  intros H. apply Forall_forall. intros e Hin.
  apply in_split in Hin. destruct Hin as [pre [post E]].
  destruct (H pre e post E) as [w [id [Hw _]]].
  destruct e; [reflexivity | reflexivity | discriminate].
Qed.

Lemma answered_prefix (workerCount : nat) (imageFiles : list string)
  (events : list event) (e : event) :
  answered workerCount imageFiles (events ++ [e]) ->
  answered workerCount imageFiles events /\
  exists w id, event_worker e = Some w /\
    nth w (awaiting (run workerCount imageFiles events)) None = Some id.
Proof.
  intros H. split.
  - intros pre e' post E. apply (H pre e' (post ++ [e])).
    rewrite E, <- app_assoc. reflexivity.
  - apply (H events e []). reflexivity.
Qed.

(** When every event is an answer, the list of results grows by the
    output path of each reply that reports success, as it arrives. *)
Lemma run_delivered (workerCount : nat) (imageFiles : list string)
  (events : list event) :
  answered workerCount imageFiles events ->
  processedImages (run workerCount imageFiles events) = delivered events.
Proof.
  induction events as [|e events IH] using rev_ind; intros Ha.
  - unfold run. cbn [fold_left delivered flat_map].
    pose proof (processImageQueue_counted workerCount imageFiles) as [_ Hs].
    destruct (processedImages (processImageQueue workerCount imageFiles))
      as [|p l] eqn:E; [reflexivity|].
    destruct (Hs p) as [w [r [[] _]]]. rewrite E. now left.
  - destruct (answered_prefix _ _ _ _ Ha) as [Hpre [w [id [Hw Hb]]]].
    specialize (IH Hpre).
    pose proof (run_exclusive workerCount imageFiles events
                  (answered_no_timer _ _ _ Hpre)) as Hex.
    unfold delivered. rewrite flat_map_app. fold (delivered events).
    rewrite <- IH. unfold run. rewrite fold_left_app. cbn [fold_left].
    fold (run workerCount imageFiles events).
    set (st := run workerCount imageFiles events) in *.
    pose proof (proj2 Hex w) as Sw. unfold slot_ok in Sw. rewrite Hb in Sw.
    destruct Sw as [Hl _].
    destruct e as [w' r|w' m|id']; cbn [event_worker] in Hw;
      [injection Hw as -> | injection Hw as -> | discriminate];
      cbn [handle flat_map app]; rewrite Hl; cbn [fold_left].
    + unfold messageHandler. destruct (r_success r).
      * destruct (handler_step w id (Resolved r) (pendingQueue st)
                    (processedImages st ++ [r_outputPath r])
                    (activeJobs st - 1) (completedJobs st + 1) (totalJobs st)
                    st ltac:(discriminate) Hex Hb) as [_ [K2 _]].
        exact K2.
      * destruct (handler_step w id (Rejected (ReplyError (r_error r)))
                    (pendingQueue st) (processedImages st)
                    (activeJobs st - 1) (completedJobs st + 1) (totalJobs st)
                    st ltac:(discriminate) Hex Hb) as [_ [K2 _]].
        rewrite app_nil_r. exact K2.
    + unfold errorHandler.
      destruct (handler_step w id (Rejected (EmittedError m))
                  (pendingQueue st) (processedImages st)
                  (activeJobs st - 1) (completedJobs st) (totalJobs st)
                  st ltac:(discriminate) Hex Hb) as [_ [K2 _]].
      rewrite app_nil_r. exact K2.
Qed.

(** * The claims *)

(** ** The wire format *)

(** C1, as the code has it.  For every pixel buffer with width and height
    at least 1, one to four channels and exactly width * height * channels
    bytes, whose encoded size 12 + width * height * channels is at most
    [INT_MAX], decoding the encoding of the buffer returns the buffer:
    same width, height, channels and bytes. *)
Theorem decode_encode_roundtrip (buf : ImageData) :
  1 <= width buf -> 1 <= height buf -> 1 <= channels buf <= 4 ->
  well_sized buf ->
  12 + width buf * height buf * channels buf <= INT_MAX ->
  parseSimpleImage (encodeAsJPEG buf) = Returned buf.
Proof. apply parse_encode. Qed.

Lemma decode_encode_roundtrip_witness :
  parseSimpleImage (encodeAsJPEG (mkImage [255; 0; 0; 0; 255; 0] 2 1 3))
  = Returned (mkImage [255; 0; 0; 0; 255; 0] 2 1 3).
Proof.
  apply (decode_encode_roundtrip (mkImage [255; 0; 0; 0; 255; 0] 2 1 3));
    cbn; unfold INT_MAX; try reflexivity; lia.
Defined.

(** C1 as stated fails on [huge_buffer]: its header fields are 32-bit
    integers and it has exactly width * height * channels bytes, but the
    decoder does not give it back. *)
Lemma decode_encode_huge_buffer :
  (1 <= width huge_buffer /\ 1 <= height huge_buffer /\
   1 <= channels huge_buffer <= 4 /\ well_sized huge_buffer /\
   in_int (width huge_buffer) /\ in_int (height huge_buffer) /\
   in_int (channels huge_buffer)) /\
  parseSimpleImage (encodeAsJPEG huge_buffer) <> Returned huge_buffer.
Proof.
  assert (Hd : vec_size (repeat 0 (Z.to_nat 2147483648)) = 2147483648)
    by (apply vec_size_repeat; discriminate).
  split.
  - unfold well_sized, huge_buffer. cbv beta iota delta [data]. rewrite Hd. clear Hd.
    change (width _) with 65536. change (height _) with 32768.
    change (channels _) with 1.
    unfold in_int, INT_MIN, INT_MAX. repeat split; lia.
  - unfold huge_buffer. revert Hd.
    generalize (repeat 0 (Z.to_nat 2147483648)). intros d Hd.
    rewrite (parse_encode_wrapped _ Hd). intros E.
    injection E as E. apply (f_equal vec_size) in E.
    rewrite vec_size_encode in E. cbn [data] in E. lia.
Qed.

(** C2, as the code has it.  An input of fewer than 12 bytes is rejected
    with the one exception of the decoder.  An input of at least 12 bytes
    whose header is valid and whose expected size 12 + width * height *
    channels is at most [INT_MAX] is always accepted: when it is shorter
    than expected the payload is the whole input, header included; when it
    is long enough the payload is exactly the bytes from offset 12 up to
    the expected size, the bytes after them being ignored. *)
Theorem decode_contract (bytes : list Z) :
  (vec_size bytes < 12 -> parseSimpleImage bytes = Thrown too_small) /\
  (forall w h c,
     12 <= vec_size bytes ->
     readInt bytes 0 = Returned w ->
     readInt bytes 4 = Returned h ->
     readInt bytes 8 = Returned c ->
     header_invalid w h c = false ->
     12 + w * h * c <= INT_MAX ->
     (vec_size bytes < 12 + w * h * c ->
      parseSimpleImage bytes = Returned (mkImage bytes w h c)) /\
     (12 + w * h * c <= vec_size bytes ->
      parseSimpleImage bytes
      = Returned (mkImage (firstn (Z.to_nat (w * h * c)) (skipn 12 bytes))
                          w h c))).
Proof.
  split.
  - intros H. unfold parseSimpleImage.
    destruct (Z.ltb_spec (vec_size bytes) 12); [reflexivity | lia].
  - intros w h c Hs Hw Hh Hc Hv Hfit. split; intros Hlen.
    + now apply parse_short_input.
    + now apply parse_full_input.
Qed.

Lemma decode_contract_witness :
  parseSimpleImage [0; 0; 0; 1] = Thrown too_small /\
  parseSimpleImage header_only = Returned (mkImage header_only 1 1 1) /\
  parseSimpleImage two_pixels = Returned (mkImage [255; 0; 0; 0; 255; 0] 2 1 3).
Proof.
  split; [|split].
  - apply (proj1 (decode_contract [0; 0; 0; 1])). reflexivity.
  - apply (proj2 (decode_contract header_only) 1 1 1); try reflexivity;
      vm_compute; discriminate.
  - apply (proj2 (decode_contract two_pixels) 2 1 3); try reflexivity;
      vm_compute; discriminate.
Defined.

(** C2 as stated fails on [header_only]: the header is valid and the input
    is shorter than the 13 bytes it announces, yet decoding does not fail;
    it returns the twelve header bytes as the payload. *)
Lemma decode_accepts_truncated_payload :
  12 <= vec_size header_only /\
  readInt header_only 0 = Returned 1 /\
  readInt header_only 4 = Returned 1 /\
  readInt header_only 8 = Returned 1 /\
  header_invalid 1 1 1 = false /\
  vec_size header_only < 12 + 1 * 1 * 1 /\
  parseSimpleImage header_only = Returned (mkImage header_only 1 1 1) /\
  (forall what, parseSimpleImage header_only <> Thrown what).
Proof.
  repeat split; try reflexivity; try discriminate.
Qed.

(** What [parseSimpleImage] returns is well sized whenever the input holds
    the bytes that the dimensions it settles on (read or guessed) ask for. *)
Lemma parse_well_sized (bytes : list Z) (img : ImageData) :
  parseSimpleImage bytes = Returned img ->
  0 <= width img -> 0 <= height img -> 1 <= channels img ->
  12 + width img * height img * channels img <= INT_MAX ->
  12 + width img * height img * channels img <= vec_size bytes ->
  well_sized img.
Proof.
  unfold parseSimpleImage.
  destruct (Z.ltb_spec (vec_size bytes) 12) as [|Hs]; [discriminate|].
  destruct (readInt bytes 0) as [w0| |]; try discriminate.
  destruct (readInt bytes 4) as [h0| |]; try discriminate.
  destruct (readInt bytes 8) as [c0| |]; try discriminate.
  cbn [bind].
  destruct (if header_invalid w0 h0 c0 then guess_dimensions (vec_size bytes)
            else (w0, h0, c0)) as [[w h] c].
  destruct (Z.leb_spec (expectedSize w h c) (vec_size bytes)) as [Hle|Hgt].
  - destruct (assign_range bytes 12 (expectedSize w h c)) as [p| |] eqn:Ea;
      try discriminate.
    cbn [bind]. intros E. injection E as <-. cbn [width height channels data].
    intros Hw Hh Hc Hfit Hlen.
    assert (0 <= w * h) by (apply Z.mul_nonneg_nonneg; lia).
    assert (w * h <= w * h * c) by nia.
    rewrite expectedSize_exact in Ea by (unfold INT_MAX in *; lia).
    rewrite assign_range_defined in Ea by lia.
    assert (Hp : p = firstn (Z.to_nat (12 + w * h * c - 12))
                            (skipn (Z.to_nat 12) bytes)) by congruence.
    subst p. unfold well_sized. cbn [width height channels data].
    rewrite vec_size_slice by lia. lia.
  - destruct (assign_range bytes 0 (vec_size bytes)) as [p| |];
      try discriminate.
    cbn [bind]. intros E. injection E as <-. cbn [width height channels data].
    intros Hw Hh Hc Hfit Hlen.
    assert (0 <= w * h) by (apply Z.mul_nonneg_nonneg; lia).
    assert (w * h <= w * h * c) by nia.
    rewrite expectedSize_exact in Hgt by (unfold INT_MAX in *; lia). lia.
Qed.

Lemma resizeImage_well_sized (input : ImageData) (nw nh : Z) :
  1 <= width input -> 1 <= height input -> 1 <= channels input ->
  well_sized input -> fits_int input ->
  1 <= nw -> 1 <= nh -> nw * nh * channels input <= INT_MAX ->
  exists out,
    resizeImage input nw nh = Returned out /\
    well_sized out /\
    width out = nw /\ height out = nh /\ channels out = channels input.
Proof.
  intros Hw Hh Hc Hs Hf Hnw Hnh Hn.
  destruct (resizeImage_spec input Hw Hh Hc Hs Hf nw nh Hnw Hnh Hn)
    as [out [E [L _]]].
  eexists. split; [exact E|]. unfold well_sized. cbn. auto.
Qed.

Lemma convertToGrayscale_well_sized (input : ImageData) :
  1 <= width input -> 1 <= height input -> 1 <= channels input ->
  well_sized input -> fits_int input ->
  exists out,
    convertToGrayscale input = Returned out /\
    well_sized out /\
    width out = width input /\ height out = height input /\ channels out = 1.
Proof.
  intros Hw Hh Hc Hs Hf.
  destruct (convertToGrayscale_spec input Hw Hh Hc Hs Hf) as [out [E [L _]]].
  eexists. split; [exact E|]. unfold well_sized. cbn. repeat split; lia.
Qed.

(** The data of what [parseSimpleImage] returns, by the dimensions it
    settles on (read or guessed): the bytes behind the header when the
    input holds them all, and otherwise the whole input. *)
Lemma parse_payload (bytes : list Z) (img : ImageData) :
  parseSimpleImage bytes = Returned img ->
  0 <= width img -> 0 <= height img -> 1 <= channels img ->
  12 + width img * height img * channels img <= INT_MAX ->
  data img
  = if 12 + width img * height img * channels img <=? vec_size bytes
    then firstn (Z.to_nat (width img * height img * channels img))
                (skipn 12 bytes)
    else bytes.
Proof.
  unfold parseSimpleImage.
  destruct (Z.ltb_spec (vec_size bytes) 12) as [|Hs]; [discriminate|].
  destruct (readInt bytes 0) as [w0| |]; try discriminate.
  destruct (readInt bytes 4) as [h0| |]; try discriminate.
  destruct (readInt bytes 8) as [c0| |]; try discriminate.
  cbn [bind].
  destruct (if header_invalid w0 h0 c0 then guess_dimensions (vec_size bytes)
            else (w0, h0, c0)) as [[w h] c].
  destruct (Z.leb_spec (expectedSize w h c) (vec_size bytes)) as [Hle|Hgt].
  - destruct (assign_range bytes 12 (expectedSize w h c)) as [p| |] eqn:Ea;
      try discriminate.
    cbn [bind]. intros E. apply Returned_inj in E. subst img.
    cbv beta iota delta [width height channels data].
    intros Hw Hh Hc Hfit.
    assert (0 <= w * h) by (apply Z.mul_nonneg_nonneg; lia).
    assert (w * h <= w * h * c) by nia.
    rewrite expectedSize_exact in Ea, Hle by (unfold INT_MAX in *; lia).
    rewrite assign_range_defined in Ea by lia.
    destruct (Z.leb_spec (12 + w * h * c) (vec_size bytes)); [|lia].
    apply Returned_inj in Ea. subst p.
    replace (12 + w * h * c - 12) with (w * h * c) by lia. reflexivity.
  - destruct (assign_range bytes 0 (vec_size bytes)) as [p| |] eqn:Ea;
      try discriminate.
    cbn [bind]. intros E. apply Returned_inj in E. subst img.
    cbv beta iota delta [width height channels data].
    intros Hw Hh Hc Hfit.
    assert (0 <= w * h) by (apply Z.mul_nonneg_nonneg; lia).
    assert (w * h <= w * h * c) by nia.
    rewrite expectedSize_exact in Hgt by (unfold INT_MAX in *; lia).
    destruct (Z.leb_spec (12 + w * h * c) (vec_size bytes)); [lia|].
    rewrite assign_range_all in Ea. now apply Returned_inj in Ea.
Qed.

(** ** The size invariant *)

(** C5, as the code has it.  [resizeImage] (to positive dimensions whose
    byte count fits an [int]) and [convertToGrayscale], on a well-sized
    source whose byte count fits an [int], return a buffer with exactly
    width * height * channels bytes.  For the dimensions it returns,
    [parseSimpleImage] returns such a buffer whenever the input is at
    least 12 + width * height * channels bytes long: the data are the
    bytes behind the header.  On a shorter input the data are the whole
    input, header included, and the buffer has width * height * channels
    bytes only if the input happens to be that long. *)
Theorem produced_buffers_well_sized :
  (forall bytes img,
     parseSimpleImage bytes = Returned img ->
     0 <= width img -> 0 <= height img -> 1 <= channels img ->
     12 + width img * height img * channels img <= INT_MAX ->
     (12 + width img * height img * channels img <= vec_size bytes ->
      data img = firstn (Z.to_nat (width img * height img * channels img))
                        (skipn 12 bytes) /\
      well_sized img) /\
     (vec_size bytes < 12 + width img * height img * channels img ->
      data img = bytes /\
      (well_sized img <->
       vec_size bytes = width img * height img * channels img))) /\
  (forall input nw nh,
     1 <= width input -> 1 <= height input -> 1 <= channels input ->
     well_sized input -> fits_int input ->
     1 <= nw -> 1 <= nh -> nw * nh * channels input <= INT_MAX ->
     exists out, resizeImage input nw nh = Returned out /\ well_sized out) /\
  (forall input,
     1 <= width input -> 1 <= height input -> 1 <= channels input ->
     well_sized input -> fits_int input ->
     exists out, convertToGrayscale input = Returned out /\ well_sized out).
Proof.
  split; [|split].
  - intros bytes img E Hw Hh Hc Hfit.
    pose proof (parse_payload bytes img E Hw Hh Hc Hfit) as P.
    split; intros Hlen.
    + split; [|now apply (parse_well_sized bytes)].
      destruct (Z.leb_spec (12 + width img * height img * channels img)
                  (vec_size bytes)); [exact P | lia].
    + destruct (Z.leb_spec (12 + width img * height img * channels img)
                  (vec_size bytes)); [lia|].
      split; [exact P|]. unfold well_sized. now rewrite P.
  - intros input nw nh Hw Hh Hc Hs Hf Hnw Hnh Hn.
    destruct (resizeImage_well_sized input nw nh) as [out [E [W _]]]; eauto.
  - intros input Hw Hh Hc Hs Hf.
    destruct (convertToGrayscale_well_sized input) as [out [E [W _]]]; eauto.
Qed.

Lemma produced_buffers_well_sized_witness :
  (data (mkImage [255; 0; 0; 0; 255; 0] 2 1 3)
   = firstn (Z.to_nat (2 * 1 * 3)) (skipn 12 two_pixels) /\
   well_sized (mkImage [255; 0; 0; 0; 255; 0] 2 1 3)) /\
  (data (mkImage header_only 1 1 1) = header_only /\
   (well_sized (mkImage header_only 1 1 1) <->
    vec_size header_only = 1 * 1 * 1)) /\
  (exists out, resizeImage (mkImage [10; 20; 30; 40] 2 2 1) 1 1 = Returned out /\
               well_sized out) /\
  (exists out, convertToGrayscale (mkImage [255; 0; 0; 0; 255; 0] 2 1 3)
               = Returned out /\ well_sized out).
Proof.
  assert (B1 : 12 + width (mkImage [255; 0; 0; 0; 255; 0] 2 1 3)
                    * height (mkImage [255; 0; 0; 0; 255; 0] 2 1 3)
                    * channels (mkImage [255; 0; 0; 0; 255; 0] 2 1 3)
               <= INT_MAX) by (vm_compute; discriminate).
  assert (B2 : 12 + width (mkImage header_only 1 1 1)
                    * height (mkImage header_only 1 1 1)
                    * channels (mkImage header_only 1 1 1) <= INT_MAX)
    by (vm_compute; discriminate).
  split; [|split; [|split]].
  - apply (proj1 (proj1 produced_buffers_well_sized two_pixels
                    (mkImage [255; 0; 0; 0; 255; 0] 2 1 3) eq_refl
                    ltac:(cbn [width]; lia) ltac:(cbn [height]; lia)
                    ltac:(cbn [channels]; lia) B1)).
    vm_compute. discriminate.
  - apply (proj2 (proj1 produced_buffers_well_sized header_only
                    (mkImage header_only 1 1 1) eq_refl
                    ltac:(cbn [width]; lia) ltac:(cbn [height]; lia)
                    ltac:(cbn [channels]; lia) B2)).
    vm_compute. reflexivity.
  - apply (proj1 (proj2 produced_buffers_well_sized)
             (mkImage [10; 20; 30; 40] 2 2 1) 1 1);
      try reflexivity; vm_compute; discriminate.
  - apply (proj2 (proj2 produced_buffers_well_sized)
             (mkImage [255; 0; 0; 0; 255; 0] 2 1 3));
      try reflexivity; vm_compute; discriminate.
Defined.

(** C5 as stated fails on [header_only]: the decoder accepts it and returns
    a 1 x 1 single-channel buffer of twelve bytes. *)
Lemma decode_returns_ill_sized :
  parseSimpleImage header_only = Returned (mkImage header_only 1 1 1) /\
  ~ well_sized (mkImage header_only 1 1 1).
Proof. split; [reflexivity | discriminate]. Qed.

(** ** The target dimensions *)

(** C9.  For positive source dimensions and bounds with the source inside
    the bounds, the dimension computation returns the source dimensions
    unchanged. *)
Theorem dimensions_unchanged_within_bounds (srcW srcH maxW maxH : Z) :
  0 < srcW -> 0 < srcH -> 0 < maxW -> 0 < maxH ->
  srcW <= maxW -> srcH <= maxH ->
  computeTargetDimensions srcW srcH maxW maxH = (srcW, srcH).
Proof.
  intros _ _ _ _ Hw Hh. unfold computeTargetDimensions.
  destruct (Z.ltb_spec maxW srcW); [lia|].
  destruct (Z.ltb_spec maxH srcH); [lia|]. reflexivity.
Qed.

Lemma dimensions_unchanged_within_bounds_witness :
  computeTargetDimensions 640 480 800 600 = (640, 480).
Proof. apply dimensions_unchanged_within_bounds; lia. Defined.




(** ** Beyond 2^24 pixels in a row *)

Section WideRow.
Variable d0 : list Z.
Hypothesis Hsize : vec_size d0 = 16777217.
Hypothesis Hzero : forall i, 0 <= i < 16777217 -> vec_get d0 i = Returned 0.

Lemma wide_getPixel_before_last :
  getPixel (d0 ++ [255]) 16777218 1 1 16777216 0 0 = Returned 0.
Proof.
  unfold getPixel.
  replace ((16777216 <? 0) || (16777218 <=? 16777216) || (0 <? 0) || (1 <=? 0))
    with false by reflexivity.
  replace (int_add (int_mul (int_add (int_mul 0 16777218) 16777216) 1) 0)
    with 16777216 by reflexivity.
  rewrite vec_get_app_l by (rewrite Hsize; lia). apply Hzero. lia.
Qed.

Lemma wide_getPixel_last :
  getPixel (d0 ++ [255]) 16777218 1 1 16777217 0 0 = Returned 255.
Proof.
  unfold getPixel.
  replace ((16777217 <? 0) || (16777218 <=? 16777217) || (0 <? 0) || (1 <=? 0))
    with false by reflexivity.
  replace (int_add (int_mul (int_add (int_mul 0 16777218) 16777217) 1) 0)
    with 16777217 by reflexivity.
  rewrite vec_get_app_r by (rewrite Hsize; lia). rewrite Hsize. reflexivity.
Qed.

(** The last output pixel is sampled at x = 16777217, which no float
    holds: the coordinate rounds to 16777216 and the pixel before the last
    is read. *)
Lemma wide_sample_last :
  resize_sample (mkImage (d0 ++ [255]) 16777218 1 1) 16777218 1 16777217
  = Returned 0.
Proof.
  unfold resize_sample. cbn [channels width height data].
  replace ((16777217 / 1) mod 16777218) with 16777217 by reflexivity.
  replace (16777217 / 1 / 16777218) with 0 by reflexivity.
  replace (16777217 mod 1) with 0 by reflexivity.
  replace (fmul (float_of_int 16777217)
             (fdiv (float_of_int 16777218) (float_of_int 16777218)))
    with (S754_finite false 8388608 1) by reflexivity.
  replace (fmul (float_of_int 0) (fdiv (float_of_int 1) (float_of_int 1)))
    with (S754_zero false) by reflexivity.
  unfold bilinearInterpolate, bilinearValue. cbv zeta.
  replace (int_of_float (ffloor (S754_finite false 8388608 1)))
    with 16777216 by reflexivity.
  replace (int_of_float (ffloor (S754_zero false))) with 0 by reflexivity.
  replace (Z.min (int_add 16777216 1) (int_sub 16777218 1))
    with 16777217 by reflexivity.
  replace (Z.min (int_add 0 1) (int_sub 1 1)) with 0 by reflexivity.
  rewrite wide_getPixel_before_last, wide_getPixel_last. cbn [bind].
  reflexivity.
Qed.

Lemma wide_row_changed :
  Forall is_byte d0 ->
  valid_buffer (mkImage (d0 ++ [255]) 16777218 1 1) /\
  fits_int (mkImage (d0 ++ [255]) 16777218 1 1) /\
  resizeImage (mkImage (d0 ++ [255]) 16777218 1 1) 16777218 1
  <> Returned (mkImage (d0 ++ [255]) 16777218 1 1).
Proof.
  intros Hb.
  assert (Hs : well_sized (mkImage (d0 ++ [255]) 16777218 1 1)).
  { unfold well_sized. cbn [data width height channels].
    rewrite vec_size_app, Hsize. reflexivity. }
  assert (Hf : fits_int (mkImage (d0 ++ [255]) 16777218 1 1)).
  { unfold fits_int, INT_MAX. cbn [width height channels]. lia. }
  split; [|split; [exact Hf|]].
  - unfold valid_buffer. cbn [data width height channels].
    repeat split; try lia; try exact Hs.
    apply Forall_app. split; [exact Hb|].
    apply Forall_cons; [unfold is_byte; lia | apply Forall_nil].
  - destruct (resizeImage_spec (mkImage (d0 ++ [255]) 16777218 1 1)
                ltac:(cbn [width]; lia) ltac:(cbn [height]; lia)
                ltac:(cbn [channels]; lia) Hs Hf 16777218 1
                ltac:(lia) ltac:(lia)
                ltac:(cbn [channels]; unfold INT_MAX; lia))
      as [out [E [L S]]].
    cbn [width height channels] in *.
    rewrite E. intros Eq. injection Eq as Eq.
    destruct (S 16777217 ltac:(lia)) as [v [Sv [_ Gv]]].
    rewrite wide_sample_last in Sv. injection Sv as <-.
    rewrite Eq in Gv.
    rewrite vec_get_app_r in Gv by (rewrite Hsize; lia).
    rewrite Hsize in Gv. discriminate.
Qed.

End WideRow.

(** ** Resizing *)

(** C8, as the code has it.  For every well-formed source whose byte count
    fits an [int] and positive target dimensions with dstW * dstH *
    channels at most [INT_MAX], [resizeImage] returns a buffer of exactly
    dstW * dstH * channels bytes with the channel count of the source.
    When the target dimensions are those of the source and neither exceeds
    2^24 = 16777216 (so that every pixel coordinate is a float), the
    buffer returned is the source itself. *)
Theorem resize_shape_and_identity :
  (forall input dstW dstH,
     valid_buffer input -> fits_int input ->
     1 <= dstW -> 1 <= dstH -> dstW * dstH * channels input <= INT_MAX ->
     exists out,
       resizeImage input dstW dstH = Returned out /\
       vec_size (data out) = dstW * dstH * channels input /\
       channels out = channels input) /\
  (forall input,
     valid_buffer input -> fits_int input ->
     width input <= 16777216 -> height input <= 16777216 ->
     resizeImage input (width input) (height input) = Returned input).
Proof.
  split.
  - intros input dstW dstH [Hw [Hh [Hc [Hs Hb]]]] Hf HdW HdH Hn.
    destruct (resizeImage_spec input Hw Hh ltac:(lia) Hs Hf dstW dstH HdW HdH Hn)
      as [out [E [L _]]].
    eexists. split; [exact E|]. cbn [data channels]. auto.
  - intros input Hv Hf Hw Hh. now apply resizeImage_identity.
Qed.

Lemma resize_shape_and_identity_witness :
  (exists out,
     resizeImage (mkImage [10; 20; 30; 40] 2 2 1) 3 3 = Returned out /\
     vec_size (data out) = 3 * 3 * 1 /\ channels out = 1) /\
  resizeImage (mkImage [10; 20; 30; 40] 2 2 1) 2 2
  = Returned (mkImage [10; 20; 30; 40] 2 2 1).
Proof.
  assert (Hv : valid_buffer (mkImage [10; 20; 30; 40] 2 2 1)).
  { unfold valid_buffer, well_sized. cbn [data width height channels].
    repeat split; try lia.
    repeat (apply Forall_cons; [unfold is_byte; lia|]). apply Forall_nil. }
  assert (Hf : fits_int (mkImage [10; 20; 30; 40] 2 2 1))
    by (vm_compute; discriminate).
  split.
  - apply (proj1 resize_shape_and_identity (mkImage [10; 20; 30; 40] 2 2 1) 3 3);
      try assumption; try lia; vm_compute; discriminate.
  - apply (proj2 resize_shape_and_identity (mkImage [10; 20; 30; 40] 2 2 1));
      try assumption; vm_compute; discriminate.
Defined.

(** C8 as stated fails twice.  Resizing a 1 x 1 image to 65536 x 65536
    makes the byte count wrap to 0 and the first store fall outside the
    vector.  Resizing [wide_row], a well-formed single row of 16777218
    pixels, to its own dimensions returns different bytes. *)
Lemma resize_overflow_and_drift :
  resizeImage (mkImage [7] 1 1 1) 65536 65536 = Undefined /\
  valid_buffer wide_row /\ fits_int wide_row /\
  resizeImage wide_row (width wide_row) (height wide_row) <> Returned wide_row.
Proof.
  split; [reflexivity|].
  change (width wide_row) with 16777218. change (height wide_row) with 1.
  unfold wide_row.
  assert (Hs : vec_size (repeat 0 (Z.to_nat 16777217)) = 16777217)
    by (apply vec_size_repeat; discriminate).
  assert (Hz : forall i, 0 <= i < 16777217 ->
               vec_get (repeat 0 (Z.to_nat 16777217)) i = Returned 0)
    by (intros i Hi; now apply vec_get_repeat).
  assert (Hb : Forall is_byte (repeat 0 (Z.to_nat 16777217))).
  { apply Forall_forall. intros b Hin. apply repeat_spec in Hin. subst b.
    unfold is_byte. split; [reflexivity | reflexivity]. }
  revert Hs Hz Hb. generalize (repeat 0 (Z.to_nat 16777217)).
  intros d0 Hs Hz Hb. now apply wide_row_changed.
Qed.

(** ** Grayscale *)

(** C7, as the code has it.  For every well-formed buffer with three or
    four channels whose byte count fits an [int], [convertToGrayscale]
    returns a one-channel buffer of the same dimensions, and the byte of
    each pixel is the integer part (toward zero, never wrapped) of the
    luminance computed in binary32 from the first three channels: each
    product and each sum is rounded, so that the float is within 1/4000 of
    0.299 R + 0.587 G + 0.114 B.  The single pixels (255,0,0), (0,255,0)
    and (0,0,255) give 76, 149 and 29. *)
Theorem grayscale_truncated_luminance :
  (forall input : ImageData,
     valid_buffer input -> fits_int input -> 3 <= channels input ->
     exists out,
       convertToGrayscale input
       = Returned (mkImage out (width input) (height input) 1) /\
       vec_size out = width input * height input /\
       forall i, 0 <= i < width input * height input ->
         let r := byte_at (data input) (i * channels input) in
         let g := byte_at (data input) (i * channels input + 1) in
         let b := byte_at (data input) (i * channels input + 2) in
         exists z,
           vec_get out i = Returned z /\ 0 <= z <= 255 /\
           float_trunc (luminance r g b) = Some z /\
           (IZR z <= Rmax 0 (B2R (luminance r g b)) < IZR z + 1)%R /\
           (Rabs (B2R (luminance r g b)
                  - (299 * IZR r + 587 * IZR g + 114 * IZR b) / 1000)
            <= / 4000)%R) /\
  convertToGrayscale (mkImage [255; 0; 0] 1 1 3)
  = Returned (mkImage [76] 1 1 1) /\
  convertToGrayscale (mkImage [0; 255; 0] 1 1 3)
  = Returned (mkImage [149] 1 1 1) /\
  convertToGrayscale (mkImage [0; 0; 255] 1 1 3)
  = Returned (mkImage [29] 1 1 1).
Proof.
  split; [|repeat split; vm_compute; reflexivity].
  intros input [Hw [Hh [Hc [Hs Hb]]]] Hf H3.
  destruct (convertToGrayscale_spec input Hw Hh ltac:(lia) Hs Hf)
    as [out [E [L G]]].
  exists out. split; [exact E|]. split; [exact L|].
  intros i Hi. cbv zeta.
  set (r := byte_at (data input) (i * channels input)).
  set (g := byte_at (data input) (i * channels input + 1)).
  set (b := byte_at (data input) (i * channels input + 2)).
  assert (Br : is_byte r) by (apply byte_at_range, Hb).
  assert (Bg : is_byte g) by (apply byte_at_range, Hb).
  assert (Bb : is_byte b) by (apply byte_at_range, Hb).
  destruct (luminance_byte r g b Br Bg Bb) as [z [T [B [U V]]]].
  exists z. split.
  - rewrite (G i Hi). unfold gray_pixel.
    destruct (Z.leb_spec 3 (channels input)); [|lia].
    fold r g b. now rewrite U.
  - split; [exact B|]. split; [exact T|]. split; [exact V|].
    apply (luminance_within r g b Br Bg Bb).
Qed.

Lemma grayscale_truncated_luminance_witness :
  exists out,
    convertToGrayscale (mkImage [255; 0; 0; 0; 255; 0] 2 1 3)
    = Returned (mkImage out 2 1 1) /\
    vec_size out = 2 * 1.
Proof.
  assert (Hv : valid_buffer (mkImage [255; 0; 0; 0; 255; 0] 2 1 3)).
  { unfold valid_buffer, well_sized. cbn [data width height channels].
    repeat split; try lia.
    repeat (apply Forall_cons; [unfold is_byte; lia|]). apply Forall_nil. }
  assert (Hf : fits_int (mkImage [255; 0; 0; 0; 255; 0] 2 1 3))
    by (vm_compute; discriminate).
  destruct (proj1 grayscale_truncated_luminance
              (mkImage [255; 0; 0; 0; 255; 0] 2 1 3) Hv Hf)
    as [out [E [L _]]]; [cbn [channels]; lia|].
  exists out. split; [exact E | exact L].
Defined.

(** C7 as stated fails twice.  The pixel (8,80,32) has the exact luminance
    53 and gets the byte 52: the sum of the three rounded products is just
    below 53.  For a well-formed 46341 x 46341 RGB buffer the pixel count
    wraps to a negative [int], and the allocation of the output throws. *)
Lemma grayscale_rounding_and_overflow :
  convertToGrayscale (mkImage [8; 80; 32] 1 1 3)
  = Returned (mkImage [52] 1 1 1) /\
  ((299 * 8 + 587 * 80 + 114 * 32) / 1000 = 53)%R /\
  valid_buffer giant_rgb /\
  convertToGrayscale giant_rgb = Thrown length_error.
Proof.
  split; [vm_compute; reflexivity|]. split; [lra|].
  unfold giant_rgb.
  assert (Hb : Forall is_byte (repeat 0 (Z.to_nat 6442464843))).
  { apply Forall_forall. intros x Hx. apply repeat_spec in Hx. subst x.
    unfold is_byte. lia. }
  assert (Hs : vec_size (repeat 0 (Z.to_nat 6442464843)) = 6442464843)
    by (apply vec_size_repeat; discriminate).
  revert Hb Hs. generalize (repeat 0 (Z.to_nat 6442464843)). intros l Hb Hs.
  split.
  - unfold valid_buffer, well_sized. cbn [data width height channels].
    repeat split; try lia; assumption.
  - reflexivity.
Qed.

(** ** One sample *)

(** C10, as the code has it.  For every well-formed image whose byte count
    fits an [int], every channel of it and every sample coordinate that is
    a number with 0 <= x <= width - 1 and 0 <= y <= height - 1, the record
    of the run of [bilinearInterpolate] holds four loads and no defensive
    zero: the loads are at the pixels (x1, y1), (x2, y1), (x1, y2) and
    (x2, y2), where x1 and y1 are the integer parts of x and y, x2 is
    x1 + 1 clamped to width - 1 and y2 is y1 + 1 clamped to height - 1; the
    index of each is (py * width + px) * channels + channel, not wrapped,
    and lies inside the vector.  The value interpolated before the cast is
    within 3/1000 of the range of the four bytes loaded (each float
    operation rounds, so it need not lie inside that range); its integer
    part is in [0, 255], and that is the byte returned. *)
Theorem bilinear_sample_in_bounds (input : ImageData) (x y : float) (ch : Z) :
  valid_buffer input -> fits_int input ->
  good x -> good y ->
  float_in_range x (width input - 1) = true ->
  float_in_range y (height input - 1) = true ->
  0 <= ch < channels input ->
  let d := data input in
  let w := width input in
  let h := height input in
  let c := channels input in
  let index := fun px py => (py * w + px) * c + ch in
  exists x1 y1 x2 y2 v z,
    (IZR x1 <= B2R x < IZR x1 + 1)%R /\ (IZR y1 <= B2R y < IZR y1 + 1)%R /\
    x2 = Z.min (x1 + 1) (w - 1) /\ y2 = Z.min (y1 + 1) (h - 1) /\
    (0 <= x1 <= x2 /\ x2 <= w - 1) /\ (0 <= y1 <= y2 /\ y2 <= h - 1) /\
    bilinearValue_logged d w h c x y ch
    = Returned (v, [Loaded x1 y1 (index x1 y1); Loaded x2 y1 (index x2 y1);
                    Loaded x1 y2 (index x1 y2); Loaded x2 y2 (index x2 y2)]) /\
    (forall px py, px = x1 \/ px = x2 -> py = y1 \/ py = y2 ->
       0 <= index px py < vec_size d /\
       int_add (int_mul (int_add (int_mul py w) px) c) ch = index px py) /\
    bilinearValue d w h c x y ch = Returned v /\
    (forall lo hi, 0 <= lo -> hi <= 255 ->
       (forall px py, px = x1 \/ px = x2 -> py = y1 \/ py = y2 ->
          lo <= byte_at d (index px py) <= hi) ->
       (IZR lo - 3 / 1000 <= B2R v <= IZR hi + 3 / 1000)%R) /\
    float_trunc v = Some z /\ 0 <= z <= 255 /\
    bilinearInterpolate d w h c x y ch = Returned z.
Proof.
  intros Hv Hf Gx Gy Hx Hy Hch. cbv zeta.
  pose proof (corner_columns input Hv Hf x Gx Hx) as Cx.
  pose proof (corner_rows input Hv Hf y Gy Hy) as Cy.
  destruct (dimensions_fit input Hv Hf) as [Fw Fh].
  destruct (floor_spec x (width input - 1) Gx Hx ltac:(lia)) as [Bx [Rx _]].
  destruct (floor_spec y (height input - 1) Gy Hy ltac:(lia)) as [By [Ry _]].
  set (x1 := int_of_float (ffloor x)) in *.
  set (y1 := int_of_float (ffloor y)) in *.
  assert (Ex2 : Z.min (int_add x1 1) (int_sub (width input) 1)
                = Z.min (x1 + 1) (width input - 1)).
  { rewrite int_add_small, int_sub_small
      by (unfold in_int, INT_MIN, INT_MAX in *; lia). reflexivity. }
  assert (Ey2 : Z.min (int_add y1 1) (int_sub (height input) 1)
                = Z.min (y1 + 1) (height input - 1)).
  { rewrite int_add_small, int_sub_small
      by (unfold in_int, INT_MIN, INT_MAX in *; lia). reflexivity. }
  set (x2 := Z.min (int_add x1 1) (int_sub (width input) 1)) in *.
  set (y2 := Z.min (int_add y1 1) (int_sub (height input) 1)) in *.
  assert (Hall : forall px py : Z,
    px = x1 \/ px = x2 -> py = y1 \/ py = y2 ->
    0 <= byte_at (data input) ((py * width input + px) * channels input + ch)
    <= 255).
  { intros px py Px Py.
    destruct (corner_read input Hv Hf x y Gx Gy Hx Hy ch Hch px py Px Py)
      as [_ [B [_ [_ E]]]].
    rewrite B in E. unfold is_byte in E. lia. }
  destruct (bilinearValue_within input Hv Hf x y Gx Gy Hx Hy ch Hch 0 255
              ltac:(lia) ltac:(lia) Hall) as [v [Ev [Gv Vv]]].
  destruct (float_trunc_byte v Gv ltac:(lra)) as [z [T B]].
  exists x1, y1, x2, y2, v, z.
  split; [exact Rx|]. split; [exact Ry|].
  split; [exact Ex2|]. split; [exact Ey2|].
  split; [lia|]. split; [lia|]. split.
  { apply (bilinearValue_logged_corners input Hv Hf x y Gx Gy Hx Hy ch Hch).
    exact Ev. }
  split.
  { intros px py Px Py.
    destruct (corner_read input Hv Hf x y Gx Gy Hx Hy ch Hch px py Px Py)
      as [_ [I [C _]]].
    rewrite I in C. split; [exact C | exact I]. }
  split; [exact Ev|]. split.
  { intros lo hi Hlo Hhi Hr.
    destruct (bilinearValue_within input Hv Hf x y Gx Gy Hx Hy ch Hch lo hi
                Hlo Hhi Hr) as [v' [Ev' [_ Vv']]].
    assert (v' = v) by congruence. subst v'. exact Vv'. }
  split; [exact T|]. split; [exact B|].
  unfold bilinearInterpolate. rewrite Ev. cbn [bind].
  unfold uint8_of_float, int_of_float. rewrite T.
  destruct (Z.leb_spec INT_MIN z); [|unfold INT_MIN in *; lia].
  destruct (Z.leb_spec z INT_MAX); [|unfold INT_MAX in *; lia].
  cbn [andb]. now rewrite to_uint8_small by lia.
Qed.

Lemma bilinear_sample_in_bounds_witness :
  exists v z,
    bilinearValue_logged [10; 20; 30; 40] 2 2 1 f_half f_one 0
    = Returned (v, [Loaded 0 1 2; Loaded 1 1 3; Loaded 0 1 2; Loaded 1 1 3]) /\
    float_trunc v = Some z /\ 0 <= z <= 255 /\
    bilinearInterpolate [10; 20; 30; 40] 2 2 1 f_half f_one 0 = Returned z.
Proof.
  assert (Hv : valid_buffer (mkImage [10; 20; 30; 40] 2 2 1)).
  { unfold valid_buffer, well_sized. cbn [data width height channels].
    repeat split; try lia.
    repeat (apply Forall_cons; [unfold is_byte; lia|]). apply Forall_nil. }
  assert (Hf : fits_int (mkImage [10; 20; 30; 40] 2 2 1))
    by (vm_compute; discriminate).
  destruct (bilinear_sample_in_bounds (mkImage [10; 20; 30; 40] 2 2 1)
              f_half f_one 0 Hv Hf)
    as (x1 & y1 & x2 & y2 & v & z & _ & _ & _ & _ & _ & _ & L & _ & _ & _
          & T & B & E);
    try reflexivity; [cbn [channels]; lia|].
  exists v, z. cbn [data width height channels] in L, E.
  split; [|auto].
  assert (Ec : bilinearValue_logged [10; 20; 30; 40] 2 2 1 f_half f_one 0
               = Returned (S754_finite false 9175040 (-18),
                           [Loaded 0 1 2; Loaded 1 1 3; Loaded 0 1 2;
                            Loaded 1 1 3])) by (vm_compute; reflexivity).
  rewrite Ec in L. rewrite Ec. congruence.
Defined.

(** C10 as stated fails twice.  In a 2 x 2 image whose four bytes are 7,
    the sample at (0.1, 0) is 6, which is no convex combination of the
    four bytes: the products are rounded and their sum is just below 7.
    In a well-formed 65536 x 32769 image the index of the first pixel of
    the last row wraps to a negative [int], and the read at the sample
    (0, 32768) is outside the vector. *)
Lemma bilinear_rounding_and_overflow :
  bilinearInterpolate [7; 7; 7; 7] 2 2 1 f_tenth (float_of_int 0) 0
  = Returned 6 /\
  float_in_range f_tenth (2 - 1) = true /\
  valid_buffer tall_buffer /\
  float_in_range (float_of_int 0) (width tall_buffer - 1) = true /\
  float_in_range (float_of_int 32768) (height tall_buffer - 1) = true /\
  bilinearInterpolate (data tall_buffer) (width tall_buffer)
    (height tall_buffer) (channels tall_buffer)
    (float_of_int 0) (float_of_int 32768) 0 = Undefined.
Proof.
  split; [vm_compute; reflexivity|]. split; [reflexivity|].
  unfold tall_buffer.
  assert (Hb : Forall is_byte (repeat 0 (Z.to_nat 2147549184))).
  { apply Forall_forall. intros b Hin. apply repeat_spec in Hin. subst b.
    unfold is_byte. lia. }
  assert (Hs : vec_size (repeat 0 (Z.to_nat 2147549184)) = 2147549184)
    by (apply vec_size_repeat; discriminate).
  revert Hb Hs. generalize (repeat 0 (Z.to_nat 2147549184)). intros l Hb Hs.
  cbn [data width height channels].
  split.
  { unfold valid_buffer, well_sized. cbn [data width height channels].
    repeat split; try lia; assumption. }
  split; [reflexivity|]. split; [reflexivity|].
  vm_compute. reflexivity.
Qed.

(** ** Replies, failures and timeouts *)

(** C6, as the code has it.  [processImageQueue] returns
    [processedImages], a list of output paths, not one record per job.
    Whatever the workers and the timers do, every entry is the output
    path of a reply that reported success, and there are never more
    entries than files submitted.  With at least one worker, no empty
    file name and no timer firing, for any number of workers: the list
    holds, up to order, exactly the output paths of the calls that were
    resolved; a call is resolved only by a reply of its worker that
    reported success, and rejected only by a reply of its worker that
    reported failure or by an error its worker emitted; and when the list
    is returned, every submitted file was dispatched once, in order,
    every call is settled, and the entries and the rejected calls
    together are as many as the files: one entry per job that succeeded
    and none for a job that failed.  When every event is a reply or an
    error of a worker that is busy with a call at that moment, the
    entries are the output paths of the replies that reported success, in
    the order in which the replies arrive.  With one worker and one
    timely reply per file that is the order of the files. *)
Theorem results_cover_successes_only :
  (forall workerCount imageFiles events,
     let st := run workerCount imageFiles events in
     (length (processedImages st) <= length imageFiles)%nat /\
     forall p, In p (processedImages st) ->
       exists w r, In (Message w r) events /\ r_success r = true /\
                   r_outputPath r = p) /\
  (forall workerCount imageFiles events,
     (1 <= workerCount)%nat ->
     Forall (fun f => f <> EmptyString) imageFiles ->
     Forall (fun e => is_timer e = false) events ->
     let st := run workerCount imageFiles events in
     Permutation (processedImages st) (outputs (calls st)) /\
     map c_imageFile (calls st) ++ pendingQueue st = imageFiles /\
     (forall id c, nth_error (calls st) id = Some c ->
        match c_promise c with
        | Pending => returned st = None
        | Resolved r =>
            r_success r = true /\ In (Message (c_worker c) r) events
        | Rejected (ReplyError m) =>
            exists r, r_success r = false /\ r_error r = m /\
                      In (Message (c_worker c) r) events
        | Rejected (EmittedError m) => In (WorkerError (c_worker c) m) events
        | Rejected (TimeoutError _ _) => False
        end) /\
     forall l, returned st = Some l ->
       l = processedImages st /\
       map c_imageFile (calls st) = imageFiles /\
       Forall (fun c => c_promise c <> Pending) (calls st) /\
       (length l + length (filter is_rejected (calls st))
        = length imageFiles)%nat) /\
  (forall workerCount imageFiles events,
     answered workerCount imageFiles events ->
     processedImages (run workerCount imageFiles events) = delivered events) /\
  (forall imageFiles replies,
     Forall (fun f => f <> EmptyString) imageFiles ->
     length replies = length imageFiles ->
     returned (run 1 imageFiles (map (Message 0) replies))
     = Some (map r_outputPath (filter r_success replies))).
Proof.
  split; [|split; [|split]].
  - intros workerCount imageFiles events st.
    destruct (run_counted workerCount imageFiles events) as [[C1 [C2 C3]] Hs].
    fold st in C1, C2, C3, Hs. split; [lia | exact Hs].
  - intros workerCount imageFiles events Hw Hf Hev st.
    destruct (run_accounted workerCount imageFiles events Hf Hev)
      as [HA [HB _]].
    destruct (run_conserved workerCount imageFiles events Hf) as [C1 _].
    fold st in HA, HB, C1.
    split; [exact HA|]. split; [exact C1|]. split.
    + intros id c E. specialize (HB id c E). unfold explained in HB.
      destruct (c_promise c) as [|r|[wi f|m|m]]; try exact HB.
      unfold returned.
      destruct (forallb _ (awaiting st)) eqn:Hall; [|reflexivity].
      rewrite (nth_all_none _ _ Hall) in HB. discriminate.
    + intros l Hret.
      exact (returned_accounted workerCount imageFiles events l Hw Hf Hev Hret).
  - apply run_delivered.
  - apply single_worker_run.
Qed.

Lemma results_cover_successes_only_witness :
  let st := run 2 ["in/a.jpg"; "in/b.jpg"; "in/c.jpg"]%string
              [Message 1 reply_b; Message 0 reply_failed; Message 1 reply_a] in
  (returned st = Some ["out/b.jpg"; "out/a.jpg"]%string /\
   map c_imageFile (calls st) = ["in/a.jpg"; "in/b.jpg"; "in/c.jpg"]%string /\
   (2 + length (filter is_rejected (calls st)) = 3)%nat) /\
  processedImages st
  = delivered [Message 1 reply_b; Message 0 reply_failed; Message 1 reply_a] /\
  returned (run 1 ["in/a.jpg"; "in/b.jpg"]%string
              (map (Message 0) [reply_failed; reply_a]))
  = Some ["out/a.jpg"%string].
Proof.
  cbv zeta.
  assert (Hf : Forall (fun f => f <> EmptyString)
                 ["in/a.jpg"; "in/b.jpg"; "in/c.jpg"]%string)
    by (repeat constructor; discriminate).
  assert (Hev : Forall (fun e => is_timer e = false)
                  [Message 1 reply_b; Message 0 reply_failed;
                   Message 1 reply_a])
    by (repeat constructor).
  assert (Ha : answered 2 ["in/a.jpg"; "in/b.jpg"; "in/c.jpg"]%string
                 [Message 1 reply_b; Message 0 reply_failed;
                  Message 1 reply_a]).
  { intros pre e post E.
    destruct pre as [|e1 [|e2 [|e3 pre]]]; cbn [app] in E.
    - injection E as <- <-. exists 1%nat, 1%nat. split; reflexivity.
    - injection E as <- <- <-. exists 0%nat, 0%nat. split; reflexivity.
    - injection E as <- <- <- <-. exists 1%nat, 2%nat. split; reflexivity.
    - exfalso. injection E as _ _ _ E. destruct pre; discriminate. }
  split; [|split].
  - destruct (proj1 (proj2 results_cover_successes_only) 2%nat
                ["in/a.jpg"; "in/b.jpg"; "in/c.jpg"]%string
                [Message 1 reply_b; Message 0 reply_failed; Message 1 reply_a]
                (Nat.le_succ_diag_r 1) Hf Hev) as [_ [_ [_ R]]].
    destruct (R ["out/b.jpg"; "out/a.jpg"]%string eq_refl) as [_ [F [_ N]]].
    split; [reflexivity|]. split; [exact F | exact N].
  - apply (proj1 (proj2 (proj2 results_cover_successes_only)) 2%nat
             ["in/a.jpg"; "in/b.jpg"; "in/c.jpg"]%string
             [Message 1 reply_b; Message 0 reply_failed; Message 1 reply_a] Ha).
  - apply (proj2 (proj2 (proj2 results_cover_successes_only))
             ["in/a.jpg"; "in/b.jpg"]%string [reply_failed; reply_a]).
    + repeat constructor; discriminate.
    + reflexivity.
Defined.

(** C6 as stated fails for one job whose worker reports a failure: the list
    returned is empty, not one record long. *)
Lemma failed_job_has_no_record :
  returned (run 1 ["in/a.jpg"%string] [Message 0 reply_failed]) = Some [] /\
  length (@nil string) <> length ["in/a.jpg"%string].
Proof. split; [reflexivity | discriminate]. Qed.

(** C4 at its failing input.  One worker, two files; the timer of the
    first call fires, the loop dispatches the second file, then the reply
    to the first file arrives.  The first call stays rejected, but its
    handler is still registered: the reply is counted twice, its output
    path is pushed twice, and the second call is resolved with it although
    its own reply never came. *)
Theorem late_reply_is_not_discarded :
  let st := run 1 ["in/a.jpg"; "in/b.jpg"]%string [TimerFired 0; Message 0 reply_a] in
  promise_of st 0 = Some (Rejected (TimeoutError 0 "in/a.jpg")) /\
  promise_of st 1 = Some (Resolved reply_a) /\
  completedJobs st = 2 /\
  processedImages st = ["out/a.jpg"; "out/a.jpg"]%string /\
  returned st = Some ["out/a.jpg"; "out/a.jpg"]%string.
Proof. repeat split. Qed.

(** * Further lemmas *)

(** ** The transform engine and the pipeline *)

(** The integer part of a number near an interval of integers. *)
Lemma trunc_near_range (v : R) (z lo hi : Z) :
  0 <= lo <= hi ->
  (IZR z <= Rmax 0 v < IZR z + 1)%R ->
  (IZR lo - / 2 <= v <= IZR hi + / 2)%R ->
  lo - 1 <= z <= hi.
Proof.
  intros Hlo Hz Hv.
  assert (R0 : (0 <= IZR lo)%R) by (apply IZR_le; lia).
  destruct (Rle_dec 0 v) as [L|L];
    [rewrite Rmax_right in Hz by lra | rewrite Rmax_left in Hz by lra].
  - assert (H1 : (IZR z < IZR (hi + 1))%R) by (rewrite plus_IZR; lra).
    assert (H2 : (IZR (lo - 2) < IZR z)%R) by (rewrite minus_IZR; lra).
    apply lt_IZR in H1, H2. lia.
  - assert (H1 : (IZR z < IZR 1)%R) by lra.
    assert (H2 : (IZR (-1) < IZR z)%R) by lra.
    assert (H3 : (IZR lo < IZR 1)%R) by lra.
    apply lt_IZR in H1, H2, H3. lia.
Qed.

Lemma float_trunc_floor (f : float) (z : Z) :
  good f -> float_trunc f = Some z -> (-1 < B2R f)%R ->
  (IZR z <= Rmax 0 (B2R f) < IZR z + 1)%R.
Proof.
  intros G T Hlo. destruct (float_trunc_spec f G) as [z' [T' [Sp Sn]]].
  assert (z' = z) by congruence. subst z'.
  destruct (Rle_dec 0 (B2R f)) as [L|L];
    [rewrite Rmax_right by lra | rewrite Rmax_left by lra].
  - apply Sp, L.
  - assert (Hneg : (B2R f <= 0)%R) by lra. specialize (Sn Hneg).
    assert (H1 : (IZR z < IZR 1)%R) by lra.
    assert (H2 : (IZR (-1) < IZR z)%R) by lra.
    apply lt_IZR in H1, H2. assert (z = 0) by lia. subst z. lra.
Qed.

Lemma convertToGrayscale_empty (w h c : Z) :
  w * h = 0 ->
  convertToGrayscale (mkImage [] w h c) = Returned (mkImage [] w h 1).
Proof.
  intros Hz. unfold convertToGrayscale. cbn [data width height channels].
  unfold int_mul. rewrite Hz. reflexivity.
Qed.

Lemma dimensions_fit_unchanged (srcW srcH maxW maxH : Z) :
  srcW <= maxW -> srcH <= maxH ->
  computeTargetDimensions srcW srcH maxW maxH = (srcW, srcH).
Proof.
  intros Hw Hh. unfold computeTargetDimensions.
  destruct (Z.ltb_spec maxW srcW); [lia|].
  destruct (Z.ltb_spec maxH srcH); [lia|]. reflexivity.
Qed.

Lemma convertToGrayscale_single (input : ImageData) :
  1 <= width input -> 1 <= height input -> channels input = 1 ->
  well_sized input -> fits_int input ->
  convertToGrayscale input = Returned input.
Proof.
  intros Hw Hh Hc Hs Hf.
  destruct (convertToGrayscale_spec input Hw Hh ltac:(lia) Hs Hf)
    as [out [E [L G]]].
  rewrite E. destruct input as [d w h c].
  cbn [data width height channels] in *. subst c. do 2 f_equal.
  unfold well_sized in Hs. cbn [data width height channels] in Hs.
  apply vec_ext; [lia|].
  intros i Hi. rewrite G by lia. unfold gray_pixel. cbn [data channels].
  change (3 <=? 1) with false. cbv iota. rewrite Z.mul_1_r.
  symmetry. apply vec_get_byte_at. lia.
Qed.

Lemma ProcessImage_steps (img : ImageData) (maxW maxH : Z) :
  1 <= width img -> 1 <= height img -> 1 <= channels img <= 4 ->
  well_sized img ->
  12 + width img * height img * channels img <= INT_MAX ->
  ProcessImage (encodeAsJPEG img) maxW maxH
  = let run :=
      let '(newWidth, newHeight) :=
        computeTargetDimensions (width img) (height img) maxW maxH in
      let! resizedImage :=
        if negb (newWidth =? width img) || negb (newHeight =? height img)
        then resizeImage img newWidth newHeight
        else Returned img in
      let! grayscaleImage := convertToGrayscale resizedImage in
      Returned (encodeAsJPEG grayscaleImage) in
    match run with
    | Thrown what => Thrown (processing_failed ++ what)
    | r => r
    end.
Proof.
  intros Hw Hh Hc Hs Hn. unfold ProcessImage.
  rewrite (parse_encode img Hw Hh Hc Hs Hn). cbn [bind]. reflexivity.
Qed.

Lemma resizeImage_nothing (input : ImageData) (n : Z) :
  0 <= n <= INT_MAX ->
  resizeImage input 0 n = Returned (mkImage [] 0 n (channels input)) /\
  resizeImage input n 0 = Returned (mkImage [] n 0 (channels input)).
Proof.
  intros Hn.
  assert (Hz : forall a b, a * b = 0 ->
            vec_resize (to_size_t (int_mul (int_mul a b) (channels input)))
            = Returned (@nil Z)).
  { intros a b Hab. unfold int_mul at 2. rewrite Hab.
    change (wrap32 0) with 0. unfold int_mul. rewrite Z.mul_0_l.
    reflexivity. }
  unfold resizeImage. split.
  - rewrite Hz by lia. cbn [bind].
    match goal with |- context [for_loop n ?body ?s] =>
      destruct (for_loop_invariant (fun _ out => out = @nil Z) body n s)
        as [out [E HQ]] end.
    + lia.
    + reflexivity.
    + intros j t Hj ->. eexists. split; reflexivity.
    + rewrite E. cbn [bind]. now subst out.
  - rewrite Hz by lia. reflexivity.
Qed.

(** The pipeline on a well-formed image and a target with positive
    dimensions. *)
Lemma ProcessImage_shape (img : ImageData) (maxW maxH dstW dstH : Z) :
  valid_buffer img ->
  12 + width img * height img * channels img <= INT_MAX ->
  computeTargetDimensions (width img) (height img) maxW maxH = (dstW, dstH) ->
  1 <= dstW -> 1 <= dstH -> 12 + dstW * dstH * channels img <= INT_MAX ->
  exists gray,
    ProcessImage (encodeAsJPEG img) maxW maxH
    = Returned (encodeAsJPEG (mkImage gray dstW dstH 1)) /\
    vec_size gray = dstW * dstH.
Proof.
  intros [Hw [Hh [Hc [Hs Hb]]]] Hn Hdim HdW HdH Hm.
  assert (Hf : fits_int img) by (unfold fits_int; lia).
  assert (Hwh : dstW * dstH * 1 <= dstW * dstH * channels img)
    by (apply Z.mul_le_mono_nonneg_l; nia).
  rewrite (ProcessImage_steps img maxW maxH Hw Hh Hc Hs Hn). cbv zeta.
  rewrite Hdim.
  assert (Hres : exists out,
            (if negb (dstW =? width img) || negb (dstH =? height img)
             then resizeImage img dstW dstH else Returned img)
            = Returned (mkImage out dstW dstH (channels img)) /\
            vec_size out = dstW * dstH * channels img).
  { destruct (Z.eqb_spec dstW (width img)) as [Ew|Ew];
      [destruct (Z.eqb_spec dstH (height img)) as [Eh|Eh]|]; cbn [negb orb].
    - exists (data img). subst dstW dstH. destruct img; split; [reflexivity|].
      exact Hs.
    - destruct (resizeImage_spec img Hw Hh ltac:(lia) Hs Hf dstW dstH HdW HdH
                  ltac:(lia)) as [out [E [L _]]]. eauto.
    - destruct (resizeImage_spec img Hw Hh ltac:(lia) Hs Hf dstW dstH HdW HdH
                  ltac:(lia)) as [out [E [L _]]]. eauto. }
  destruct Hres as [out [Eres Lres]]. rewrite Eres. cbn [bind].
  destruct (convertToGrayscale_spec (mkImage out dstW dstH (channels img)))
    as [gray [E [L _]]]; cbn [data width height channels]; try lia.
  { unfold well_sized. cbn [data width height channels]. exact Lres. }
  { unfold fits_int. cbn [data width height channels]. lia. }
  cbn [data width height channels] in E, L.
  exists gray. rewrite E. cbn [bind]. split; [reflexivity | exact L].
Qed.




(** A float times zero is zero. *)
Lemma int_of_fmul_zero (n : Z) :
  0 <= n <= INT_MAX ->
  int_of_float (fmul (float_of_int n) (S754_zero false)) = 0.
Proof.
  unfold INT_MAX. intros Hn.
  destruct (binary_normalize_error n 0) as [G _].
  { unfold bpow at 1. cbn [powerRZ]. rewrite Rmult_1_r.
    apply Rle_lt_trans with (IZR 2147483647).
    - rewrite Rabs_pos_eq by (apply IZR_le; lia). apply IZR_le. lia.
    - rewrite bpow_IZR by lia. apply IZR_lt. reflexivity. }
  fold (float_of_int n) in G.
  destruct (float_of_int n) as [s|s| |s m e]; try contradiction; reflexivity.
Qed.

(** ** The wire format *)

Lemma negative_int_bits (y n : Z) :
  - 2147483648 <= y < 0 -> 31 <= n -> Z.testbit y n = true.
Proof.
  intros Hy Hn. rewrite <- (Z.opp_involutive y), Z.bits_opp by lia.
  rewrite (testbit_high_false (Z.pred (- y)) 31 n); [reflexivity | | lia].
  change (2 ^ 31) with 2147483648. lia.
Qed.

Lemma low_bits_minus (x n : Z) :
  0 <= n < 32 -> Z.testbit (x - 4294967296) n = Z.testbit x n.
Proof.
  intros Hn.
  rewrite <- (Z.mod_pow2_bits_low (x - 4294967296) 32 n) by lia.
  rewrite <- (Z.mod_pow2_bits_low x 32 n) by lia.
  f_equal. change (2 ^ 32) with 4294967296.
  replace (x - 4294967296) with (x + (-1) * 4294967296) by lia.
  apply Z.mod_add. lia.
Qed.

(** The four bytes written for any [int] are read back as it. *)
Lemma int_of_bytes_signed (v : Z) :
  in_int v ->
  Z.lor (Z.lor (Z.lor (int_shl (Z.land (Z.shiftr v 24) 255) 24)
                      (int_shl (Z.land (Z.shiftr v 16) 255) 16))
               (int_shl (Z.land (Z.shiftr v 8) 255) 8))
        (Z.land v 255) = v.
Proof.
  unfold in_int, INT_MIN, INT_MAX. intros Hv.
  destruct (Z.le_gt_cases 0 v) as [Hpos|Hneg];
    [apply int_of_bytes; unfold INT_MAX; lia|].
  unfold int_shl.
  assert (H24 : 128 <= Z.land (Z.shiftr v 24) 255 < 256).
  { change 255 with (Z.ones 8). rewrite Z.land_ones, Z.shiftr_div_pow2 by lia.
    change (2 ^ 24) with 16777216. change (2 ^ 8) with 256.
    assert (-128 <= v / 16777216 < 0).
    { split; [apply Z.div_le_lower_bound; lia | apply Z.div_lt_upper_bound; lia]. }
    replace (v / 16777216) with (v / 16777216 + 256 + (-1) * 256) by lia.
    rewrite Z.mod_add by lia. rewrite Z.mod_small; lia. }
  pose proof (byte_of_int_range v 16) as H16.
  pose proof (byte_of_int_range v 8) as H8.
  assert (W : wrap32 (Z.shiftl (Z.land (Z.shiftr v 24) 255) 24)
              = Z.shiftl (Z.land (Z.shiftr v 24) 255) 24 - 4294967296).
  { unfold wrap32. rewrite Z.shiftl_mul_pow2 by lia.
    change (2 ^ 24) with 16777216.
    set (b := Z.land (Z.shiftr v 24) 255) in *.
    replace (b * 16777216 + 2147483648)
      with (b * 16777216 - 2147483648 + 1 * 4294967296) by lia.
    rewrite Z.mod_add by lia. rewrite Z.mod_small; lia. }
  rewrite W.
  rewrite (wrap32_small (Z.shiftl _ 16))
    by (rewrite Z.shiftl_mul_pow2 by lia; unfold INT_MIN, INT_MAX; lia).
  rewrite (wrap32_small (Z.shiftl _ 8))
    by (rewrite Z.shiftl_mul_pow2 by lia; unfold INT_MIN, INT_MAX; lia).
  apply Z.bits_inj'. intros n Hn.
  rewrite !Z.lor_spec, !lane_bit, Z.land_spec, testbit_255 by lia.
  destruct (Z.lt_ge_cases n 32) as [L|L].
  - rewrite low_bits_minus, lane_bit by lia.
    destruct (Z.testbit v n) eqn:E; [|now rewrite !andb_false_r].
    repeat match goal with
           | |- context [?a <=? ?b] => destruct (Z.leb_spec a b)
           | |- context [?a <? ?b] => destruct (Z.ltb_spec a b)
           end; cbn; try reflexivity; lia.
  - rewrite (negative_int_bits v n) by lia.
    rewrite (negative_int_bits (_ - 4294967296) n); [reflexivity | | lia].
    rewrite Z.shiftl_mul_pow2 by lia. change (2 ^ 24) with 16777216. lia.
Qed.

Lemma readInt_writeInt_signed (v : Z) (rest : list Z) :
  in_int v -> readInt (writeInt v ++ rest) 0 = Returned v.
Proof.
  intros H. unfold readInt, writeInt. cbn [app Z.add].
  change (vec_get (?a :: ?l) 0) with (Returned a).
  change (vec_get (?a :: ?b :: ?l) 1) with (Returned b).
  change (vec_get (?a :: ?b :: ?c :: ?l) 2) with (Returned c).
  change (vec_get (?a :: ?b :: ?c :: ?d :: ?l) 3) with (Returned d).
  cbn [bind]. f_equal. apply int_of_bytes_signed, H.
Qed.

Lemma read_header_signed (image : ImageData) :
  in_int (width image) -> in_int (height image) -> in_int (channels image) ->
  readInt (encodeAsJPEG image) 0 = Returned (width image) /\
  readInt (encodeAsJPEG image) 4 = Returned (height image) /\
  readInt (encodeAsJPEG image) 8 = Returned (channels image).
Proof.
  intros Hw Hh Hc. unfold encodeAsJPEG. repeat split.
  - apply readInt_writeInt_signed, Hw.
  - rewrite readInt_app_r by (rewrite vec_size_writeInt; lia).
    rewrite vec_size_writeInt. apply readInt_writeInt_signed, Hh.
  - rewrite readInt_app_r by (rewrite vec_size_writeInt; lia).
    rewrite vec_size_writeInt.
    rewrite readInt_app_r by (rewrite vec_size_writeInt; lia).
    rewrite vec_size_writeInt. apply readInt_writeInt_signed, Hc.
Qed.

(** The fallback of the parser on an input of [size] bytes. *)
Lemma guess_dimensions_small (size : Z) :
  0 <= size < 300 -> guess_dimensions size = (0, 100, 3).
Proof.
  intros Hs. unfold guess_dimensions.
  change (to_size_t (int_mul 100 3)) with 300.
  rewrite Z.div_small by lia. reflexivity.
Qed.

Lemma guess_dimensions_large (size : Z) :
  300 <= size <= INT_MAX -> guess_dimensions size = (100, size / 300, 3).
Proof.
  unfold INT_MAX. intros Hs. unfold guess_dimensions.
  change (to_size_t (int_mul 100 3)) with 300.
  assert (1 <= size / 300) by (apply Z.div_le_lower_bound; lia).
  assert (size / 300 <= size) by (apply Z.div_le_upper_bound; lia).
  rewrite wrap32_small by (unfold INT_MIN, INT_MAX; lia).
  destruct (Z.leb_spec (size / 300) 0); [lia | reflexivity].
Qed.

Lemma parse_invalid_header (bytes : list Z) (w0 h0 c0 : Z) :
  12 <= vec_size bytes ->
  readInt bytes 0 = Returned w0 ->
  readInt bytes 4 = Returned h0 ->
  readInt bytes 8 = Returned c0 ->
  header_invalid w0 h0 c0 = true ->
  vec_size bytes + 12 <= INT_MAX ->
  parseSimpleImage bytes
  = Returned
      (if vec_size bytes <? 300 then mkImage [] 0 100 3
       else if 12 <=? vec_size bytes mod 300
       then mkImage (firstn (Z.to_nat (300 * (vec_size bytes / 300)))
                            (skipn 12 bytes))
                    100 (vec_size bytes / 300) 3
       else mkImage bytes 100 (vec_size bytes / 300) 3).
Proof.
  unfold INT_MAX. intros Hs R0 R4 R8 Hinv Hmax. unfold parseSimpleImage.
  destruct (Z.ltb_spec (vec_size bytes) 12); [lia|].
  rewrite R0, R4, R8. cbn [bind]. rewrite Hinv.
  set (size := vec_size bytes) in *.
  destruct (Z.ltb_spec size 300) as [Hsmall|Hlarge].
  - rewrite guess_dimensions_small by lia.
    change (expectedSize 0 100 3) with 12.
    destruct (Z.leb_spec 12 size); [|lia].
    unfold size. rewrite assign_range_defined by lia. reflexivity.
  - rewrite guess_dimensions_large by (unfold INT_MAX; lia).
    pose proof (Z.div_mod size 300 ltac:(lia)) as Hdm.
    pose proof (Z.mod_pos_bound size 300 ltac:(lia)) as Hr.
    assert (1 <= size / 300) by (apply Z.div_le_lower_bound; lia).
    rewrite expectedSize_exact by (unfold INT_MAX; lia).
    destruct (Z.leb_spec 12 (size mod 300)) as [Hfull|Hshort].
    + destruct (Z.leb_spec (12 + 100 * (size / 300) * 3) size); [|lia].
      unfold size. rewrite assign_range_defined by (fold size; lia).
      cbn [bind]. do 3 f_equal. lia.
    + destruct (Z.leb_spec (12 + 100 * (size / 300) * 3) size); [lia|].
      unfold size. now rewrite assign_range_all.
Qed.

Lemma assign_range_size (bytes : list Z) (first last : Z) (p : list Z) :
  assign_range bytes first last = Returned p -> vec_size p <= vec_size bytes.
Proof.
  unfold assign_range. destruct (_ || _); [discriminate|].
  intros E. injection E as <-. unfold vec_size.
  rewrite length_firstn, length_skipn. lia.
Qed.

(** ** The worker *)

Lemma js_field_encode (image : ImageData) :
  in_int (width image) -> in_int (height image) -> in_int (channels image) ->
  js_field (encodeAsJPEG image) 0 = width image /\
  js_field (encodeAsJPEG image) 4 = height image /\
  js_field (encodeAsJPEG image) 8 = channels image.
Proof.
  intros Hw Hh Hc. unfold js_field, encodeAsJPEG, writeInt.
  cbn [app nth Nat.add].
  repeat split; apply int_of_bytes_signed; assumption.
Qed.

Lemma unpack_encode (image : ImageData) :
  in_int (width image) -> in_int (height image) -> in_int (channels image) ->
  unpack_processed (encodeAsJPEG image) = Returned image.
Proof.
  intros Hw Hh Hc. unfold unpack_processed.
  pose proof (vec_size_encode image) as L.
  pose proof (vec_size_nonneg (data image)).
  destruct (Z.ltb_spec (vec_size (encodeAsJPEG image)) 12); [lia|].
  destruct (js_field_encode image Hw Hh Hc) as [-> [-> ->]].
  destruct image as [d w h c]. reflexivity.
Qed.

Lemma ProcessImage_returns (bytes : list Z) (maxW maxH : Z) (out : list Z) :
  ProcessImage bytes maxW maxH = Returned out ->
  exists gray, out = encodeAsJPEG gray.
Proof.
  unfold ProcessImage.
  destruct (parseSimpleImage bytes) as [img| |]; cbn [bind]; try discriminate.
  destruct (computeTargetDimensions _ _ _ _) as [nw nh].
  destruct (if negb (nw =? width img) || negb (nh =? height img)
            then resizeImage img nw nh else Returned img) as [r| |];
    cbn [bind]; try discriminate.
  destruct (convertToGrayscale r) as [g| |]; cbn [bind]; try discriminate.
  intros E. exists g. congruence.
Qed.

(** * Further properties *)

(** ** Sampling, resizing and grey conversion *)

(** X1.  Whatever the coordinates are - outside the image, infinite or
    not a number - a sample of a well-sized image whose byte count fits an
    [int] is taken without a read outside the vector, and it is a byte. *)
Theorem sample_never_reads_outside (input : ImageData) (x y : float) (ch : Z) :
  1 <= width input -> 1 <= height input -> 1 <= channels input ->
  well_sized input -> fits_int input ->
  0 <= ch < channels input ->
  exists v,
    bilinearInterpolate (data input) (width input) (height input)
      (channels input) x y ch = Returned v /\ 0 <= v <= 255.
Proof.
  intros Hw Hh Hc Hs Hf Hch.
  destruct (bilinearInterpolate_defined input Hw Hh Hc Hs Hf x y ch Hch)
    as [v [E B]].
  exists v. split; [exact E|]. unfold is_byte in B. lia.
Qed.

Lemma sample_never_reads_outside_witness :
  exists v,
    bilinearInterpolate [10; 20; 30; 40] 2 2 1 S754_nan (S754_infinity true) 0
    = Returned v /\ 0 <= v <= 255.
Proof.
  apply (sample_never_reads_outside (mkImage [10; 20; 30; 40] 2 2 1));
    cbn [width height channels data]; try lia;
    vm_compute; try reflexivity; discriminate.
Defined.

(** X2.  A sample taken exactly at a pixel is that pixel's byte. *)
Theorem sample_at_pixel (input : ImageData) (xi yi ch : Z) :
  valid_buffer input -> fits_int input ->
  width input <= 16777216 -> height input <= 16777216 ->
  0 <= xi < width input -> 0 <= yi < height input ->
  0 <= ch < channels input ->
  bilinearInterpolate (data input) (width input) (height input)
    (channels input) (float_of_int xi) (float_of_int yi) ch
  = Returned (byte_at (data input)
                ((yi * width input + xi) * channels input + ch)).
Proof.
  intros Hv Hf Hw Hh Hx Hy Hch. unfold bilinearInterpolate.
  rewrite (bilinearValue_at_pixel input Hv Hf Hw Hh xi yi ch Hx Hy Hch).
  cbn [bind]. rewrite uint8_of_float_byte; [reflexivity|].
  destruct Hv as [_ [_ [_ [_ Hb]]]]. apply byte_at_range, Hb.
Qed.

Lemma sample_at_pixel_witness :
  bilinearInterpolate [10; 20; 30; 40] 2 2 1 (float_of_int 1) (float_of_int 1) 0
  = Returned 40.
Proof.
  assert (Hv : valid_buffer (mkImage [10; 20; 30; 40] 2 2 1)).
  { unfold valid_buffer, well_sized. cbn [data width height channels].
    repeat split; try lia.
    repeat (apply Forall_cons; [unfold is_byte; lia|]). apply Forall_nil. }
  assert (Hf : fits_int (mkImage [10; 20; 30; 40] 2 2 1))
    by (vm_compute; discriminate).
  apply (sample_at_pixel (mkImage [10; 20; 30; 40] 2 2 1) 1 1 0 Hv Hf);
    cbn [width height channels]; lia.
Defined.

(** X3.  A sample inside the image is at most the largest of the four
    bytes around it and at least the smallest of them less one: the
    interpolation never overshoots, and rounding costs one level at most. *)
Theorem sample_between_corners (input : ImageData) (x y : float) (ch : Z)
  (lo hi : Z) :
  valid_buffer input -> fits_int input ->
  good x -> good y ->
  float_in_range x (width input - 1) = true ->
  float_in_range y (height input - 1) = true ->
  0 <= ch < channels input ->
  0 <= lo -> hi <= 255 ->
  (forall px py,
     px = int_of_float (ffloor x) \/
     px = Z.min (int_add (int_of_float (ffloor x)) 1) (int_sub (width input) 1) ->
     py = int_of_float (ffloor y) \/
     py = Z.min (int_add (int_of_float (ffloor y)) 1) (int_sub (height input) 1) ->
     lo <= byte_at (data input)
             ((py * width input + px) * channels input + ch) <= hi) ->
  exists z,
    bilinearInterpolate (data input) (width input) (height input)
      (channels input) x y ch = Returned z /\
    lo - 1 <= z <= hi /\ 0 <= z.
Proof.
  intros Hv Hf Gx Gy Hx Hy Hch Hlo Hhi Hr.
  destruct (bilinearValue_within input Hv Hf x y Gx Gy Hx Hy ch Hch lo hi
              Hlo Hhi Hr) as [v [Ev [Gv Vv]]].
  assert (RL : (0 <= IZR lo)%R) by (apply IZR_le; lia).
  assert (RH : (IZR hi <= 255)%R) by (apply IZR_le; lia).
  destruct (float_trunc_byte v Gv ltac:(lra)) as [z [T B]].
  pose proof (float_trunc_floor v z Gv T ltac:(lra)) as Fz.
  exists z. split.
  - unfold bilinearInterpolate. rewrite Ev. cbn [bind].
    unfold uint8_of_float, int_of_float. rewrite T.
    destruct (Z.leb_spec INT_MIN z); [|unfold INT_MIN in *; lia].
    destruct (Z.leb_spec z INT_MAX); [|unfold INT_MAX in *; lia].
    cbn [andb]. now rewrite to_uint8_small by lia.
  - split; [|lia].
    assert (lo <= hi).
    { specialize (Hr _ _ (or_introl eq_refl) (or_introl eq_refl)). lia. }
    apply (trunc_near_range (B2R v)); [lia | exact Fz | lra].
Qed.

Lemma sample_between_corners_witness :
  exists z,
    bilinearInterpolate [7; 7; 7; 7] 2 2 1 f_tenth f_half 0 = Returned z /\
    7 - 1 <= z <= 7 /\ 0 <= z.
Proof.
  assert (Hv : valid_buffer (mkImage [7; 7; 7; 7] 2 2 1)).
  { unfold valid_buffer, well_sized. cbn [data width height channels].
    repeat split; try lia.
    repeat (apply Forall_cons; [unfold is_byte; lia|]). apply Forall_nil. }
  assert (Hf : fits_int (mkImage [7; 7; 7; 7] 2 2 1))
    by (vm_compute; discriminate).
  apply (sample_between_corners (mkImage [7; 7; 7; 7] 2 2 1) f_tenth f_half 0
           7 7 Hv Hf); try reflexivity; try lia.
  - cbn [channels]. lia.
  - intros px py Px Py. cbn [data width height channels].
    vm_compute in Px, Py.
    destruct Px as [-> | ->], Py as [-> | ->]; vm_compute; split; discriminate.
Defined.

(** X4.  Every byte of the resized image is the sample taken for its own
    pixel and channel: the byte of channel k of the pixel (x, y) is the
    sample at (x * (srcW / dstW), y * (srcH / dstH)), the ratios and the
    products computed in floats. *)
Theorem resize_takes_each_sample (input : ImageData) (dstW dstH : Z) :
  1 <= width input -> 1 <= height input -> 1 <= channels input ->
  well_sized input -> fits_int input ->
  1 <= dstW -> 1 <= dstH -> dstW * dstH * channels input <= INT_MAX ->
  exists out,
    resizeImage input dstW dstH
    = Returned (mkImage out dstW dstH (channels input)) /\
    forall x y k,
      0 <= x < dstW -> 0 <= y < dstH -> 0 <= k < channels input ->
      vec_get out ((y * dstW + x) * channels input + k)
      = bilinearInterpolate (data input) (width input) (height input)
          (channels input)
          (fmul (float_of_int x)
                (fdiv (float_of_int (width input)) (float_of_int dstW)))
          (fmul (float_of_int y)
                (fdiv (float_of_int (height input)) (float_of_int dstH)))
          k.
Proof.
  intros Hw Hh Hc Hs Hf HdW HdH Hn.
  destruct (resizeImage_spec input Hw Hh Hc Hs Hf dstW dstH HdW HdH Hn)
    as [out [E [L G]]].
  exists out. split; [exact E|].
  intros x y k Hx Hy Hk.
  destruct (flat_index_decode dstW (channels input) x y k) as [D1 [D2 [D3 D4]]];
    try lia.
  destruct (flat_index_bound dstW dstH (channels input) x y k Hx Hy Hk)
    as [B1 [B2 [B3 B4]]].
  destruct (G ((y * dstW + x) * channels input + k) ltac:(lia))
    as [v [S [_ V]]].
  rewrite V, <- S. unfold resize_sample. now rewrite D1, D2, D3, D4.
Qed.

Lemma resize_takes_each_sample_witness :
  exists out,
    resizeImage (mkImage [10; 20; 30; 40] 2 2 1) 3 3
    = Returned (mkImage out 3 3 1) /\
    vec_get out ((1 * 3 + 2) * 1 + 0)
    = bilinearInterpolate [10; 20; 30; 40] 2 2 1
        (fmul (float_of_int 2) (fdiv (float_of_int 2) (float_of_int 3)))
        (fmul (float_of_int 1) (fdiv (float_of_int 2) (float_of_int 3))) 0.
Proof.
  assert (Hs : well_sized (mkImage [10; 20; 30; 40] 2 2 1)) by reflexivity.
  assert (Hf : fits_int (mkImage [10; 20; 30; 40] 2 2 1))
    by (vm_compute; discriminate).
  assert (Hn : 3 * 3 * channels (mkImage [10; 20; 30; 40] 2 2 1) <= INT_MAX)
    by (vm_compute; discriminate).
  destruct (resize_takes_each_sample (mkImage [10; 20; 30; 40] 2 2 1) 3 3
              ltac:(cbn [width]; lia) ltac:(cbn [height]; lia)
              ltac:(cbn [channels]; lia) Hs Hf ltac:(lia) ltac:(lia) Hn)
    as [out [E G]].
  exists out. split; [exact E|].
  apply (G 2 1 0); cbn [channels]; lia.
Defined.

(** X5.  A target with no columns or no rows gives an empty buffer of
    that shape, for every source: no sample is taken. *)
Theorem resize_to_nothing (input : ImageData) (n : Z) :
  0 <= n <= INT_MAX ->
  resizeImage input 0 n = Returned (mkImage [] 0 n (channels input)) /\
  resizeImage input n 0 = Returned (mkImage [] n 0 (channels input)).
Proof. apply resizeImage_nothing. Qed.

Lemma resize_to_nothing_witness :
  resizeImage (mkImage [10; 20; 30; 40] 2 2 1) 0 5
  = Returned (mkImage [] 0 5 1) /\
  resizeImage (mkImage [10; 20; 30; 40] 2 2 1) 5 0
  = Returned (mkImage [] 5 0 1).
Proof.
  apply (resize_to_nothing (mkImage [10; 20; 30; 40] 2 2 1) 5).
  vm_compute. split; discriminate.
Defined.

(** X6.  With fewer than three channels the grey byte of a pixel is the
    first byte of the pixel; a single-channel image is returned as it
    is. *)
Theorem grayscale_copies_first_channel (input : ImageData) :
  1 <= width input -> 1 <= height input -> 1 <= channels input < 3 ->
  well_sized input -> fits_int input ->
  (exists out,
     convertToGrayscale input
     = Returned (mkImage out (width input) (height input) 1) /\
     vec_size out = width input * height input /\
     forall i, 0 <= i < width input * height input ->
       vec_get out i = vec_get (data input) (i * channels input)) /\
  (channels input = 1 -> convertToGrayscale input = Returned input).
Proof.
  intros Hw Hh Hc Hs Hf.
  destruct (convertToGrayscale_spec input Hw Hh ltac:(lia) Hs Hf)
    as [out [E [L G]]].
  assert (Hcopy : forall i, 0 <= i < width input * height input ->
            vec_get out i = vec_get (data input) (i * channels input)).
  { intros i Hi. rewrite (G i Hi). unfold gray_pixel.
    destruct (Z.leb_spec 3 (channels input)); [lia|].
    symmetry. apply vec_get_byte_at. unfold well_sized in Hs. nia. }
  split.
  - exists out. auto.
  - intros H1. rewrite E. destruct input as [d w h c].
    cbn [data width height channels] in *. subst c. do 2 f_equal.
    apply vec_ext.
    + unfold well_sized in Hs. cbn [data width height channels] in Hs. lia.
    + intros i Hi. rewrite Hcopy by lia. now rewrite Z.mul_1_r.
Qed.

Lemma grayscale_copies_first_channel_witness :
  convertToGrayscale (mkImage [10; 20; 30; 40] 2 2 1)
  = Returned (mkImage [10; 20; 30; 40] 2 2 1).
Proof.
  assert (Hs : well_sized (mkImage [10; 20; 30; 40] 2 2 1)) by reflexivity.
  assert (Hf : fits_int (mkImage [10; 20; 30; 40] 2 2 1))
    by (vm_compute; discriminate).
  apply (proj2 (grayscale_copies_first_channel (mkImage [10; 20; 30; 40] 2 2 1)
                  ltac:(cbn [width]; lia) ltac:(cbn [height]; lia)
                  ltac:(cbn [channels]; lia) Hs Hf)).
  reflexivity.
Defined.

(** X7.  Converting twice is converting once. *)
Theorem grayscale_idempotent (input : ImageData) :
  1 <= width input -> 1 <= height input -> 1 <= channels input ->
  well_sized input -> fits_int input ->
  exists gray,
    convertToGrayscale input = Returned gray /\
    convertToGrayscale gray = Returned gray.
Proof.
  intros Hw Hh Hc Hs Hf.
  destruct (convertToGrayscale_spec input Hw Hh Hc Hs Hf) as [out [E [L _]]].
  eexists. split; [exact E|].
  assert (Hn : width input * height input <= INT_MAX).
  { unfold fits_int in Hf.
    assert (width input * height input * 1
            <= width input * height input * channels input)
      by (apply Z.mul_le_mono_nonneg_l; nia).
    lia. }
  destruct (convertToGrayscale_spec
              (mkImage out (width input) (height input) 1)) as [out2 [E2 [L2 G2]]];
    cbn [data width height channels]; try lia.
  - unfold well_sized. cbn [data width height channels]. lia.
  - unfold fits_int. cbn [data width height channels]. lia.
  - rewrite E2. cbn [data width height channels] in *. do 2 f_equal.
    apply vec_ext; [lia|]. intros i Hi. rewrite G2 by lia.
    unfold gray_pixel. cbn [data channels]. change (3 <=? 1) with false.
    cbv iota. rewrite Z.mul_1_r. symmetry. apply vec_get_byte_at. lia.
Qed.

Lemma grayscale_idempotent_witness :
  exists gray,
    convertToGrayscale (mkImage [255; 0; 0; 0; 255; 0] 2 1 3) = Returned gray /\
    convertToGrayscale gray = Returned gray.
Proof.
  assert (Hs : well_sized (mkImage [255; 0; 0; 0; 255; 0] 2 1 3))
    by reflexivity.
  assert (Hf : fits_int (mkImage [255; 0; 0; 0; 255; 0] 2 1 3))
    by (vm_compute; discriminate).
  apply (grayscale_idempotent (mkImage [255; 0; 0; 0; 255; 0] 2 1 3)
           ltac:(cbn [width]; lia) ltac:(cbn [height]; lia)
           ltac:(cbn [channels]; lia) Hs Hf).
Defined.

(** X8.  The grey byte of a pixel is at most the largest of its red,
    green and blue bytes and at least the smallest of them less one: a
    grey pixel (p, p, p) becomes p or p - 1. *)
Theorem gray_between_channels (r g b lo hi : Z) :
  0 <= lo -> hi <= 255 ->
  lo <= r <= hi -> lo <= g <= hi -> lo <= b <= hi ->
  lo - 1 <= uint8_of_float (luminance r g b) <= hi.
Proof.
  intros Hlo Hhi Hr Hg Hb.
  assert (Br : is_byte r) by (unfold is_byte; lia).
  assert (Bg : is_byte g) by (unfold is_byte; lia).
  assert (Bb : is_byte b) by (unfold is_byte; lia).
  destruct (luminance_byte r g b Br Bg Bb) as [z [_ [_ [U V]]]].
  destruct (luminance_within r g b Br Bg Bb) as [_ E].
  apply Rabs_le_elim in E. rewrite U.
  assert (R1 : (IZR lo <= IZR r <= IZR hi)%R) by (split; apply IZR_le; lia).
  assert (R2 : (IZR lo <= IZR g <= IZR hi)%R) by (split; apply IZR_le; lia).
  assert (R3 : (IZR lo <= IZR b <= IZR hi)%R) by (split; apply IZR_le; lia).
  apply (trunc_near_range (B2R (luminance r g b))); [lia | exact V | lra].
Qed.

Lemma gray_between_channels_witness :
  37 - 1 <= uint8_of_float (luminance 37 37 37) <= 37.
Proof. apply (gray_between_channels 37 37 37 37 37); lia. Defined.



(** ** The pipeline of [ProcessImage] *)

(** X9.  An input shorter than the 12-byte header is refused, with the
    message of the parser behind the prefix of the addon. *)
Theorem process_rejects_short_input (bytes : list Z) (maxW maxH : Z) :
  vec_size bytes < 12 ->
  ProcessImage bytes maxW maxH
  = Thrown "Image processing failed: Invalid image data: too small".
Proof.
  intros Hs. unfold ProcessImage, parseSimpleImage.
  destruct (Z.ltb_spec (vec_size bytes) 12); [reflexivity | lia].
Qed.

Lemma process_rejects_short_input_witness :
  ProcessImage [0; 0; 0; 1; 0; 0; 0; 1] 800 600
  = Thrown "Image processing failed: Invalid image data: too small".
Proof. apply process_rejects_short_input. vm_compute. reflexivity. Defined.

(** X10.  An image that fits the bounds is not resampled: the output is
    the wire form of its grey version, and a single-channel image comes
    back byte for byte. *)
Theorem process_within_bounds (img : ImageData) (maxW maxH : Z) :
  valid_buffer img ->
  12 + width img * height img * channels img <= INT_MAX ->
  width img <= maxW -> height img <= maxH ->
  (exists gray,
     convertToGrayscale img
     = Returned (mkImage gray (width img) (height img) 1) /\
     vec_size gray = width img * height img /\
     ProcessImage (encodeAsJPEG img) maxW maxH
     = Returned (encodeAsJPEG (mkImage gray (width img) (height img) 1))) /\
  (channels img = 1 ->
   ProcessImage (encodeAsJPEG img) maxW maxH = Returned (encodeAsJPEG img)).
Proof.
  intros [Hw [Hh [Hc [Hs Hb]]]] Hn HmW HmH.
  assert (Hf : fits_int img) by (unfold fits_int; lia).
  rewrite (ProcessImage_steps img maxW maxH Hw Hh Hc Hs Hn). cbv zeta.
  rewrite dimensions_fit_unchanged by lia.
  rewrite !Z.eqb_refl. cbn [negb orb bind].
  destruct (convertToGrayscale_spec img Hw Hh ltac:(lia) Hs Hf)
    as [gray [E [L _]]].
  split.
  - exists gray. rewrite E. cbn [bind]. auto.
  - intros H1.
    rewrite (convertToGrayscale_single img Hw Hh H1 Hs Hf). reflexivity.
Qed.

Lemma process_within_bounds_witness :
  ProcessImage (encodeAsJPEG (mkImage [10; 20; 30; 40] 2 2 1)) 800 600
  = Returned (encodeAsJPEG (mkImage [10; 20; 30; 40] 2 2 1)).
Proof.
  assert (Hv : valid_buffer (mkImage [10; 20; 30; 40] 2 2 1)).
  { unfold valid_buffer, well_sized. cbn [data width height channels].
    repeat split; try lia.
    repeat (apply Forall_cons; [unfold is_byte; lia|]). apply Forall_nil. }
  assert (Hn : 12 + width (mkImage [10; 20; 30; 40] 2 2 1)
                    * height (mkImage [10; 20; 30; 40] 2 2 1)
                    * channels (mkImage [10; 20; 30; 40] 2 2 1) <= INT_MAX)
    by (vm_compute; discriminate).
  apply (proj2 (process_within_bounds (mkImage [10; 20; 30; 40] 2 2 1) 800 600
                  Hv Hn ltac:(cbn [width]; lia) ltac:(cbn [height]; lia))).
  reflexivity.
Defined.

(** X11.  For a well-formed image on the wire and target dimensions that
    are both positive, the output is the wire form of a single-channel
    image of the target dimensions: 12 + dstW * dstH bytes, which the
    parser reads back as that image. *)
Theorem process_output_shape (img : ImageData) (maxW maxH dstW dstH : Z) :
  valid_buffer img ->
  12 + width img * height img * channels img <= INT_MAX ->
  computeTargetDimensions (width img) (height img) maxW maxH = (dstW, dstH) ->
  1 <= dstW -> 1 <= dstH -> 12 + dstW * dstH * channels img <= INT_MAX ->
  exists gray,
    ProcessImage (encodeAsJPEG img) maxW maxH
    = Returned (encodeAsJPEG (mkImage gray dstW dstH 1)) /\
    vec_size gray = dstW * dstH /\
    vec_size (encodeAsJPEG (mkImage gray dstW dstH 1)) = 12 + dstW * dstH /\
    parseSimpleImage (encodeAsJPEG (mkImage gray dstW dstH 1))
    = Returned (mkImage gray dstW dstH 1).
Proof.
  intros Hv Hn Hdim HdW HdH Hm.
  destruct (ProcessImage_shape img maxW maxH dstW dstH Hv Hn Hdim HdW HdH Hm)
    as [gray [E L]].
  destruct Hv as [Hw [Hh [Hc _]]].
  assert (Hwh : dstW * dstH * 1 <= dstW * dstH * channels img)
    by (apply Z.mul_le_mono_nonneg_l; nia).
  exists gray. split; [exact E|]. split; [exact L|]. split.
  - rewrite vec_size_encode. cbn [data]. lia.
  - apply parse_encode; cbn [data width height channels]; try lia.
    unfold well_sized. cbn [data width height channels]. lia.
Qed.

Lemma process_output_shape_witness :
  exists gray,
    ProcessImage (encodeAsJPEG (mkImage [1; 2; 3; 4; 5; 6; 7; 8] 4 2 1)) 2 2
    = Returned (encodeAsJPEG (mkImage gray 2 1 1)) /\
    vec_size gray = 2 * 1.
Proof.
  assert (Hv : valid_buffer (mkImage [1; 2; 3; 4; 5; 6; 7; 8] 4 2 1)).
  { unfold valid_buffer, well_sized. cbn [data width height channels].
    repeat split; try lia.
    repeat (apply Forall_cons; [unfold is_byte; lia|]). apply Forall_nil. }
  assert (Hn : 12 + width (mkImage [1; 2; 3; 4; 5; 6; 7; 8] 4 2 1)
                    * height (mkImage [1; 2; 3; 4; 5; 6; 7; 8] 4 2 1)
                    * channels (mkImage [1; 2; 3; 4; 5; 6; 7; 8] 4 2 1)
               <= INT_MAX)
    by (vm_compute; discriminate).
  assert (Hm : 12 + 2 * 1 * channels (mkImage [1; 2; 3; 4; 5; 6; 7; 8] 4 2 1)
               <= INT_MAX)
    by (vm_compute; discriminate).
  destruct (process_output_shape (mkImage [1; 2; 3; 4; 5; 6; 7; 8] 4 2 1)
              2 2 2 1 Hv Hn eq_refl ltac:(lia) ltac:(lia) Hm)
    as [gray [E [L _]]].
  exists gray. split; [exact E | exact L].
Defined.

(** X12.  When the computed target has no row or no column - a source so
    flat or so narrow that the scaled dimension truncates to zero - the
    output is a header without pixels, not an error. *)
Theorem process_degenerate_target (img : ImageData) (maxW maxH dstW dstH : Z) :
  valid_buffer img ->
  12 + width img * height img * channels img <= INT_MAX ->
  computeTargetDimensions (width img) (height img) maxW maxH = (dstW, dstH) ->
  0 <= dstW <= INT_MAX -> 0 <= dstH <= INT_MAX -> dstW * dstH = 0 ->
  ProcessImage (encodeAsJPEG img) maxW maxH
  = Returned (writeInt dstW ++ writeInt dstH ++ writeInt 1).
Proof.
  intros [Hw [Hh [Hc [Hs Hb]]]] Hn Hdim HdW HdH Hz.
  rewrite (ProcessImage_steps img maxW maxH Hw Hh Hc Hs Hn). cbv zeta.
  rewrite Hdim.
  assert (Hne : negb (dstW =? width img) || negb (dstH =? height img) = true).
  { destruct (Z.eqb_spec dstW (width img)) as [Ew|Ew];
      [destruct (Z.eqb_spec dstH (height img)) as [Eh|Eh]|]; try reflexivity.
    subst. nia. }
  rewrite Hne.
  assert (Eres : resizeImage img dstW dstH
                 = Returned (mkImage [] dstW dstH (channels img))).
  { assert (Hcase : dstW = 0 \/ dstH = 0) by nia.
    destruct Hcase as [-> | ->].
    - apply (proj1 (resizeImage_nothing img dstH HdH)).
    - apply (proj2 (resizeImage_nothing img dstW HdW)). }
  rewrite Eres. cbn [bind].
  rewrite convertToGrayscale_empty by exact Hz. cbn [bind].
  unfold encodeAsJPEG. cbn [data width height channels].
  now rewrite app_nil_r.
Qed.

Lemma process_degenerate_target_witness :
  ProcessImage (encodeAsJPEG (mkImage (repeat 9 1000) 1000 1 1)) 100 100
  = Returned (writeInt 100 ++ writeInt 0 ++ writeInt 1).
Proof.
  assert (Hv : valid_buffer (mkImage (repeat 9 1000) 1000 1 1)).
  { unfold valid_buffer, well_sized. cbn [data width height channels].
    repeat split; try lia.
    apply Forall_forall. intros b Hin. apply repeat_spec in Hin. subst b.
    unfold is_byte. lia. }
  assert (Hn : 12 + width (mkImage (repeat 9 1000) 1000 1 1)
                    * height (mkImage (repeat 9 1000) 1000 1 1)
                    * channels (mkImage (repeat 9 1000) 1000 1 1) <= INT_MAX)
    by (vm_compute; discriminate).
  apply (process_degenerate_target (mkImage (repeat 9 1000) 1000 1 1)
           100 100 100 0 Hv Hn eq_refl);
    try reflexivity; vm_compute; split; discriminate.
Defined.

(** X29.  A short input that is not an image is not refused either: for
    12 to 299 bytes with a header that is not valid and bounds that are
    not negative, the output is the header of an empty single-channel
    image, 0 wide and min(100, maxHeight) high, and the input bytes play
    no part in it. *)
Theorem process_small_garbage (bytes : list Z) (w0 h0 c0 maxW maxH : Z) :
  12 <= vec_size bytes < 300 ->
  readInt bytes 0 = Returned w0 ->
  readInt bytes 4 = Returned h0 ->
  readInt bytes 8 = Returned c0 ->
  w0 <= 0 \/ h0 <= 0 \/ c0 <= 0 \/ 4 < c0 ->
  0 <= maxW -> 0 <= maxH <= INT_MAX ->
  ProcessImage bytes maxW maxH
  = Returned (writeInt 0 ++ writeInt (Z.min 100 maxH) ++ writeInt 1).
Proof.
  intros Hs R0 R4 R8 Hbad HmW HmH.
  assert (Hinv : header_invalid w0 h0 c0 = true).
  { unfold header_invalid.
    destruct (Z.leb_spec w0 0); [reflexivity|].
    destruct (Z.leb_spec h0 0); [reflexivity|].
    destruct (Z.leb_spec c0 0); [reflexivity|].
    destruct (Z.ltb_spec 4 c0); [reflexivity | lia]. }
  unfold ProcessImage.
  rewrite (parse_invalid_header bytes w0 h0 c0 ltac:(lia) R0 R4 R8 Hinv)
    by (unfold INT_MAX; lia).
  destruct (Z.ltb_spec (vec_size bytes) 300); [|lia].
  cbn [bind width height]. unfold computeTargetDimensions.
  destruct (Z.ltb_spec maxW 0); [lia|].
  change (fdiv (float_of_int 0) (float_of_int 100)) with (S754_zero false).
  destruct (Z.ltb_spec maxH 100) as [Hsmall|Hlarge].
  - rewrite int_of_fmul_zero by exact HmH.
    rewrite Z.eqb_refl. destruct (Z.eqb_spec maxH 100); [lia|].
    cbn [negb orb].
    rewrite (proj1 (resizeImage_nothing (mkImage [] 0 100 3) maxH HmH)).
    cbn [bind channels].
    rewrite convertToGrayscale_empty by reflexivity. cbn [bind].
    unfold encodeAsJPEG. cbn [data width height channels].
    rewrite Z.min_r by lia. now rewrite app_nil_r.
  - rewrite !Z.eqb_refl. cbn [negb orb bind].
    rewrite convertToGrayscale_empty by reflexivity. cbn [bind].
    unfold encodeAsJPEG. cbn [data width height channels].
    rewrite Z.min_l by lia. now rewrite app_nil_r.
Qed.

Lemma process_small_garbage_witness :
  ProcessImage [255; 216; 255; 224; 0; 16; 74; 70; 73; 70; 0; 1; 1; 1] 800 600
  = Returned (writeInt 0 ++ writeInt (Z.min 100 600) ++ writeInt 1).
Proof.
  assert (Hs : 12 <= vec_size [255; 216; 255; 224; 0; 16; 74; 70; 73; 70;
                               0; 1; 1; 1] < 300)
    by (vm_compute; split; [discriminate | reflexivity]).
  assert (Hm : 0 <= 600 <= INT_MAX) by (vm_compute; split; discriminate).
  assert (Hbad : -2555936 <= 0 \/ 1067590 <= 0 \/ 1229324289 <= 0
                 \/ 4 < 1229324289) by (left; lia).
  assert (Hw : 0 <= 800) by lia.
  apply (process_small_garbage
           [255; 216; 255; 224; 0; 16; 74; 70; 73; 70; 0; 1; 1; 1]
           (-2555936) 1067590 1229324289 800 600 Hs eq_refl eq_refl eq_refl
           Hbad Hw Hm).
Defined.

(** ** The wire format *)

(** X13.  The header fields survive the wire for every 32-bit [int],
    the negative ones included: the four bytes [writeInt] pushes are read
    back by [readInt] as the value written, whatever follows them. *)
Theorem header_field_roundtrip (v : Z) (rest : list Z) :
  INT_MIN <= v <= INT_MAX ->
  readInt (writeInt v ++ rest) 0 = Returned v /\
  Forall is_byte (writeInt v).
Proof.
  intros Hv. split; [apply readInt_writeInt_signed, Hv | apply writeInt_bytes].
Qed.

Lemma header_field_roundtrip_witness :
  readInt (writeInt (-2) ++ [7; 7]) 0 = Returned (-2) /\
  Forall is_byte (writeInt (-2)).
Proof. apply header_field_roundtrip. vm_compute. split; discriminate. Defined.

(** X14.  The wire form determines the buffer: two buffers whose fields
    are [int]s and whose wire forms are equal are equal. *)
Theorem encode_injective (a b : ImageData) :
  in_int (width a) -> in_int (height a) -> in_int (channels a) ->
  in_int (width b) -> in_int (height b) -> in_int (channels b) ->
  encodeAsJPEG a = encodeAsJPEG b -> a = b.
Proof.
  intros Wa Ha Ca Wb Hb Cb E.
  destruct (read_header_signed a Wa Ha Ca) as [A1 [A2 A3]].
  destruct (read_header_signed b Wb Hb Cb) as [B1 [B2 B3]].
  rewrite E in A1, A2, A3.
  assert (Ew : width a = width b) by congruence.
  assert (Eh : height a = height b) by congruence.
  assert (Ec : channels a = channels b) by congruence.
  assert (Ed : data a = data b).
  { pose proof (payload_of_encode a) as Pa.
    pose proof (payload_of_encode b) as Pb.
    assert (L : vec_size (data a) = vec_size (data b)).
    { pose proof (vec_size_encode a). pose proof (vec_size_encode b).
      rewrite E in *. lia. }
    rewrite E, L in Pa. congruence. }
  destruct a as [da wa ha ca], b as [db wb hb cb].
  cbn [data width height channels] in *. congruence.
Qed.

Lemma encode_injective_witness :
  mkImage [1; 2] 2 1 1 = mkImage [1; 2] 2 1 1.
Proof.
  apply encode_injective; try reflexivity; vm_compute; split; discriminate.
Defined.

(** X15.  An input whose header is not that of an image (a dimension that
    is not positive, or more than four channels) is not refused: it is
    read as an RGB image 100 pixels wide with one row per 300 bytes of
    input - the payload is what follows the first 12 bytes when the input
    holds 12 bytes more than whole rows, and otherwise the whole input,
    header included - or, below 300 bytes, as an empty image of 0 by 100
    pixels. *)
Theorem decode_falls_back_on_bad_header (bytes : list Z) (w0 h0 c0 : Z) :
  12 <= vec_size bytes ->
  vec_size bytes + 12 <= INT_MAX ->
  readInt bytes 0 = Returned w0 ->
  readInt bytes 4 = Returned h0 ->
  readInt bytes 8 = Returned c0 ->
  w0 <= 0 \/ h0 <= 0 \/ c0 <= 0 \/ 4 < c0 ->
  parseSimpleImage bytes
  = Returned
      (if vec_size bytes <? 300 then mkImage [] 0 100 3
       else if 12 <=? vec_size bytes mod 300
       then mkImage (firstn (Z.to_nat (300 * (vec_size bytes / 300)))
                            (skipn 12 bytes))
                    100 (vec_size bytes / 300) 3
       else mkImage bytes 100 (vec_size bytes / 300) 3).
Proof.
  intros Hs Hmax R0 R4 R8 Hbad.
  apply (parse_invalid_header bytes w0 h0 c0 Hs R0 R4 R8); [|exact Hmax].
  unfold header_invalid.
  destruct (Z.leb_spec w0 0); [reflexivity|].
  destruct (Z.leb_spec h0 0); [reflexivity|].
  destruct (Z.leb_spec c0 0); [reflexivity|].
  destruct (Z.ltb_spec 4 c0); [reflexivity|]. lia.
Qed.

Lemma decode_falls_back_on_bad_header_witness :
  parseSimpleImage [0; 0; 0; 0; 0; 0; 0; 1; 0; 0; 0; 1; 5; 6]
  = Returned (mkImage [] 0 100 3).
Proof.
  apply (decode_falls_back_on_bad_header
           [0; 0; 0; 0; 0; 0; 0; 1; 0; 0; 0; 1; 5; 6] 0 1 1);
    try reflexivity; try (vm_compute; discriminate).
  left. lia.
Defined.

(** X16.  Whatever an input of at most [INT_MAX] - 12 bytes holds, an
    image the parser returns has a width that is not negative, a positive
    height, one to four channels and no more bytes than the input. *)
Theorem decoded_image_shape (bytes : list Z) (img : ImageData) :
  vec_size bytes + 12 <= INT_MAX ->
  parseSimpleImage bytes = Returned img ->
  0 <= width img /\ 1 <= height img /\ 1 <= channels img <= 4 /\
  vec_size (data img) <= vec_size bytes.
Proof.
  intros Hmax E.
  destruct (Z.lt_ge_cases (vec_size bytes) 12) as [Hshort|Hlong].
  { unfold parseSimpleImage in E.
    destruct (Z.ltb_spec (vec_size bytes) 12); [discriminate | lia]. }
  destruct (readInt_defined bytes 0) as [w0 R0]; try lia.
  destruct (readInt_defined bytes 4) as [h0 R4]; try lia.
  destruct (readInt_defined bytes 8) as [c0 R8]; try lia.
  destruct (header_invalid w0 h0 c0) eqn:Hinv.
  - rewrite (parse_invalid_header bytes w0 h0 c0 Hlong R0 R4 R8 Hinv Hmax) in E.
    apply Returned_inj in E. subst img.
    pose proof (vec_size_nonneg bytes).
    destruct (Z.ltb_spec (vec_size bytes) 300).
    + cbn [data width height channels]. change (vec_size []) with 0. lia.
    + assert (1 <= vec_size bytes / 300) by (apply Z.div_le_lower_bound; lia).
      destruct (Z.leb_spec 12 (vec_size bytes mod 300));
        cbv beta iota delta [data width height channels];
        repeat split; try lia.
      unfold vec_size. rewrite length_firstn, length_skipn. lia.
  - rewrite (parse_valid_header bytes w0 h0 c0 Hlong R0 R4 R8 Hinv) in E.
    destruct (header_valid_inv w0 h0 c0 Hinv) as [Hw [Hh Hc]].
    destruct (if expectedSize w0 h0 c0 <=? vec_size bytes
              then assign_range bytes 12 (expectedSize w0 h0 c0)
              else assign_range bytes 0 (vec_size bytes)) as [p| |] eqn:Ep;
      cbn [bind] in E; try discriminate.
    injection E as <-. cbn [data width height channels].
    repeat split; try lia.
    destruct (expectedSize w0 h0 c0 <=? vec_size bytes);
      apply (assign_range_size _ _ _ _ Ep).
Qed.

Lemma decoded_image_shape_witness :
  0 <= width (mkImage [255; 0; 0; 0; 255; 0] 2 1 3) /\
  1 <= height (mkImage [255; 0; 0; 0; 255; 0] 2 1 3) /\
  1 <= channels (mkImage [255; 0; 0; 0; 255; 0] 2 1 3) <= 4 /\
  vec_size (data (mkImage [255; 0; 0; 0; 255; 0] 2 1 3)) <= vec_size two_pixels.
Proof.
  apply (decoded_image_shape two_pixels); [vm_compute; discriminate|].
  reflexivity.
Defined.

(** ** The worker around the addon *)

(** X17.  The worker's length check cannot fail on a buffer the addon
    returned: for every input and bounds, a returned buffer holds the 12
    header bytes. *)
Theorem addon_output_has_header (bytes : list Z) (maxW maxH : Z)
  (out : list Z) :
  ProcessImage bytes maxW maxH = Returned out ->
  12 <= vec_size out /\
  forall what, unpack_processed out <> Thrown what.
Proof.
  intros E. destruct (ProcessImage_returns bytes maxW maxH out E) as [g ->].
  pose proof (vec_size_encode g) as L.
  pose proof (vec_size_nonneg (data g)).
  split; [lia|]. intros what. unfold unpack_processed.
  destruct (Z.ltb_spec (vec_size (encodeAsJPEG g)) 12); [lia | discriminate].
Qed.

Lemma addon_output_has_header_witness :
  12 <= vec_size [0; 0; 0; 2; 0; 0; 0; 2; 0; 0; 0; 1; 10; 20; 30; 40] /\
  forall what,
    unpack_processed [0; 0; 0; 2; 0; 0; 0; 2; 0; 0; 0; 1; 10; 20; 30; 40]
    <> Thrown what.
Proof.
  apply (addon_output_has_header
           (encodeAsJPEG (mkImage [10; 20; 30; 40] 2 2 1)) 800 600).
  vm_compute. reflexivity.
Defined.

(** X18.  From the worker through the addon and back: for a decoded
    image with metadata and raw pixels that agree, and target dimensions
    that are both positive, what the worker unpacks for the JPEG encoder
    is a single-channel image of the target dimensions with exactly
    dstW * dstH bytes. *)
Theorem worker_hands_over_consistent_image (metadata : ImageData)
  (maxW maxH dstW dstH : Z) :
  valid_buffer metadata ->
  12 + width metadata * height metadata * channels metadata <= INT_MAX ->
  computeTargetDimensions (width metadata) (height metadata) maxW maxH
  = (dstW, dstH) ->
  1 <= dstW -> 1 <= dstH -> 12 + dstW * dstH * channels metadata <= INT_MAX ->
  exists rawBuffer gray,
    ProcessImage (inputForCpp metadata) maxW maxH = Returned rawBuffer /\
    unpack_processed rawBuffer = Returned (mkImage gray dstW dstH 1) /\
    vec_size gray = dstW * dstH * 1.
Proof.
  intros Hv Hn Hdim HdW HdH Hm.
  assert (Epack : inputForCpp metadata = encodeAsJPEG metadata).
  { unfold inputForCpp, encodeAsJPEG. now rewrite <- !app_assoc. }
  rewrite Epack.
  destruct (ProcessImage_shape metadata maxW maxH dstW dstH Hv Hn Hdim
              HdW HdH Hm) as [gray [E L]].
  exists (encodeAsJPEG (mkImage gray dstW dstH 1)), gray.
  split; [exact E|]. split; [|lia].
  destruct Hv as [_ [_ [Hc _]]].
  assert (B1 : dstW * 1 <= dstW * dstH)
    by (apply Z.mul_le_mono_nonneg_l; lia).
  assert (B2 : dstH * 1 <= dstH * dstW)
    by (apply Z.mul_le_mono_nonneg_l; lia).
  assert (B3 : dstW * dstH * 1 <= dstW * dstH * channels metadata)
    by (apply Z.mul_le_mono_nonneg_l; nia).
  apply unpack_encode; cbn [width height channels];
    unfold in_int, INT_MIN, INT_MAX in *; lia.
Qed.

Lemma worker_hands_over_consistent_image_witness :
  exists rawBuffer gray,
    ProcessImage (inputForCpp (mkImage [1; 2; 3; 4; 5; 6; 7; 8] 4 2 1)) 2 2
    = Returned rawBuffer /\
    unpack_processed rawBuffer = Returned (mkImage gray 2 1 1) /\
    vec_size gray = 2 * 1 * 1.
Proof.
  assert (Hv : valid_buffer (mkImage [1; 2; 3; 4; 5; 6; 7; 8] 4 2 1)).
  { unfold valid_buffer, well_sized. cbn [data width height channels].
    repeat split; try lia.
    repeat (apply Forall_cons; [unfold is_byte; lia|]). apply Forall_nil. }
  assert (Hn : 12 + width (mkImage [1; 2; 3; 4; 5; 6; 7; 8] 4 2 1)
                    * height (mkImage [1; 2; 3; 4; 5; 6; 7; 8] 4 2 1)
                    * channels (mkImage [1; 2; 3; 4; 5; 6; 7; 8] 4 2 1)
               <= INT_MAX)
    by (vm_compute; discriminate).
  assert (Hm : 12 + 2 * 1 * channels (mkImage [1; 2; 3; 4; 5; 6; 7; 8] 4 2 1)
               <= INT_MAX)
    by (vm_compute; discriminate).
  apply (worker_hands_over_consistent_image
           (mkImage [1; 2; 3; 4; 5; 6; 7; 8] 4 2 1) 2 2 2 1 Hv Hn eq_refl
           ltac:(lia) ltac:(lia) Hm).
Defined.

(** ** The distributor *)

(** X19.  After any events, [activeJobs] is the number of calls whose
    handlers are registered on a worker - a call that timed out is still
    counted until its worker answers - and [totalJobs] is the number of
    files given. *)
Theorem active_jobs_count_registrations (workerCount : nat)
  (imageFiles : list string) (events : list event) :
  let st := run workerCount imageFiles events in
  activeJobs st = Z.of_nat (registered st) /\
  0 <= activeJobs st /\
  totalJobs st = Z.of_nat (length imageFiles).
Proof.
  cbv zeta.
  destruct (run_balanced workerCount imageFiles events) as [B1 [B2 _]].
  repeat split; auto. lia.
Qed.

(** X20.  After any events, the jobs counted as completed and those
    counted as active together never exceed the number of files, and the
    paths collected never exceed the completed jobs. *)
Theorem progress_within_total (workerCount : nat) (imageFiles : list string)
  (events : list event) :
  let st := run workerCount imageFiles events in
  Z.of_nat (length (processedImages st)) <= completedJobs st /\
  completedJobs st + activeJobs st <= totalJobs st.
Proof.
  cbv zeta.
  destruct (run_balanced workerCount imageFiles events) as [B1 [B2 _]].
  destruct (run_counted workerCount imageFiles events) as [[C1 [C2 C3]] _].
  split; [exact C1|]. rewrite B1, B2. lia.
Qed.

(** X21.  No file is lost, dispatched twice or overtaken: as long as no
    name is the empty string, the files of the calls made so far,
    followed by the queue, are the files given, in their order. *)
Theorem files_dispatched_in_order (workerCount : nat)
  (imageFiles : list string) (events : list event) :
  Forall (fun f => f <> EmptyString) imageFiles ->
  let st := run workerCount imageFiles events in
  map c_imageFile (calls st) ++ pendingQueue st = imageFiles.
Proof.
  intros Hf. cbv zeta.
  apply (proj1 (run_conserved workerCount imageFiles events Hf)).
Qed.

Lemma files_dispatched_in_order_witness :
  let st := run 1 ["in/a.jpg"; "in/b.jpg"; "in/c.jpg"]%string
              [TimerFired 0; Message 0 reply_a] in
  map c_imageFile (calls st) ++ pendingQueue st
  = ["in/a.jpg"; "in/b.jpg"; "in/c.jpg"]%string.
Proof.
  apply (files_dispatched_in_order 1).
  repeat constructor; discriminate.
Defined.

(** X22.  The start hands the first files to the workers 0, 1, ... in
    turn, one each: with no empty name among the files, the state after
    [processImageQueue] has started the loops is [started], with
    min(workerCount, files) calls pending and the other files queued. *)
Theorem start_hands_out_first_files (workerCount : nat)
  (imageFiles : list string) :
  Forall (fun f => f <> EmptyString) imageFiles ->
  processImageQueue workerCount imageFiles = started workerCount imageFiles.
Proof.
  intros Hf. unfold processImageQueue, started.
  apply (start_stage workerCount imageFiles workerCount Hf (Nat.le_refl _)).
Qed.

Lemma start_hands_out_first_files_witness :
  processImageQueue 2 ["in/a.jpg"; "in/b.jpg"; "in/c.jpg"]%string
  = mkProcessor ["in/c.jpg"%string] [] 2 0 3
      [mkCall 0 "in/a.jpg" Pending true; mkCall 1 "in/b.jpg" Pending true]
      [[0%nat]; [1%nat]] [Some 0%nat; Some 1%nat].
Proof.
  apply (start_hands_out_first_files 2
           ["in/a.jpg"; "in/b.jpg"; "in/c.jpg"]%string).
  repeat constructor; discriminate.
Defined.

(** X23.  Without workers, or without files, [processImageQueue] returns
    at once with no path, whatever happens afterwards; without workers no
    file is ever taken from the queue. *)
Theorem nothing_to_do_returns_at_once (workerCount : nat)
  (imageFiles : list string) (events : list event) :
  workerCount = 0%nat \/ imageFiles = [] ->
  returned (run workerCount imageFiles events) = Some [] /\
  calls (run workerCount imageFiles events) = [].
Proof.
  intros H. unfold run.
  assert (Hi : idle (processImageQueue workerCount imageFiles) /\
               processedImages (processImageQueue workerCount imageFiles) = []).
  { unfold processImageQueue. destruct H as [-> | ->].
    - cbn [seq fold_left repeat]. unfold idle. cbn. auto.
    - match goal with |- context [fold_left _ ?ws ?s] =>
        destruct (start_on_empty_queue ws s) as [I P] end.
      + unfold idle. cbn [calls listeners awaiting].
        repeat split; apply Forall_forall; intros x Hx;
          now apply repeat_spec in Hx.
      + reflexivity.
      + auto. }
  destruct Hi as [Hi Hp]. rewrite (run_idle _ events Hi).
  rewrite (returned_idle _ Hi), Hp. split; [reflexivity | apply Hi].
Qed.

Lemma nothing_to_do_returns_at_once_witness :
  returned (run 0 ["in/a.jpg"%string] [Message 0 reply_a]) = Some [] /\
  calls (run 0 ["in/a.jpg"%string] [Message 0 reply_a]) = [].
Proof. apply nothing_to_do_returns_at_once. now left. Defined.

(** X24.  A name that is the empty string ends the loop of the worker
    that takes it and is dropped: with one worker and such a name at the
    head of the files, [processImageQueue] returns at once with no path,
    and the files behind it stay in the queue for ever. *)
Theorem empty_name_stops_lone_worker (rest : list string)
  (events : list event) :
  let st := run 1 (EmptyString :: rest) events in
  returned st = Some [] /\ calls st = [] /\ pendingQueue st = rest.
Proof.
  cbv zeta. unfold run.
  assert (Hi : idle (processImageQueue 1 (EmptyString :: rest))).
  { unfold idle. cbn. repeat split; repeat constructor. }
  rewrite (run_idle _ events Hi). rewrite (returned_idle _ Hi).
  repeat split.
Qed.

(** X25.  As long as no timer fires, a worker never has the handlers of
    more than one call registered, and no more jobs are active than there
    are workers. *)
Theorem one_call_per_worker (workerCount : nat) (imageFiles : list string)
  (events : list event) :
  Forall (fun e => is_timer e = false) events ->
  let st := run workerCount imageFiles events in
  (forall w, (length (nth w (listeners st) []) <= 1)%nat) /\
  activeJobs st <= Z.of_nat workerCount.
Proof.
  intros Hev. cbv zeta.
  destruct (run_exclusive workerCount imageFiles events Hev) as [_ Hslots].
  destruct (run_balanced workerCount imageFiles events) as [_ [B2 _]].
  pose proof (run_workers workerCount imageFiles events) as Hn.
  split.
  - intros w. apply slot_short, Hslots.
  - rewrite B2. unfold registered.
    pose proof (list_sum_short (listeners (run workerCount imageFiles events)))
      as Hs.
    rewrite Hn in Hs. apply Nat2Z.inj_le, Hs.
    intros l Hin. destruct (In_nth _ _ [] Hin) as [w [_ <-]].
    apply slot_short, Hslots.
Qed.

Lemma one_call_per_worker_witness :
  let st := run 2 ["in/a.jpg"; "in/b.jpg"; "in/c.jpg"]%string
              [Message 0 reply_a; WorkerError 1 "boom"] in
  (forall w, (length (nth w (listeners st) []) <= 1)%nat) /\
  activeJobs st <= Z.of_nat 2.
Proof.
  apply (one_call_per_worker 2). repeat constructor.
Defined.

(** X26.  As long as no timer has fired, a reply settles the call its
    worker is busy with: the job is counted as completed whatever the
    reply reports, the call is resolved with the reply and its output path collected when the reply
    reports success and rejected with the reply's error otherwise, and
    the timer of the call is cleared - its firing later changes
    nothing. *)
Theorem reply_settles_awaited_call (workerCount : nat)
  (imageFiles : list string) (events : list event) (w id : nat) (r : reply) :
  Forall (fun e => is_timer e = false) events ->
  let st := run workerCount imageFiles events in
  nth w (awaiting st) None = Some id ->
  let st' := handle st (Message w r) in
  promise_of st' id = Some (settled_by r) /\
  completedJobs st' = completedJobs st + 1 /\
  processedImages st' = pushed (processedImages st) r /\
  handle st' (TimerFired id) = st'.
Proof.
  intros Hev. cbv zeta. intros Ha.
  pose proof (run_exclusive workerCount imageFiles events Hev) as Hex.
  set (st := run workerCount imageFiles events) in *.
  pose proof (proj2 Hex w) as Sw. unfold slot_ok in Sw. rewrite Ha in Sw.
  destruct Sw as [Hl _].
  cbn [handle]. rewrite Hl. cbn [fold_left].
  unfold messageHandler, settled_by, pushed. destruct (r_success r).
  - destruct (handler_step w id (Resolved r) (pendingQueue st)
                (processedImages st ++ [r_outputPath r])
                (activeJobs st - 1) (completedJobs st + 1) (totalJobs st)
                st ltac:(discriminate) Hex Ha) as [K1 [K2 [K3 K4]]].
    repeat split; assumption.
  - destruct (handler_step w id (Rejected (ReplyError (r_error r)))
                (pendingQueue st) (processedImages st)
                (activeJobs st - 1) (completedJobs st + 1) (totalJobs st)
                st ltac:(discriminate) Hex Ha) as [K1 [K2 [K3 K4]]].
    repeat split; assumption.
Qed.

Lemma reply_settles_awaited_call_witness :
  let st := run 1 ["in/a.jpg"; "in/b.jpg"]%string [] in
  let st' := handle st (Message 0 reply_failed) in
  promise_of st' 0 = Some (settled_by reply_failed) /\
  completedJobs st' = completedJobs st + 1 /\
  processedImages st' = pushed (processedImages st) reply_failed /\
  handle st' (TimerFired 0) = st'.
Proof.
  apply (reply_settles_awaited_call 1 ["in/a.jpg"; "in/b.jpg"]%string [] 0 0
           reply_failed); [constructor | reflexivity].
Defined.

(** X27.  As long as no timer has fired, an error emitted by a worker
    rejects the call the worker is busy with, with that error; the job is
    not counted as completed, no path is collected, and the timer of the
    call is cleared. *)
Theorem error_rejects_without_counting (workerCount : nat)
  (imageFiles : list string) (events : list event) (w id : nat) (m : string) :
  Forall (fun e => is_timer e = false) events ->
  let st := run workerCount imageFiles events in
  nth w (awaiting st) None = Some id ->
  let st' := handle st (WorkerError w m) in
  promise_of st' id = Some (Rejected (EmittedError m)) /\
  completedJobs st' = completedJobs st /\
  processedImages st' = processedImages st /\
  handle st' (TimerFired id) = st'.
Proof.
  intros Hev. cbv zeta. intros Ha.
  pose proof (run_exclusive workerCount imageFiles events Hev) as Hex.
  set (st := run workerCount imageFiles events) in *.
  pose proof (proj2 Hex w) as Sw. unfold slot_ok in Sw. rewrite Ha in Sw.
  destruct Sw as [Hl _].
  cbn [handle]. rewrite Hl. cbn [fold_left]. unfold errorHandler.
  destruct (handler_step w id (Rejected (EmittedError m)) (pendingQueue st)
              (processedImages st) (activeJobs st - 1) (completedJobs st)
              (totalJobs st) st ltac:(discriminate) Hex Ha)
    as [K1 [K2 [K3 K4]]].
  repeat split; assumption.
Qed.

Lemma error_rejects_without_counting_witness :
  let st := run 1 ["in/a.jpg"; "in/b.jpg"]%string [] in
  let st' := handle st (WorkerError 0 "boom") in
  promise_of st' 0 = Some (Rejected (EmittedError "boom")) /\
  completedJobs st' = completedJobs st /\
  processedImages st' = processedImages st /\
  handle st' (TimerFired 0) = st'.
Proof.
  apply (error_rejects_without_counting 1 ["in/a.jpg"; "in/b.jpg"]%string []
           0 0 "boom"); [constructor | reflexivity].
Defined.
